(** * Dataset-preparation pipeline: mask binarisation, pair reconciliation,
      aspect-preserving resize.

    Shallow embedding of the four scripts
      - [fix_masks_to_binary.py]      (module [Binarizer]),
      - [prune_unpaired_pairs.py]     (module [Prune]),
      - [gather_images_and_masks.py]  (module [Gather]),
      - [resize_dataset_256.py]       (module [Resize]),
    followed by the properties established about them. *)

From Stdlib Require Import ZArith List Bool Ascii String Lia Zpower.
From Stdlib Require Import Floats.SpecFloat.
From Stdlib Require Import Reals Lra.
From stdpp Require Import base decidable list sets gmap strings sorting.

Local Open Scope Z_scope.

(* ===================================================================== *)
(** * Python strings and [pathlib] paths over a shared file store *)
(* ===================================================================== *)

(** [str] methods used by the scripts.  A [string] is a Python [str] read
    character by character: each [ascii] is one code point, from 0 to 255. *)
Module PyStr.

(** [c.lower()] for a code point below 256: [A]-[Z] and the capital
    letters of Latin-1 (192 to 222, the sign at 215 apart) move up by 32;
    every other code point is its own lower case. *)
Definition lower_char (c : ascii) : ascii :=
  let n := nat_of_ascii c in
  if ((65 <=? n) && (n <=? 90)
      || (192 <=? n) && (n <=? 222) && negb (n =? 215))%nat
  then ascii_of_nat (n + 32) else c.

(** [s.lower()] *)
Fixpoint lower (s : string) : string :=
  match s with
  | EmptyString => EmptyString
  | String c s' => String (lower_char c) (lower s')
  end.

(** [s.startswith(p)] *)
Definition startswith (s p : string) : bool := String.prefix p s.

(** [s.endswith(suf)] *)
Definition endswith (s suf : string) : bool :=
  let n := String.length s in
  let m := String.length suf in
  ((m <=? n)%nat && String.eqb (String.substring (n - m) m s) suf)%bool.

(** [sub in s] *)
Fixpoint contains (s sub : string) : bool :=
  String.prefix sub s ||
  match s with
  | EmptyString => false
  | String _ s' => contains s' sub
  end.

(** [s[:-k]] for [k > 0]: the index is clamped at 0 when [s] is short. *)
Definition drop_last (k : nat) (s : string) : string :=
  String.substring 0 (String.length s - k) s.

(** [s[i:]] *)
Definition from (i : nat) (s : string) : string :=
  String.substring i (String.length s - i) s.

(** [s.rfind(c)], [None] for -1. *)
Fixpoint rfind (c : ascii) (s : string) : option nat :=
  match s with
  | EmptyString => None
  | String a s' =>
      match rfind c s' with
      | Some i => Some (S i)
      | None => if Ascii.eqb a c then Some O else None
      end
  end.

(** The text after the first occurrence of [sep] in [t], if any. *)
Fixpoint after_first (sep t : string) : option string :=
  if String.prefix sep t then Some (from (String.length sep) t)
  else match t with
       | EmptyString => None
       | String _ t' => after_first sep t'
       end.

(** [s.split(sep)[-1]] for a non-empty [sep]: cut at each occurrence
    found from the left and keep what follows the last cut. *)
Fixpoint split_last_from (fuel : nat) (sep s : string) : string :=
  match fuel with
  | O => s
  | S fuel' =>
      match after_first sep s with
      | Some rest => split_last_from fuel' sep rest
      | None => s
      end
  end.

Definition split_last (sep s : string) : string :=
  split_last_from (S (String.length s)) sep s.

End PyStr.

(** [pathlib.Path] values as component lists, and the directory tree the
    scripts share: every stage reads and mutates the one store. *)
Module Fs.

Definition path := list string.

(** A file with one name is [File data].  The names of a file that has
    several, as a hard link makes them, are [Shared ino data] entries with
    one [ino] and the same bytes: a write through one of the names is a
    write to all of them, and removing a name leaves the others. *)
Inductive node :=
| Dir
| File (data : string)
| Shared (ino : nat) (data : string).

(** The store lists its entries in the order the operating system
    enumerates them; [iterdir] and [rglob] inherit that order. *)
Definition fs := list (path * node).

(** [base / name] *)
Definition join (base : path) (name : string) : path := base ++ [name].

(** [p.name], [p.parent] *)
Definition name (p : path) : string := List.last p EmptyString.
Definition parent (p : path) : path := List.removelast p.

(** [p.suffix] and [p.stem] (CPython up to 3.13):
    [i = name.rfind('.')], split there when [0 < i < len(name) - 1]. *)
Definition split_at_dot (nm : string) : option nat :=
  match PyStr.rfind "."%char nm with
  | Some i =>
      if ((0 <? i) && (i <? String.length nm - 1))%nat then Some i else None
  | None => None
  end.

Definition suffix (p : path) : string :=
  match split_at_dot (name p) with
  | Some i => PyStr.from i (name p)
  | None => EmptyString
  end.

Definition stem (p : path) : string :=
  match split_at_dot (name p) with
  | Some i => String.substring 0 i (name p)
  | None => name p
  end.

Definition path_eqb (p q : path) : bool := bool_decide (p = q).

Definition lookup (s : fs) (p : path) : option node :=
  snd <$> List.find (fun e => path_eqb (fst e) p) s.

Definition is_file (s : fs) (p : path) : bool :=
  match lookup s p with
  | Some (File _) | Some (Shared _ _) => true
  | _ => false
  end.

(** The bytes of the file named [p]. *)
Definition read (s : fs) (p : path) : option string :=
  match lookup s p with
  | Some (File data) | Some (Shared _ data) => Some data
  | _ => None
  end.

(** The file [p] names, when it has other names too. *)
Definition ino_of (s : fs) (p : path) : option nat :=
  match lookup s p with
  | Some (Shared ino _) => Some ino
  | _ => None
  end.

(** [os.path.samefile(p, q)], [False] when it raises: one name, or two
    names of one file. *)
Definition samefile (s : fs) (p q : path) : bool :=
  match lookup s p, lookup s q with
  | Some _, Some _ =>
      path_eqb p q
      || match ino_of s p, ino_of s q with
         | Some i, Some j => Nat.eqb i j
         | _, _ => false
         end
  | _, _ => false
  end.

(** A number no shared file of the store has. *)
Definition fresh_ino (s : fs) : nat :=
  S (list_max (map (fun e => match snd e with
                             | Shared ino _ => ino
                             | _ => O
                             end) s)).

Definition is_dir (s : fs) (p : path) : bool :=
  match lookup s p with Some Dir => true | _ => false end.

Definition exists_ (s : fs) (p : path) : bool :=
  match lookup s p with Some _ => true | None => false end.

(** [q] lies strictly below [base]. *)
Definition below (base q : path) : bool :=
  bool_decide (base `prefix_of` q) && negb (path_eqb base q).

(** [base.rglob("*")]: every entry below [base], hidden ones included. *)
Definition rglob (s : fs) (base : path) : list path :=
  List.filter (below base) (map fst s).

(** [base.iterdir()] on a directory: its direct children. *)
Definition children (s : fs) (base : path) : list path :=
  List.filter (fun q => negb (path_eqb q []) && path_eqb (parent q) base)
              (map fst s).

(** [p.unlink()]: removes a file; [None] when it raises (no such file,
    or a directory). *)
Definition unlink (s : fs) (p : path) : option fs :=
  if is_file s p
  then Some (List.filter (fun e => negb (path_eqb (fst e) p)) s)
  else None.

(** Well-formed stores name each path once. *)
Definition wf (s : fs) : Prop := NoDup (map fst s).

End Fs.

(* ===================================================================== *)
(** * fix_masks_to_binary.py *)
(* ===================================================================== *)

Module Binarizer.

Definition IMG_EXTS : gset string :=
  {[ ".jpg"; ".jpeg"; ".png"; ".bmp"; ".tif"; ".tiff"; ".webp" ]}%string.
Definition MASK_SUFFIX : string := "_mask".

(** A 2D [uint8] array: rows of samples.  Samples are integers; the
    wrap-around of [astype(np.uint8)] is written out where the source
    casts. *)
Definition buffer := list (list Z).

Definition uint8 (v : Z) : Z := v mod 256.

(** [arr.shape] for a (possibly ragged) nest of rows: the row lengths. *)
Definition shape (arr : buffer) : list nat := map (@length Z) arr.

(** [np.unique(arr)]: the sorted distinct samples of the flattened array. *)
Definition np_unique (arr : buffer) : list Z :=
  merge_sort Z.le (remove_dups (concat arr)).

(** [set(u.tolist())] *)
Definition set_of (u : list Z) : gset Z := list_to_set u.

(** [np.where(arr > 0, 255, 0).astype(np.uint8)] *)
Definition where_gt0 (arr : buffer) : buffer :=
  map (map (fun v => uint8 (if 0 <? v then 255 else 0))) arr.

(** [(arr * 255).astype(np.uint8)] *)
Definition times255 (arr : buffer) : buffer :=
  map (map (fun v => uint8 (v * 255))) arr.

(** [binarize_array(arr, thresh=127)]; [thresh] is never read. *)
Definition binarize_array (arr : buffer) (thresh : Z) : buffer :=
  let u := np_unique arr in
  if bool_decide (set_of u ⊆ {[0; 255]}) then arr
  else if bool_decide (set_of u ⊆ {[0; 1]}) then times255 arr
  else where_gt0 arr.

Definition binarize (arr : buffer) : buffer := binarize_array arr 127.

(** [arr[i, j]] *)
Definition sample_at (arr : list (list Z)) (i j : nat) : option Z :=
  arr !! i ≫= fun row => row !! j.

(** The list [files] built by [main]. *)
Definition mask_files (s : Fs.fs) (mask_dir : Fs.path) : list Fs.path :=
  List.filter
    (fun p => bool_decide (PyStr.lower (Fs.suffix p) ∈ IMG_EXTS)
              && Fs.is_file s p)
    (Fs.rglob s mask_dir).

End Binarizer.

(* ===================================================================== *)
(** * prune_unpaired_pairs.py *)
(* ===================================================================== *)

Module Prune.
Import Fs.

Definition IMG_EXTS : gset string :=
  {[ ".jpg"; ".jpeg"; ".png"; ".bmp"; ".tif"; ".tiff"; ".webp" ]}%string.
Definition MASK_SUFFIX : string := "_mask".

(** The test of [iter_media_files]. *)
Definition is_media (s : fs) (exts : gset string) (p : path) : bool :=
  is_file s p
  && bool_decide (PyStr.lower (suffix p) ∈ exts)
  && negb (PyStr.startswith (name p) ".").

Definition iter_media_files (s : fs) (folder : path) (exts : gset string)
  : list path :=
  List.filter (is_media s exts) (rglob s folder).

(** [stem[: -len(MASK_SUFFIX)]] *)
Definition strip_mask (stem : string) : string :=
  PyStr.drop_last (String.length MASK_SUFFIX) stem.

(** The loop filling [mask_bases]. *)
Fixpoint add_mask_bases (masks : list path) (mask_bases : gset string)
  : gset string :=
  match masks with
  | [] => mask_bases
  | m :: rest =>
      let stem := stem m in
      if PyStr.endswith stem MASK_SUFFIX
      then add_mask_bases rest (mask_bases ∪ {[ strip_mask stem ]})
      else add_mask_bases rest mask_bases
  end.

Definition compute_bases (s : fs) (img_dir mask_dir : path)
  : gset string * gset string * list path * list path :=
  let images := iter_media_files s img_dir IMG_EXTS in
  let masks := iter_media_files s mask_dir IMG_EXTS in
  let image_bases : gset string := list_to_set (map stem images) in
  let mask_bases := add_mask_bases masks ∅ in
  (image_bases, mask_bases, images, masks).

(** What [main] prints, one constructor per message. *)
Inductive message :=
| Counts (images masks unpaired_images unpaired_masks : nat)
| ImagesToDelete (ps : list path)
| MasksToDelete (ps : list path)
| DryRunNotice
| WarnCouldNotDelete (p : path)
| Summary (deleted : nat).

(** The loop collecting [unpaired_masks]. *)
Fixpoint collect_unpaired_masks (image_bases : gset string)
  (masks : list path) (unpaired_masks : list path) : list path :=
  match masks with
  | [] => unpaired_masks
  | m :: rest =>
      let stem := stem m in
      if negb (PyStr.endswith stem MASK_SUFFIX)
      then collect_unpaired_masks image_bases rest (unpaired_masks ++ [m])
      else
        let base := strip_mask stem in
        if bool_decide (base ∉ image_bases)
        then collect_unpaired_masks image_bases rest (unpaired_masks ++ [m])
        else collect_unpaired_masks image_bases rest unpaired_masks
  end.

(** The deletion loop: each [unlink] is tried, a failure is reported
    and the loop goes on. *)
Fixpoint delete_all (ps : list path) (s : fs) (deleted : nat)
  (out : list message) : fs * nat * list message :=
  match ps with
  | [] => (s, deleted, out)
  | p :: rest =>
      match unlink s p with
      | Some s' => delete_all rest s' (S deleted) out
      | None => delete_all rest s deleted (out ++ [WarnCouldNotDelete p])
      end
  end.

Definition when_nonempty (ps : list path) (m : list message)
  : list message :=
  match ps with [] => [] | _ => m end.

(** [main] with the parsed arguments; [None] is [SystemExit]. *)
Definition main (s : fs) (img_dir mask_dir : path) (dry_run : bool)
  : option (fs * list message) :=
  if negb (is_dir s img_dir) || negb (is_dir s mask_dir) then None
  else
    let '(image_bases, mask_bases, images, masks) :=
      compute_bases s img_dir mask_dir in
    let unpaired_images :=
      List.filter (fun p => bool_decide (stem p ∉ mask_bases)) images in
    let unpaired_masks := collect_unpaired_masks image_bases masks [] in
    let out :=
      [Counts (length images) (length masks)
              (length unpaired_images) (length unpaired_masks)]
      ++ when_nonempty unpaired_images [ImagesToDelete unpaired_images]
      ++ when_nonempty unpaired_masks [MasksToDelete unpaired_masks] in
    if dry_run then Some (s, out ++ [DryRunNotice])
    else
      let '(s', deleted, out') :=
        delete_all (unpaired_images ++ unpaired_masks) s O out in
      Some (s', out' ++ [Summary deleted]).

(** The candidate lists a run computes before it reports or deletes. *)
Definition candidates (s : fs) (img_dir mask_dir : path)
  : list path * list path :=
  let '(image_bases, mask_bases, images, masks) :=
    compute_bases s img_dir mask_dir in
  (List.filter (fun p => bool_decide (stem p ∉ mask_bases)) images,
   collect_unpaired_masks image_bases masks []).

End Prune.

(* ===================================================================== *)
(** * gather_images_and_masks.py *)
(* ===================================================================== *)

Module Gather.
Import Fs.

Definition IMG_EXTS : gset string :=
  {[ ".jpg"; ".jpeg"; ".png"; ".bmp"; ".tif"; ".tiff" ]}%string.
Definition MASK_SUFFIX : string := "_mask".

Inductive exn :=
| FileExistsError
| FileNotFoundError
| NotADirectoryError
| IsADirectoryError
| SameFileError.

Inductive message :=
| DryCopy (src dst : path)
| WarnSkipping (split_name : string)
| ErrorNoSplits (root : path)
| FoundSplits (names : list string)
| SplitLine (split_name : string) (images masks missing extra : nat)
| SummaryLines (images masks : nat) (missing extra : list string).

(** The store and the text printed so far. *)
Record world := World { store : fs; printed : list message }.

(** Computations that read and write the world and may raise; the world
    reached at the raise is kept, as [try]/[except] observes it. *)
Definition M (A : Type) : Type := world -> (A + exn) * world.

#[export] Instance M_ret : MRet M := fun A a w => (inl a, w).
#[export] Instance M_bind : MBind M := fun A B k m w =>
  match m w with
  | (inl a, w') => k a w'
  | (inr e, w') => (inr e, w')
  end.

Definition pass : M unit := mret tt.
Definition raise {A} (e : exn) : M A := fun w => (inr e, w).
Definition get_store : M fs := fun w => (inl (store w), w).
Definition put_store (s : fs) : M unit :=
  fun w => (inl tt, World s (printed w)).
Definition print (m : message) : M unit :=
  fun w => (inl tt, World (store w) (printed w ++ [m])).

(** [try: body  except Exception: pass]; tells whether [body] finished. *)
Definition try_pass (body : M unit) : M bool := fun w =>
  match body w with
  | (inl _, w') => (inl true, w')
  | (inr _, w') => (inl false, w')
  end.

(** [base.iterdir()] *)
Definition iterdir (base : path) : M (list path) :=
  s ← get_store;
  if is_dir s base then mret (children s base) else raise NotADirectoryError.

(** [p.mkdir(parents=True, exist_ok=True)]: the missing directories on
    the way to [p] are created; an entry that is not a directory in the
    way raises. *)
Fixpoint mkdir_chain (todo : list string) (done : path) : M unit :=
  match todo with
  | [] => pass
  | c :: rest =>
      let q := join done c in
      s ← get_store;
      match lookup s q with
      | Some Dir => mkdir_chain rest q
      | Some (File _) | Some (Shared _ _) =>
          raise (match rest with
                 | [] => FileExistsError
                 | _ => NotADirectoryError
                 end)
      | None => put_store (s ++ [(q, Dir)]);; mkdir_chain rest q
      end
  end.

Definition mkdir_parents (p : path) : M unit := mkdir_chain p [].

(** Writing a file at [dst] (opened for writing, which truncates): in
    place when [dst] is there, under every name of the file when it has
    several; else as a new entry. *)
Definition write_file (s : fs) (dst : path) (data : string) : fs :=
  match lookup s dst with
  | Some (Shared ino _) =>
      map (fun e => match snd e with
                    | Shared j _ =>
                        if Nat.eqb j ino then (fst e, Shared ino data) else e
                    | _ => e
                    end) s
  | Some _ =>
      map (fun e => if path_eqb (fst e) dst then (dst, File data) else e) s
  | None => s ++ [(dst, File data)]
  end.

(** [shutil.copy2(src, dst)] *)
Definition copy2 (src dst : path) : M unit :=
  s ← get_store;
  let dst := if is_dir s dst then join dst (name src) else dst in
  match lookup s src with
  | None => raise FileNotFoundError
  | Some Dir => raise IsADirectoryError
  | Some (File data) | Some (Shared _ data) =>
      if samefile s src dst then raise SameFileError
      else if is_dir s dst then raise IsADirectoryError
      else if negb (is_dir s (parent dst)) then raise FileNotFoundError
      else put_store (write_file s dst data)
  end.

(** [dst.unlink()] *)
Definition unlink_ (dst : path) : M unit :=
  s ← get_store;
  match unlink s dst with
  | Some s' => put_store s'
  | None => raise (if exists_ s dst then IsADirectoryError
                   else FileNotFoundError)
  end.

(** [dst.hardlink_to(src)]: [dst] becomes one more name of the file
    [src] names. *)
Definition hardlink_to (dst src : path) : M unit :=
  s ← get_store;
  match lookup s src with
  | Some (File data) =>
      if exists_ s dst then raise FileExistsError
      else if negb (is_dir s (parent dst)) then raise FileNotFoundError
      else
        let ino := fresh_ino s in
        put_store
          (map (fun e => if path_eqb (fst e) src
                         then (src, Shared ino data) else e) s
           ++ [(dst, Shared ino data)])
  | Some (Shared ino data) =>
      if exists_ s dst then raise FileExistsError
      else if negb (is_dir s (parent dst)) then raise FileNotFoundError
      else put_store (s ++ [(dst, Shared ino data)])
  | Some Dir => raise IsADirectoryError
  | None => raise FileNotFoundError
  end.

Definition find_dir_exact_or_prefix (base : path) (exact prefix : string)
  : M (option path) :=
  let exact_dir := join base exact in
  s ← get_store;
  if is_dir s exact_dir then mret (Some exact_dir)
  else
    ps ← iterdir base;
    mret (List.find
            (fun p => is_dir s p
                      && PyStr.startswith (PyStr.lower (name p))
                                          (PyStr.lower prefix))
            ps).

(** The file name tried by the strict pattern for one extension. *)
Definition strict_name (basename ext : string) : string :=
  (basename ++ MASK_SUFFIX ++ ext)%string.

(** The test of the relaxed scan. *)
Definition relaxed_match (s : fs) (basename : string) (p : path) : bool :=
  is_file s p
  && bool_decide (PyStr.lower (suffix p) ∈ IMG_EXTS)
  && (let st := PyStr.lower (stem p) in
      PyStr.startswith st (PyStr.lower basename)
      && PyStr.contains st MASK_SUFFIX).

(** [choose_mask_for]; [exts_iter] is the order in which this run of the
    interpreter iterates the set [IMG_EXTS]. *)
Definition choose_mask_for (exts_iter : list string)
  (basename : string) (mask_dir : path) : M (option path) :=
  s ← get_store;
  match List.find
          (fun ext => exists_ s (join mask_dir (strict_name basename ext)))
          exts_iter with
  | Some ext => mret (Some (join mask_dir (strict_name basename ext)))
  | None =>
      ps ← iterdir mask_dir;
      let candidates := List.filter (relaxed_match s basename) ps in
      match candidates with
      | [p] => mret (Some p)
      | _ => mret None
      end
  end.

Definition copy_file (src dst : path) (dry_run hardlink : bool) : M unit :=
  mkdir_parents (parent dst);;
  if dry_run then print (DryCopy src dst)
  else
    linked ←
      (if hardlink
       then try_pass
              (s ← get_store;
               (if exists_ s dst then unlink_ dst else pass);;
               hardlink_to dst src)
       else mret false);
    if (linked : bool) then pass else copy2 src dst.

(** The test of both list comprehensions of [process_split]. *)
Definition is_listed (s : fs) (p : path) : bool :=
  is_file s p && bool_decide (PyStr.lower (suffix p) ∈ IMG_EXTS).

(** Loop state of [process_split]. *)
Record tally := Tally {
  copied_imgs : nat;
  copied_masks : nat;
  imgs_without_mask : list string;
  matched_mask_stems : gset string
}.

(** The [for img in images] loop. *)
Fixpoint copy_images (exts_iter : list string) (split_tag : string)
  (masks_dir out_img out_mask : path) (dry_run hardlink : bool)
  (images : list path) (t : tally) : M tally :=
  match images with
  | [] => mret t
  | img :: rest =>
      let base := stem img in
      let img_dst :=
        join out_img
             (split_tag ++ "_" ++ base ++ PyStr.lower (suffix img))%string in
      copy_file img img_dst dry_run hardlink;;
      mask_path ← choose_mask_for exts_iter base masks_dir;
      t' ←
        match mask_path with
        | None =>
            mret (Tally (S (copied_imgs t)) (copied_masks t)
                        (imgs_without_mask t
                         ++ [(split_tag ++ ":" ++ base)%string])
                        (matched_mask_stems t))
        | Some mask_path =>
            let mask_dst :=
              join out_mask
                   (split_tag ++ "_" ++ base ++ MASK_SUFFIX
                    ++ PyStr.lower (suffix mask_path))%string in
            copy_file mask_path mask_dst dry_run hardlink;;
            mret (Tally (S (copied_imgs t)) (S (copied_masks t))
                        (imgs_without_mask t)
                        (matched_mask_stems t
                         ∪ {[ PyStr.lower (stem mask_path) ]}))
        end;
      copy_images exts_iter split_tag masks_dir out_img out_mask
                  dry_run hardlink rest t'
  end.

(** [process_split]; the dictionary [mask_stems] it fills is never read
    and is left out. *)
Definition process_split (exts_iter : list string)
  (data_dir out_img out_mask : path) (dry_run hardlink : bool)
  : M (nat * nat * list string * list string) :=
  let split_tag := PyStr.split_last "data_" (name data_dir) in
  images_dir ←
    find_dir_exact_or_prefix data_dir ("images_" ++ split_tag) "images_";
  masks_dir ←
    find_dir_exact_or_prefix data_dir ("masks_" ++ split_tag) "masks_";
  match images_dir, masks_dir with
  | Some images_dir, Some masks_dir =>
      s ← get_store;
      let images := List.filter (is_listed s) (rglob s images_dir) in
      let masks := List.filter (is_listed s) (rglob s masks_dir) in
      t ← copy_images exts_iter split_tag masks_dir out_img out_mask
                      dry_run hardlink images (Tally O O [] ∅);
      let extra_masks :=
        map (fun m => (split_tag ++ ":" ++ stem m)%string)
            (List.filter
               (fun m => PyStr.contains (PyStr.lower (stem m)) MASK_SUFFIX
                         && bool_decide (PyStr.lower (stem m)
                                         ∉ matched_mask_stems t))
               masks) in
      mret (copied_imgs t, copied_masks t, imgs_without_mask t, extra_masks)
  | _, _ =>
      print (WarnSkipping (name data_dir));;
      mret (O, O, [], [])
  end.

(** Totals kept by [main]. *)
Record totals := Totals {
  total_i : nat;
  total_m : nat;
  total_missing : list string;
  total_extra : list string
}.

(** The [for d in splits] loop. *)
Fixpoint run_splits (exts_iter : list string) (out_img out_mask : path)
  (dry_run hardlink : bool) (splits : list path) (acc : totals) : M totals :=
  match splits with
  | [] => mret acc
  | d :: rest =>
      r ← process_split exts_iter d out_img out_mask dry_run hardlink;
      let '(ni, nm, missing, extra) := r in
      print (SplitLine (name d) ni nm (length missing) (length extra));;
      run_splits exts_iter out_img out_mask dry_run hardlink rest
        (Totals (total_i acc + ni) (total_m acc + nm)
                (total_missing acc ++ missing) (total_extra acc ++ extra))
  end.

(** Order of [sorted] on sibling paths: by name, code point by code
    point. *)
Definition path_le (p q : path) : Prop := Is_true (String.leb (name p) (name q)).

Definition main (exts_iter : list string) (root out : path)
  (dry_run hardlink : bool) : M unit :=
  let out_img := join out "img" in
  let out_mask := join out "mask" in
  ps ← iterdir root;
  s ← get_store;
  let splits :=
    merge_sort path_le
      (List.filter
         (fun p => is_dir s p
                   && PyStr.startswith (PyStr.lower (name p)) "data_c")
         ps) in
  match splits with
  | [] => print (ErrorNoSplits root)
  | _ =>
      print (FoundSplits (map name splits));;
      acc ← run_splits exts_iter out_img out_mask dry_run hardlink splits
                       (Totals O O [] []);
      print (SummaryLines (total_i acc) (total_m acc)
                          (total_missing acc) (total_extra acc))
  end.

End Gather.

(* ===================================================================== *)
(** * resize_dataset_256.py *)
(* ===================================================================== *)

(** Python [float] is IEEE 754 binary64; its operations are those of the
    standard library's executable specification [SpecFloat] at precision
    53 and maximal exponent 1024. *)
Module PyFloat.

Definition prec : Z := 53.
Definition emax : Z := 1024.

Definition float := spec_float.

(** An integer as an unrounded significand with exponent 0. *)
Definition of_int_exact (z : Z) : float :=
  match z with
  | Z0 => S754_zero false
  | Zpos p => S754_finite false p 0
  | Zneg p => S754_finite true p 0
  end.

Definition is_finite (x : float) : bool :=
  match x with
  | S754_zero _ | S754_finite _ _ _ => true
  | _ => false
  end.

(** [a / b] on [int]s: the quotient rounded once to nearest-even;
    [None] for [ZeroDivisionError] and [OverflowError]. *)
Definition int_true_div (a b : Z) : option float :=
  if b =? 0 then None
  else
    let q := SFdiv prec emax (of_int_exact a) (of_int_exact b) in
    if is_finite q then Some q else None.

(** [float(n)], as applied to the [int] operand of a mixed product;
    [None] for [OverflowError]. *)
Definition of_int (n : Z) : option float :=
  let x := binary_normalize prec emax n 0 false in
  if is_finite x then Some x else None.

(** [n * x] for an [int] [n] and a [float] [x]. *)
Definition int_mul (n : Z) (x : float) : option float :=
  match of_int n with
  | Some nf => Some (SFmul prec emax nf x)
  | None => None
  end.

(** [min(a, b)]: [b] when [b < a], else [a]. *)
Definition min (a b : float) : float :=
  if SFltb b a then b else a.

(** Nearest integer to [m * 2^e], ties to even, for [m >= 0]. *)
Definition round_half_even (m e : Z) : Z :=
  if 0 <=? e then m * 2 ^ e
  else
    let d := 2 ^ (- e) in
    let q := m / d in
    let r := m mod d in
    match 2 * r ?= d with
    | Lt => q
    | Gt => q + 1
    | Eq => if Z.even q then q else q + 1
    end.

(** [round(x)] with one argument: an [int]; [None] when it raises (on an
    infinity or a NaN). *)
Definition round (x : float) : option Z :=
  match x with
  | S754_zero _ => Some 0
  | S754_finite s m e =>
      let v := round_half_even (Zpos m) e in
      Some (if s then - v else v)
  | _ => None
  end.

End PyFloat.

Module Resize.

Definition IMG_EXTS : gset string :=
  {[ ".jpg"; ".jpeg"; ".png"; ".bmp"; ".tif"; ".tiff"; ".webp" ]}%string.

Definition is_image_file (s : Fs.fs) (p : Fs.path) : bool :=
  Fs.is_file s p
  && bool_decide (PyStr.lower (Fs.suffix p) ∈ IMG_EXTS)
  && negb (PyStr.startswith (Fs.name p) ".").

(** The list [files] built by [process_dir]. *)
Definition files (s : Fs.fs) (in_dir : Fs.path) : list Fs.path :=
  List.filter (is_image_file s) (Fs.rglob s in_dir).

Inductive resample := NEAREST | BILINEAR.

(** The [color] argument of [Image.new] as the script passes it: the
    [int] [0], or the tuple [(0, 0, 0)]. *)
Inductive fill :=
| Zero
| ZeroTuple.

(** Pillow's modes by what a pixel holds: [bands] bytes, or one number
    of another kind ([I], [F], [I;16] and its variants). *)
Inductive storage :=
| Bytes (bands : nat)
| Number.

Definition storage_of (mode : string) : option storage :=
  if bool_decide (mode ∈ ["1"; "L"; "P"]%string) then Some (Bytes 1)
  else if bool_decide (mode ∈ ["LA"; "PA"; "La"]%string)
  then Some (Bytes 2)
  else if bool_decide (mode ∈ ["RGB"; "YCbCr"; "LAB"; "HSV"]%string)
  then Some (Bytes 3)
  else if bool_decide (mode ∈ ["RGBA"; "CMYK"; "RGBX"; "RGBa"]%string)
  then Some (Bytes 4)
  else if bool_decide
            (mode ∈ ["I"; "F"; "I;16"; "I;16L"; "I;16B"; "I;16N"]%string)
  then Some Number
  else None.

(** The band values [Image.new] fills with, [None] when it raises.
    The [int] 0 is 0 in every band.  The tuple is taken band by band
    and needs three or four bands, the fourth being completed with
    255; for the one-band mode [P] it is looked up in a new palette and
    gets index 0; for every other mode it is a [TypeError], and an
    unknown mode is a [ValueError]. *)
Definition ink (mode : string) (color : fill) : option (list Z) :=
  match storage_of mode, color with
  | Some (Bytes n), Zero => Some (repeat 0 n)
  | Some Number, Zero => Some [0]
  | Some (Bytes 3), ZeroTuple => Some [0; 0; 0]
  | Some (Bytes 4), ZeroTuple => Some [0; 0; 0; 255]
  | Some (Bytes 1), ZeroTuple =>
      if bool_decide (mode = "P"%string) then Some [0] else None
  | _, _ => None
  end.

Section Pillow.

(** Pillow is used through three operations.  What it stores for a
    pixel with given band values, which image sizes it can create on
    the machine at hand, and what the resampling computes (or that it
    raises), are the library's business and are left open. *)
Variable pixel : Type.
Variable of_bands : list Z -> pixel.
Variable fits : Z * Z -> bool.

Record image := Image {
  mode : string;
  size : Z * Z;
  px : Z -> Z -> pixel
}.

Variable kernel : resample -> image -> Z * Z -> option (Z -> Z -> pixel).

(** [Image.new(mode, size, color)]; [None] when it raises: on a
    negative size, a size it cannot create, and a colour the mode does
    not take. *)
Definition Image_new (mode : string) (size : Z * Z) (color : fill)
  : option image :=
  if (fst size <? 0) || (snd size <? 0) || negb (fits size) then None
  else
    match ink mode color with
    | Some bands => Some (Image mode size (fun _ _ => of_bands bands))
    | None => None
    end.

(** [im.resize(size, resample=...)]: a copy when the size is the
    image's own; [None] when it raises, as it does for a width or
    height below 1.  The modes [1] and [P] are resampled with
    [NEAREST] whatever is asked. *)
Definition resize (im : image) (size_ : Z * Z) (r : resample)
  : option image :=
  if bool_decide (size im = size_) then Some im
  else if (fst size_ <? 1) || (snd size_ <? 1) then None
  else
    let r := if bool_decide (mode im ∈ ["1"; "P"]%string)
             then NEAREST else r in
    match kernel r im size_ with
    | Some k => Some (Image (mode im) size_ k)
    | None => None
    end.

(** The box [im] covers once pasted at [(left, top)]. *)
Definition in_box (left top : Z) (im : image) (x y : Z) : bool :=
  (left <=? x) && (x <? left + fst (size im))
  && (top <=? y) && (y <? top + snd (size im)).

(** [canvas.paste(im, (left, top))] *)
Definition paste (canvas im : image) (left top : Z) : image :=
  Image (mode canvas) (size canvas)
        (fun x y => if in_box left top im x y
                    then px im (x - left) (y - top)
                    else px canvas x y).

Definition resize_stretch (im : image) (size : Z * Z) (is_mask : bool)
  : option image :=
  let resample := if is_mask then NEAREST else BILINEAR in
  resize im size resample.

(** The first two statements after the unpacking in
    [resize_keep_aspect]: [scale], then [(new_w, new_h)]. *)
Definition scale_of (w h target_w target_h : Z) : option PyFloat.float :=
  match PyFloat.int_true_div target_w w, PyFloat.int_true_div target_h h with
  | Some sw, Some sh => Some (PyFloat.min sw sh)
  | _, _ => None
  end.

Definition rounded (n : Z) (scale : PyFloat.float) : option Z :=
  match PyFloat.int_mul n scale with
  | Some x => PyFloat.round x
  | None => None
  end.

Definition new_dims (w h target_w target_h : Z) : option (Z * Z) :=
  match scale_of w h target_w target_h with
  | Some scale =>
      match rounded w scale, rounded h scale with
      | Some rw, Some rh => Some (Z.max 1 rw, Z.max 1 rh)
      | _, _ => None
      end
  | None => None
  end.

(** The fill chosen for the canvas. *)
Definition canvas_fill (is_mask : bool) (mode : string) : fill :=
  if is_mask then Zero
  else if bool_decide (mode = "L" \/ mode = "I;16")%string then Zero
       else ZeroTuple.

(** [resize_keep_aspect]; [None] when the arithmetic or Pillow
    raises. *)
Definition resize_keep_aspect (im : image) (size_ : Z * Z) (is_mask : bool)
  : option image :=
  let '(target_w, target_h) := size_ in
  let '(w, h) := size im in
  match new_dims w h target_w target_h with
  | None => None
  | Some (new_w, new_h) =>
      let resample := if is_mask then NEAREST else BILINEAR in
      match resize im (new_w, new_h) resample with
      | None => None
      | Some resized =>
          let mode_ :=
            if is_mask
            then (if bool_decide (mode resized = "L"%string)
                  then "L"%string else mode resized)
            else (if bool_decide (mode resized = "RGB"%string)
                  then "RGB"%string else mode resized) in
          match Image_new mode_ (target_w, target_h)
                          (canvas_fill is_mask mode_) with
          | None => None
          | Some canvas =>
              let left := (target_w - new_w) / 2 in
              let top := (target_h - new_h) / 2 in
              Some (paste canvas resized left top)
          end
      end
  end.

End Pillow.

End Resize.


(* ===================================================================== *)
(** * Vocabulary of the statements *)
(* ===================================================================== *)

Module Spec.
Import Fs.

(** The store without the entries named in [ps]. *)
Definition without (ps : list path) (s : fs) : fs :=
  List.filter (fun e => bool_decide (fst e ∉ ps)) s.

(** The candidate lists found in the output of a prune run (the lines
    are left out when a list is empty). *)
Definition printed_images (out : list Prune.message) : list path :=
  concat (map (fun m => match m with
                        | Prune.ImagesToDelete ps => ps
                        | _ => []
                        end) out).

Definition printed_masks (out : list Prune.message) : list path :=
  concat (map (fun m => match m with
                        | Prune.MasksToDelete ps => ps
                        | _ => []
                        end) out).

(** The store of the pruning scenario, before and after. *)
Definition scenario_store : fs :=
  [ (["img"], Dir); (["mask"], Dir);
    (["img"; "C1_100H0001.jpg"], File "i1");
    (["img"; "C1_100H0002.jpg"], File "i2");
    (["mask"; "C1_100H0001_mask.png"], File "m1") ]%string.

Definition scenario_store_pruned : fs :=
  [ (["img"], Dir); (["mask"], Dir);
    (["img"; "C1_100H0001.jpg"], File "i1");
    (["mask"; "C1_100H0001_mask.png"], File "m1") ]%string.

(** Images and masks kept in one directory. *)
Definition shared_store : fs :=
  [ (["data"], Dir);
    (["data"; "a.png"], File "i");
    (["data"; "a_mask.png"], File "m") ]%string.



(** Spec wording, "exact basename + reserved-mask-suffix match": the
    name made of the basename, the suffix [_mask] and an extension. *)
Definition exact_mask_name (basename ext : string) : string :=
  (basename ++ "_mask" ++ ext)%string.

Definition strict_path (mask_dir : path) (basename ext : string) : path :=
  join mask_dir (exact_mask_name basename ext).

(** Spec wording, the relaxed candidates: a file of the masks directory
    "whose stem starts with the image's basename and contains the
    mask-suffix marker". *)
Definition relaxed_as_worded (s : fs) (basename : string) (p : path)
  : bool :=
  is_file s p
  && PyStr.startswith (stem p) basename
  && PyStr.contains (stem p) "_mask".

(** The extensions the merge pass allows. *)
Definition merge_extensions : list string :=
  [".jpg"; ".jpeg"; ".png"; ".bmp"; ".tif"; ".tiff"]%string.

(** Amended wording of the relaxed candidates: a file of the masks
    directory whose extension, in lower case, is allowed, and whose stem,
    in lower case, starts with the basename in lower case and contains
    [_mask]. *)
Definition relaxed (s : fs) (mask_dir : path) (basename : string)
  (p : path) : Prop :=
  p ∈ children s mask_dir
  ∧ is_file s p = true
  ∧ PyStr.lower (suffix p) ∈ merge_extensions
  ∧ PyStr.startswith (PyStr.lower (stem p)) (PyStr.lower basename) = true
  ∧ PyStr.contains (PyStr.lower (stem p)) "_mask" = true.

(** A masks folder whose only file differs in case from the basename
    [A], and one where two files differ in case from each other. *)
Definition lower_case_mask : fs :=
  [ (["masks"], Dir);
    (["masks"; "a_x_mask.png"], File "m") ]%string.

Definition mixed_case_masks : fs :=
  [ (["masks"], Dir);
    (["masks"; "a_x_mask.png"], File "m1");
    (["masks"; "A_y_mask.png"], File "m2") ]%string.




(** A split without a masks folder, followed by a complete one. *)
Definition partial_split : fs :=
  [ (["raw"], Dir);
    (["raw"; "data_C1"], Dir);
    (["raw"; "data_C1"; "images_C1"], Dir);
    (["raw"; "data_C1"; "images_C1"; "7.jpg"], File "i7");
    (["raw"; "data_C2"], Dir);
    (["raw"; "data_C2"; "images_C2"], Dir);
    (["raw"; "data_C2"; "masks_C2"], Dir);
    (["raw"; "data_C2"; "images_C2"; "8.jpg"], File "i8");
    (["raw"; "data_C2"; "masks_C2"; "8_mask.png"], File "m8") ]%string.

(** A masks folder where two files could be the mask of "scan". *)
Definition ambiguous_masks : fs :=
  [ (["masks"], Dir);
    (["masks"; "scan_v1_mask.png"], File "m1");
    (["masks"; "scan_v2_mask.png"], File "m2");
    (["masks"; "other_mask.png"], File "m3") ]%string.

(** A folder with a WebP image and a hidden companion file. *)
Definition mixed_folder : fs :=
  [ (["d"], Dir);
    (["d"; "x.webp"], File "w");
    (["d"; "._x.jpg"], File "h") ]%string.


(** A Pillow to run the resize on: a pixel is its list of band values,
    every size can be created, and resampling gives 1 in three bands
    everywhere. *)
Definition as_bands (bands : list Z) : list Z := bands.

Definition every_size (size : Z * Z) : bool := true.

Definition sample_kernel (r : Resize.resample) (im : Resize.image (list Z))
  (size : Z * Z) : option (Z → Z → list Z) := Some (fun _ _ => [1; 1; 1]).

(** A 512 x 384 image in three bands, and one in four. *)
Definition sample_image : Resize.image (list Z) :=
  Resize.Image (list Z) "RGB" (512, 384) (fun _ _ => [7; 7; 7]).



(** The real number denoted by significand [m] and exponent [e]. *)
Definition F2R (m e : Z) : R := (IZR m * powerRZ 2 e)%R.

(** One unit in the last place, relative to a 53-digit significand. *)
Definition u : R := (/ IZR (2 ^ 52))%R.

(** Image dimensions and targets for which the arithmetic of
    [resize_keep_aspect] is carried out without overflow and the
    integers involved convert to [float] exactly. *)
Definition dim (n : Z) : Prop := 1 <= n < 2 ^ 50.



(** Neither directory is the other or lies inside it. *)
Definition apart (d1 d2 : path) : Prop :=
  ¬ d1 `prefix_of` d2 ∧ ¬ d2 `prefix_of` d1.

End Spec.

(* ===================================================================== *)
(** * pathlib: derived paths *)
(* ===================================================================== *)

(** [with_name], [with_stem], [with_suffix] and [relative_to] of CPython's
    [pathlib] (up to 3.13); [None] is [ValueError].  Path components hold no
    separator, so the separator tests of these methods cannot fire and are
    left out. *)
Module Pathlib.
Import Fs.

Definition with_name (p : path) (nm : string) : option path :=
  if String.eqb (name p) "" then None
  else if String.eqb nm "" || String.eqb nm "." then None
  else Some (join (parent p) nm).

Definition with_stem (p : path) (stem : string) : option path :=
  with_name p (stem ++ suffix p).

Definition with_suffix (p : path) (suf : string) : option path :=
  if negb (String.eqb suf "") && negb (PyStr.startswith suf ".")
     || String.eqb suf "."
  then None
  else if String.eqb (name p) "" then None
  else
    let old_suffix := suffix p in
    Some (join (parent p)
               (if String.eqb old_suffix ""
                then name p ++ suf
                else PyStr.drop_last (String.length old_suffix) (name p)
                     ++ suf)%string).

(** [p.relative_to(base)] *)
Definition relative_to (p base : path) : option path :=
  if bool_decide (base `prefix_of` p) then Some (drop (length base) p)
  else None.

End Pathlib.

(* ===================================================================== *)
(** * fix_masks_to_binary.py: the files *)
(* ===================================================================== *)

Module BinarizerRun.
Import Fs.

Inductive exn :=
| ValueError
| UnidentifiedImageError
| IsADirectoryError
| FileNotFoundError
| SystemExit.

Inductive message :=
| Ok (name : string) (before after : list Z)
| WarnNoImageFiles
| Found (n : nat)
| Done.

(** How a call ends ([None]: it returns), the store it leaves and what
    it printed. *)
Definition result : Type := option exn * fs * list message.

(** The destination of the [out_png] branch of [process_mask_file]:
    [p.with_suffix(".png")], then [with_stem(stem + MASK_SUFFIX)] unless
    the stem ends with the suffix already. *)
Definition png_destination (p : path) : option path :=
  dst ← Pathlib.with_suffix p ".png";
  if negb (PyStr.endswith (stem dst) Binarizer.MASK_SUFFIX)
  then Pathlib.with_stem dst (stem dst ++ Binarizer.MASK_SUFFIX)
  else Some dst.

Section Codec.

(** [np.asarray(Image.open(p).convert("L"), dtype=np.uint8)] on the
    bytes of a file; [None] when Pillow cannot read them. *)
Variable decode : string → option Binarizer.buffer.

(** The bytes [Image.fromarray(arr, mode="L").save] writes for a file
    extension (lower case); [None] when Pillow has no writer for it and
    raises before it opens the file. *)
Variable encode : string → Binarizer.buffer → option string.

Definition save (s : fs) (dst : path) (arr : Binarizer.buffer)
  : option exn * fs :=
  match encode (PyStr.lower (suffix dst)) arr with
  | None => (Some ValueError, s)
  | Some bytes =>
      if is_dir s dst then (Some IsADirectoryError, s)
      else (None, Gather.write_file s dst bytes)
  end.

Definition process_mask_file (s : fs) (p : path) (out_png dry_run : bool)
  : result :=
  match lookup s p with
  | Some (File data) | Some (Shared _ data) =>
      match decode data with
      | Some arr =>
          let before := Binarizer.np_unique arr in
          let bin255 := Binarizer.binarize arr in
          let after := Binarizer.np_unique bin255 in
          let out := [Ok (name p) before after] in
          if dry_run then (None, s, out)
          else if out_png then
            match png_destination p with
            | Some dst =>
                match save s dst bin255 with
                | (None, s1) =>
                    if negb (path_eqb dst p)
                    then (None,
                          match unlink s1 p with
                          | Some s2 => s2
                          | None => s1
                          end, out)
                    else (None, s1, out)
                | (Some e, s1) => (Some e, s1, out)
                end
            | None => (Some ValueError, s, out)
            end
          else
            let '(st, s1) := save s p bin255 in (st, s1, out)
      | None => (Some UnidentifiedImageError, s, [])
      end
  | Some Dir => (Some IsADirectoryError, s, [])
  | None => (Some FileNotFoundError, s, [])
  end.

(** The [for p in files] loop of [main]: an exception ends the run. *)
Fixpoint process_all (s : fs) (files : list path) (out_png dry_run : bool)
  (out : list message) : result :=
  match files with
  | [] => (None, s, out)
  | p :: rest =>
      match process_mask_file s p out_png dry_run with
      | (None, s1, o) => process_all s1 rest out_png dry_run (out ++ o)
      | (Some e, s1, o) => (Some e, s1, out ++ o)
      end
  end.

Definition main (s : fs) (mask_dir : path) (out_png dry_run : bool)
  : result :=
  if negb (is_dir s mask_dir) then (Some SystemExit, s, [])
  else
    let files := Binarizer.mask_files s mask_dir in
    match files with
    | [] => (None, s, [WarnNoImageFiles])
    | _ =>
        match process_all s files out_png dry_run [Found (length files)]
        with
        | (None, s1, out) => (None, s1, out ++ [Done])
        | (Some e, s1, out) => (Some e, s1, out)
        end
    end.

End Codec.

End BinarizerRun.

(* ===================================================================== *)
(** * resize_dataset_256.py: the files *)
(* ===================================================================== *)

Module ResizeRun.
Import Fs.

(** What [Image.save] does with an image for a file extension: it
    writes the encoded bytes; or it raises before it opens the file (no
    writer for the extension); or it raises while it writes, leaving
    [partial] in a file that was there before and no file otherwise. *)
Inductive save_outcome :=
| Written (bytes : string)
| NoWriter
| Broken (partial : string).

Inductive exn := SystemExit | OSError.

Inductive message :=
| WarnNoImages (in_dir : path)
| Dry (src dst : path) (size_in size_out : Z * Z) (is_mask : bool)
| WarnSkip (src : path)
| ImagesLine (done skip : nat)
| MasksLine (done skip : nat)
| Summary (done skip : nat).

(** [p.mkdir(parents=True, exist_ok=True)] on a store: whether it
    returned, and the store it leaves. *)
Definition mkdir_p (s : fs) (p : path) : bool * fs :=
  match Gather.mkdir_parents p (Gather.World s []) with
  | (inl _, w) => (true, Gather.store w)
  | (inr _, w) => (false, Gather.store w)
  end.

Section Run.

Variable pixel : Type.
Variable of_bands : list Z → pixel.
Variable fits : Z * Z → bool.
Variable kernel :
  Resize.resample → Resize.image pixel → Z * Z → option (Z → Z → pixel).

(** [Image.open] on the bytes of a file, with the pixel data the later
    [resize] reads; [None] when Pillow raises. *)
Variable load : string → option (Resize.image pixel).

(** [im.convert("L")] *)
Variable convert_L : Resize.image pixel → Resize.image pixel.

(** [Image.save] for a (lower-case) file extension. *)
Variable encode : string → Resize.image pixel → save_outcome.

Definition load_image (s : fs) (p : path) : option (Resize.image pixel) :=
  match lookup s p with
  | Some (File data) | Some (Shared _ data) => load data
  | _ => None
  end.

Definition ensure_mask_mode (im : Resize.image pixel)
  : Resize.image pixel :=
  if bool_decide (Resize.mode pixel im ≠ "L"%string) then convert_L im else im.

(** [out_img.save(dst)]: whether it returned, and the store it
    leaves. *)
Definition save (s : fs) (dst : path) (im : Resize.image pixel)
  : bool * fs :=
  match encode (PyStr.lower (suffix dst)) im with
  | NoWriter => (false, s)
  | Written bytes =>
      if is_dir s dst || negb (is_dir s (parent dst)) then (false, s)
      else (true, Gather.write_file s dst bytes)
  | Broken partial =>
      if is_dir s dst || negb (is_dir s (parent dst)) then (false, s)
      else (false,
            if exists_ s dst then Gather.write_file s dst partial else s)
  end.

(** The choice between the two resizes. *)
Definition transform (im : Resize.image pixel) (size : Z * Z)
  (keep_aspect is_mask : bool) : option (Resize.image pixel) :=
  if keep_aspect
  then Resize.resize_keep_aspect pixel of_bands fits kernel im size is_mask
  else Resize.resize_stretch pixel kernel im size is_mask.

(** The [if out_dir:] statement: [dst], with its folder made; [None]
    when it raises. *)
Definition place (s : fs) (in_dir : path) (out_dir : option path)
  (src : path) : option path * fs :=
  match out_dir with
  | Some o =>
      match Pathlib.relative_to src in_dir with
      | Some rel =>
          let dst := o ++ rel in
          match mkdir_p s (parent dst) with
          | (true, s1) => (Some dst, s1)
          | (false, s1) => (None, s1)
          end
      | None => (None, s)
      end
  | None => (Some src, s)
  end.

(** The body of the loop of [process_dir] for one file: whether the
    file was counted ([false]: skipped with a warning), the store and
    what was printed. *)
Definition process_file (s : fs) (in_dir : path) (out_dir : option path)
  (size : Z * Z) (keep_aspect is_mask dry_run : bool) (src : path)
  : bool * fs * list message :=
  match load_image s src with
  | Some im0 =>
      let im := if is_mask then ensure_mask_mode im0 else im0 in
      match transform im size keep_aspect is_mask with
      | Some out_img =>
          match place s in_dir out_dir src with
          | (Some dst, s1) =>
              if dry_run
              then (true, s1,
                    [Dry src dst (Resize.size pixel im)
                         (Resize.size pixel out_img)
                         is_mask])
              else
                match (if is_mask then Pathlib.with_suffix dst ".png"
                       else Some dst) with
                | Some dst' =>
                    match save s1 dst' out_img with
                    | (true, s2) => (true, s2, [])
                    | (false, s2) => (false, s2, [WarnSkip src])
                    end
                | None => (false, s1, [WarnSkip src])
                end
          | (None, s1) => (false, s1, [WarnSkip src])
          end
      | None => (false, s, [WarnSkip src])
      end
  | None => (false, s, [WarnSkip src])
  end.

(** The [for src in files] loop. *)
Fixpoint process_files (s : fs) (in_dir : path) (out_dir : option path)
  (size : Z * Z) (keep_aspect is_mask dry_run : bool)
  (files : list path) (count skipped : nat) (out : list message)
  : nat * nat * fs * list message :=
  match files with
  | [] => (count, skipped, s, out)
  | src :: rest =>
      match process_file s in_dir out_dir size keep_aspect is_mask
                         dry_run src with
      | (true, s1, o) =>
          process_files s1 in_dir out_dir size keep_aspect is_mask
                        dry_run rest (S count) skipped (out ++ o)
      | (false, s1, o) =>
          process_files s1 in_dir out_dir size keep_aspect is_mask
                        dry_run rest count (S skipped) (out ++ o)
      end
  end.

Definition process_dir (s : fs) (in_dir : path) (out_dir : option path)
  (size : Z * Z) (keep_aspect is_mask dry_run : bool)
  : nat * nat * fs * list message :=
  if negb (is_dir s in_dir) then (O, O, s, [])
  else
    let files := Resize.files s in_dir in
    match files with
    | [] => (O, O, s, [WarnNoImages in_dir])
    | _ =>
        process_files s in_dir out_dir size keep_aspect is_mask dry_run
                      files O O []
    end.

(** One of the two halves of [main]: the output folder is made, the
    directory processed and the line printed. *)
Definition main_half (s : fs) (dir out_dir : option path) (size : Z)
  (keep_aspect is_mask dry_run : bool)
  : option exn * (nat * nat) * fs * list message :=
  match dir with
  | None => (None, (O, O), s, [])
  | Some d =>
      let '(made, s1) :=
        match out_dir with
        | Some o => mkdir_p s o
        | None => (true, s)
        end in
      if made then
        let '(done, skip, s2, out) :=
          process_dir s1 d out_dir (size, size) keep_aspect is_mask
                      dry_run in
        (None, (done, skip), s2,
         out ++ [if is_mask then MasksLine done skip
                 else ImagesLine done skip])
      else (Some OSError, (O, O), s1, [])
  end.

Definition main (s : fs) (img_dir mask_dir out_img out_mask : option path)
  (size : Z) (keep_aspect dry_run : bool)
  : option exn * fs * list message :=
  match img_dir, mask_dir with
  | None, None => (Some SystemExit, s, [])
  | _, _ =>
      match main_half s img_dir out_img size keep_aspect false dry_run
      with
      | (None, (d1, k1), s1, o1) =>
          match main_half s1 mask_dir out_mask size keep_aspect true
                          dry_run with
          | (None, (d2, k2), s2, o2) =>
              (None, s2,
               o1 ++ o2 ++ [Summary (d1 + d2) (k1 + k2)])
          | (Some e, _, s2, o2) => (Some e, s2, o1 ++ o2)
          end
      | (Some e, _, s1, o1) => (Some e, s1, o1)
      end
  end.

End Run.

End ResizeRun.

(* ===================================================================== *)
(** * Further vocabulary *)
(* ===================================================================== *)

Module Vocabulary.
Import Fs.

(** Every sample is in the range of [uint8]. *)
Definition is_uint8 (arr : Binarizer.buffer) : Prop :=
  Forall (Forall (fun v => 0 <= v < 256)) arr.

(** The test by which the loop of [Prune.main] keeps a mask as
    unpaired. *)
Definition unpaired_mask (image_bases : gset string) (m : path) : bool :=
  negb (PyStr.endswith (stem m) Prune.MASK_SUFFIX)
  || bool_decide (Prune.strip_mask (stem m) ∉ image_bases).

(** [s'] is [s] followed by new directory entries only. *)
Definition dirs_added (s s' : fs) : Prop :=
  ∃ ds : list path, s' = s ++ map (fun q => (q, Dir)) ds.

(** A computation of the merge pass that, however it ends, relates the
    world it starts in to the world it leaves by [R]. *)
Definition keeps {A} (R : Gather.world → Gather.world → Prop)
  (m : Gather.M A) : Prop :=
  ∀ w r w', m w = (r, w') → R w w'.

(** Only directories were created; the output may have grown. *)
Definition planned (w w' : Gather.world) : Prop :=
  dirs_added (Gather.store w) (Gather.store w').

(** A computation of the merge pass whose result, when it returns
    normally, satisfies [Q]. *)
Definition returns {A} (m : Gather.M A) (Q : A → Prop) : Prop :=
  ∀ w a w', m w = (inl a, w') → Q a.

(** Where [shutil.copy2(src, dst)] puts the copy. *)
Definition copy_target (s : fs) (src dst : path) : path :=
  if is_dir s dst then join dst (name src) else dst.

(** Only directories were created; nothing was printed. *)
Definition made_dirs (w w' : Gather.world) : Prop :=
  dirs_added (Gather.store w) (Gather.store w')
  ∧ Gather.printed w' = Gather.printed w.

(** A listed mask as a completed [--out-png] run leaves it: named
    [*_mask.png] and holding what [encode] writes for a binarized array. *)
Definition normalised (encode : string → Binarizer.buffer → option string)
  (s : fs) (q : path) : Prop :=
  suffix q = ".png"%string
  ∧ PyStr.endswith (stem q) Binarizer.MASK_SUFFIX = true
  ∧ ∃ arr bytes, read s q = Some bytes
                 ∧ encode ".png"%string (Binarizer.binarize arr)
                   = Some bytes.

(** A raw one-row format, to run the file passes on: a file decodes to
    the codes of its bytes, an array is written as the bytes of its
    samples; the empty file does not decode. *)
Definition raw_decode (data : string) : option Binarizer.buffer :=
  match data with
  | EmptyString => None
  | _ => Some [map (fun c => Z.of_nat (nat_of_ascii c))
                   (list_ascii_of_string data)]
  end.

Definition raw_encode (ext : string) (arr : Binarizer.buffer)
  : option string :=
  if bool_decide (ext ∈ Binarizer.IMG_EXTS)
  then Some (string_of_list_ascii
               (map (fun v => ascii_of_nat (Z.to_nat v)) (concat arr)))
  else None.

(** A masks folder with a JPEG mask, a PNG already in place and a note. *)
Definition masks_folder : fs :=
  [ (["m"], Dir);
    (["m"; "a.jpg"], File "ab");
    (["m"; "b_mask.png"], File "c");
    (["m"; "notes.txt"], File "n") ]%string.

(** Nothing was removed from the store and no entry changed its kind:
    directories are still directories and files still files. *)
Definition grows (s s' : fs) : Prop :=
  ∀ p, (is_dir s p = true → is_dir s' p = true)
       ∧ (is_file s p = true → is_file s' p = true).

(** A Pillow to run the resize pass on (see [Spec.sample_kernel]): every
    non-empty file opens as [Spec.sample_image], and an image is written
    as the text ["resized"] for the listed extensions. *)
Definition sample_load (data : string) : option (Resize.image (list Z)) :=
  match data with
  | EmptyString => None
  | _ => Some Spec.sample_image
  end.

Definition sample_convert (im : Resize.image (list Z))
  : Resize.image (list Z) :=
  Resize.Image (list Z) "L" (Resize.size (list Z) im)
               (Resize.px (list Z) im).

Definition sample_encode (ext : string) (im : Resize.image (list Z))
  : ResizeRun.save_outcome :=
  if bool_decide (ext ∈ Resize.IMG_EXTS) then ResizeRun.Written "resized"
  else ResizeRun.NoWriter.

(** An images folder and a masks folder; one mask is a JPEG, one file is
    empty. *)
Definition resize_folders : fs :=
  [ (["in"], Dir);
    (["in"; "a.jpg"], File "pixels");
    (["in"; "sub"], Dir);
    (["in"; "sub"; "b.png"], File "");
    (["masks"], Dir);
    (["masks"; "a_mask.jpg"], File "mask") ]%string.

(** A raw mask and the copy the merge pass made of it with a hard link:
    two names of one file. *)
Definition linked_masks : fs :=
  [ (["raw"], Dir);
    (["raw"; "m.jpg"], Shared 1 "ab");
    (["out"], Dir);
    (["out"; "C1_m_mask.jpg"], Shared 1 "ab");
    (["out"; "C1_n_mask.jpg"], File "cd") ]%string.

(** A store with one image, for copying. *)
Definition one_image : fs :=
  [ (["in"], Dir); (["in"; "a.jpg"], File "pixels") ]%string.

End Vocabulary.

(* ===================================================================== *)
(** * Properties of the binarizer *)
(* ===================================================================== *)

(** [List.map] and stdpp's [fmap] on lists are the same function. *)
Lemma map_as_fmap {A B} (f : A → B) (l : list A) : map f l = f <$> l.
Proof. reflexivity. Qed.

Section BinarizerFacts.
Import Binarizer.

Implicit Types (arr : buffer) (v : Z).

(** The set tested by [binarize_array] is the set of samples. *)
Lemma elem_of_unique_set arr v :
  v ∈ set_of (np_unique arr) ↔ v ∈ concat arr.
Proof.
  unfold set_of, np_unique.
  rewrite elem_of_list_to_set, merge_sort_Permutation.
  apply elem_of_remove_dups.
Qed.

Lemma unique_subset_pair arr (a b : Z) :
  set_of (np_unique arr) ⊆ {[a; b]} ↔ (∀ v, v ∈ concat arr → v = a ∨ v = b).
Proof.
  split.
  - intros H v Hv. apply elem_of_unique_set, H in Hv.
    apply elem_of_union in Hv as [Hv|Hv]; apply elem_of_singleton in Hv; auto.
  - intros H v Hv. apply elem_of_unique_set, H in Hv.
    apply elem_of_union. rewrite !elem_of_singleton. exact Hv.
Qed.

(** Mapping a function over the samples that fixes each of them. *)
Lemma map_map_fixed (f : Z → Z) arr :
  (∀ v, v ∈ concat arr → f v = v) → map (map f) arr = arr.
Proof.
  induction arr as [|row arr IH]; intros H; [done|].
  simpl in *. f_equal.
  - rewrite <- (map_id row) at 2. apply map_ext_in. intros v Hv.
    apply H, elem_of_app. left. by apply list_elem_of_In.
  - apply IH. intros v Hv. apply H, elem_of_app. by right.
Qed.

Lemma map_map_ext (f g : Z → Z) arr :
  (∀ v, v ∈ concat arr → f v = g v) → map (map f) arr = map (map g) arr.
Proof.
  induction arr as [|row arr IH]; intros H; [done|].
  simpl in *. f_equal.
  - apply map_ext_in. intros v Hv.
    apply H, elem_of_app. left. by apply list_elem_of_In.
  - apply IH. intros v Hv. apply H, elem_of_app. by right.
Qed.

Lemma shape_map_map (f : Z → Z) arr : shape (map (map f) arr) = shape arr.
Proof.
  unfold shape. rewrite map_map. apply map_ext. intros row.
  apply length_map.
Qed.

Lemma sample_at_map_map (f : Z → Z) arr i j :
  sample_at (map (map f) arr) i j = f <$> sample_at arr i j.
Proof.
  unfold sample_at, buffer in *.
  rewrite map_as_fmap, list_lookup_fmap.
  destruct (arr !! i) as [row|]; simpl; [|done].
  rewrite map_as_fmap. apply list_lookup_fmap.
Qed.

Lemma sample_at_elem arr i j v : sample_at arr i j = Some v → v ∈ concat arr.
Proof.
  unfold sample_at, buffer in *.
  destruct (arr !! i) as [row|] eqn:Hi; simpl; [|done].
  intros Hj. apply list_elem_of_In, in_concat. exists row.
  split; apply list_elem_of_In; by eapply list_elem_of_lookup_2.
Qed.

(** One equation per tier. *)
Lemma binarize_tier1 arr :
  (∀ v, v ∈ concat arr → v = 0 ∨ v = 255) → binarize arr = arr.
Proof.
  intros H. unfold binarize, binarize_array.
  rewrite bool_decide_eq_true_2; [done|]. by apply unique_subset_pair.
Qed.

Lemma binarize_tier2 arr :
  ¬ (∀ v, v ∈ concat arr → v = 0 ∨ v = 255) →
  (∀ v, v ∈ concat arr → v = 0 ∨ v = 1) →
  binarize arr = map (map (fun v => v * 255)) arr.
Proof.
  intros H1 H2. unfold binarize, binarize_array.
  rewrite bool_decide_eq_false_2 by (by rewrite unique_subset_pair).
  rewrite bool_decide_eq_true_2 by (by rewrite unique_subset_pair).
  unfold times255. apply map_map_ext. intros v Hv.
  destruct (H2 v Hv) as [-> | ->]; reflexivity.
Qed.

Lemma binarize_tier3 arr :
  ¬ (∀ v, v ∈ concat arr → v = 0 ∨ v = 255) →
  ¬ (∀ v, v ∈ concat arr → v = 0 ∨ v = 1) →
  binarize arr = map (map (fun v => if 0 <? v then 255 else 0)) arr.
Proof.
  intros H1 H2. unfold binarize, binarize_array.
  rewrite bool_decide_eq_false_2 by (by rewrite unique_subset_pair).
  rewrite bool_decide_eq_false_2 by (by rewrite unique_subset_pair).
  unfold where_gt0. apply map_map_ext. intros v _.
  by destruct (0 <? v).
Qed.

Lemma elem_of_concat_map_map (f : Z → Z) arr o :
  o ∈ concat (map (map f) arr) → ∃ v, v ∈ concat arr ∧ o = f v.
Proof.
  intros Ho. apply list_elem_of_In, in_concat in Ho as (row' & Hrow' & Ho).
  apply in_map_iff in Hrow' as (row & <- & Hrow).
  apply in_map_iff in Ho as (v & <- & Hv).
  exists v. split; [|done].
  apply list_elem_of_In, in_concat. eauto.
Qed.

Lemma binarize_cases arr :
  binarize arr = arr ∧ (∀ v, v ∈ concat arr → v = 0 ∨ v = 255)
  ∨ (∃ f : Z → Z, binarize arr = map (map f) arr
                  ∧ ∀ v, v ∈ concat arr → f v = 0 ∨ f v = 255).
Proof.
  destruct (bool_decide (set_of (np_unique arr) ⊆ {[0; 255]})) eqn:E1.
  - apply bool_decide_eq_true in E1. rewrite unique_subset_pair in E1.
    left. split; [by apply binarize_tier1 | done].
  - apply bool_decide_eq_false in E1. rewrite unique_subset_pair in E1.
    right.
    destruct (bool_decide (set_of (np_unique arr) ⊆ {[0; 1]})) eqn:E2.
    + apply bool_decide_eq_true in E2. rewrite unique_subset_pair in E2.
      eexists. split; [by apply binarize_tier2|].
      intros v Hv. destruct (E2 v Hv) as [-> | ->]; auto.
    + apply bool_decide_eq_false in E2. rewrite unique_subset_pair in E2.
      eexists. split; [by apply binarize_tier3|].
      intros v _. simpl. destruct (0 <? v); auto.
Qed.

End BinarizerFacts.

(** C1.  [binarize] keeps the shape of the buffer and follows the
    three-tier procedure on the set of its samples: samples all in
    {0, 255}: the buffer is returned as it is; otherwise samples all in
    {0, 1}: every sample is multiplied by 255; otherwise every sample
    [> 0] becomes 255 and every other sample 0, so that an output sample
    is 255 exactly when the input sample is positive. *)
Theorem binarize_three_tier (arr : Binarizer.buffer) :
  Binarizer.shape (Binarizer.binarize arr) = Binarizer.shape arr
  ∧ ((∀ v, v ∈ concat arr → v = 0 ∨ v = 255) →
     Binarizer.binarize arr = arr)
  ∧ (¬ (∀ v, v ∈ concat arr → v = 0 ∨ v = 255) →
     (∀ v, v ∈ concat arr → v = 0 ∨ v = 1) →
     Binarizer.binarize arr = map (map (fun v => v * 255)) arr)
  ∧ (¬ (∀ v, v ∈ concat arr → v = 0 ∨ v = 255) →
     ¬ (∀ v, v ∈ concat arr → v = 0 ∨ v = 1) →
     ∀ i j v, Binarizer.sample_at arr i j = Some v →
       ∃ o, Binarizer.sample_at (Binarizer.binarize arr) i j = Some o
            ∧ (o = 0 ∨ o = 255)
            ∧ (o = 255 ↔ 0 < v)
            ∧ (v = 0 → o = 0)).
Proof.
  split; [|split; [|split]].
  - destruct (binarize_cases arr) as [[-> _] | (f & -> & _)]; [done|].
    apply shape_map_map.
  - apply binarize_tier1.
  - apply binarize_tier2.
  - intros H1 H2 i j v Hv.
    rewrite (binarize_tier3 arr H1 H2), sample_at_map_map, Hv. simpl.
    eexists. split; [reflexivity|].
    destruct (Z.ltb_spec 0 v); repeat split; intros; try lia; auto.
Qed.

Lemma binarize_three_tier_witness :
  Binarizer.sample_at (Binarizer.binarize [[0; 128]; [255; 7]]) 0 1 = Some 255.
Proof.
  destruct (binarize_three_tier [[0; 128]; [255; 7]]) as (_ & _ & _ & H3).
  destruct (H3 ltac:(intros H; destruct (H 128 ltac:(vm_compute; repeat constructor)); discriminate) ltac:(intros H; destruct (H 128 ltac:(vm_compute; repeat constructor)); discriminate) 0%nat 1%nat 128 eq_refl) as (o & Ho & _ & Hiff & _).
  rewrite Ho. f_equal. apply Hiff. lia.
Defined.

(** C8.  [binarize] is idempotent. *)
Theorem binarize_idempotent (arr : Binarizer.buffer) :
  Binarizer.binarize (Binarizer.binarize arr) = Binarizer.binarize arr.
Proof.
  apply binarize_tier1. intros o Ho.
  destruct (binarize_cases arr) as [[E H] | (f & E & H)]; rewrite E in Ho.
  - by apply H.
  - apply elem_of_concat_map_map in Ho as (v & Hv & ->). by apply H.
Qed.

(* ===================================================================== *)
(** * Properties of the prune pass *)
(* ===================================================================== *)

Section StoreFacts.
Import Fs Spec.

Implicit Types (s : fs) (p q : path) (ps : list path).

Lemma path_eqb_true p q : path_eqb p q = true ↔ p = q.
Proof. unfold path_eqb. apply bool_decide_eq_true. Qed.

Lemma path_eqb_false p q : path_eqb p q = false ↔ p ≠ q.
Proof. unfold path_eqb. apply bool_decide_eq_false. Qed.

Lemma lookup_without_in ps s q : q ∈ ps → lookup (without ps s) q = None.
Proof.
  intros Hq. unfold lookup, without.
  induction s as [|[p n] s IH]; [done|]. simpl.
  destruct (bool_decide (p ∉ ps)) eqn:E; [|exact IH]. simpl.
  apply bool_decide_eq_true in E.
  destruct (path_eqb p q) eqn:Epq; [|exact IH].
  apply path_eqb_true in Epq. congruence.
Qed.

Lemma lookup_without_notin ps s q :
  q ∉ ps → lookup (without ps s) q = lookup s q.
Proof.
  intros Hq. unfold lookup, without.
  induction s as [|[p n] s IH]; [done|]. simpl.
  destruct (bool_decide (p ∉ ps)) eqn:E; simpl.
  - destruct (path_eqb p q); [done | exact IH].
  - apply bool_decide_eq_false in E.
    destruct (path_eqb p q) eqn:Epq; [|exact IH].
    apply path_eqb_true in Epq. subst. tauto.
Qed.

Lemma is_file_without ps s q :
  is_file (without ps s) q = is_file s q && bool_decide (q ∉ ps).
Proof.
  unfold is_file. destruct (decide (q ∈ ps)) as [Hin|Hout].
  - rewrite lookup_without_in by done.
    rewrite (bool_decide_eq_false_2 (q ∉ ps)) by tauto.
    by rewrite andb_false_r.
  - rewrite lookup_without_notin by done.
    rewrite (bool_decide_eq_true_2 (q ∉ ps)) by done.
    by rewrite andb_true_r.
Qed.

Lemma is_dir_without ps s q :
  is_dir (without ps s) q = is_dir s q && bool_decide (q ∉ ps).
Proof.
  unfold is_dir. destruct (decide (q ∈ ps)) as [Hin|Hout].
  - rewrite lookup_without_in by done.
    rewrite (bool_decide_eq_false_2 (q ∉ ps)) by tauto.
    by rewrite andb_false_r.
  - rewrite lookup_without_notin by done.
    rewrite (bool_decide_eq_true_2 (q ∉ ps)) by done.
    by rewrite andb_true_r.
Qed.

Lemma without_nil s : without [] s = s.
Proof.
  unfold without. induction s as [|e s IH]; [done|]. cbn [List.filter].
  rewrite bool_decide_eq_true_2 by apply not_elem_of_nil. by rewrite IH.
Qed.

Lemma without_snoc ps p s :
  List.filter (fun e => negb (path_eqb (fst e) p)) (without ps s)
  = without (ps ++ [p]) s.
Proof.
  unfold without. induction s as [|[q n] s IH]; [done|]. simpl.
  destruct (decide (q ∈ ps)) as [Hin|Hout].
  - rewrite (bool_decide_eq_false_2 (q ∉ ps)) by tauto.
    rewrite (bool_decide_eq_false_2 (q ∉ ps ++ [p])); [exact IH|].
    rewrite elem_of_app. tauto.
  - rewrite (bool_decide_eq_true_2 (q ∉ ps)) by done. simpl.
    destruct (path_eqb q p) eqn:E; simpl.
    + apply path_eqb_true in E. subst.
      rewrite (bool_decide_eq_false_2 (p ∉ ps ++ [p])); [exact IH|].
      rewrite elem_of_app, list_elem_of_singleton. tauto.
    + apply path_eqb_false in E.
      rewrite (bool_decide_eq_true_2 (q ∉ ps ++ [p])); [by rewrite IH|].
      rewrite elem_of_app, list_elem_of_singleton. tauto.
Qed.

Lemma without_ext ps ps' s :
  (∀ q, q ∈ ps ↔ q ∈ ps') → without ps s = without ps' s.
Proof.
  intros H. unfold without. apply filter_ext. intros [q n]. simpl.
  apply bool_decide_ext. by rewrite H.
Qed.

Lemma rglob_without ps s d :
  rglob (without ps s) d
  = List.filter (fun q => bool_decide (q ∉ ps)) (rglob s d).
Proof.
  unfold rglob, without. induction s as [|[q n] s IH]; [done|]. simpl.
  destruct (bool_decide (q ∉ ps)) eqn:E1; simpl;
    destruct (below d q) eqn:E2; simpl; rewrite ?E1, ?E2; simpl;
    by rewrite IH.
Qed.

End StoreFacts.

Section PruneFacts.
Import Fs Spec Prune.

Implicit Types (s : fs) (p q : path) (ps : list path).

Lemma filter_filter_and {A} (f g h : A → bool) (l : list A) :
  (∀ x, f x = h x && g x) →
  List.filter f (List.filter g l) = List.filter g (List.filter h l).
Proof.
  intros H. induction l as [|x l IH]; [done|]. simpl.
  destruct (g x) eqn:Eg, (h x) eqn:Eh; simpl;
    rewrite ?H, ?Eg, ?Eh; simpl; by rewrite IH.
Qed.

Lemma is_media_without ps s E q :
  is_media (without ps s) E q = is_media s E q && bool_decide (q ∉ ps).
Proof.
  unfold is_media. rewrite is_file_without.
  destruct (is_file s q), (bool_decide (q ∉ ps)),
    (bool_decide (PyStr.lower (suffix q) ∈ E)),
    (PyStr.startswith (name q) "."); reflexivity.
Qed.

Lemma iter_media_files_without ps s d E :
  iter_media_files (without ps s) d E
  = List.filter (fun q => bool_decide (q ∉ ps)) (iter_media_files s d E).
Proof.
  unfold iter_media_files. rewrite rglob_without.
  apply filter_filter_and. intros q. apply is_media_without.
Qed.

Lemma elem_of_iter_media_files s d E p :
  p ∈ iter_media_files s d E ↔
  p ∈ map fst s ∧ below d p = true ∧ is_media s E p = true.
Proof.
  unfold iter_media_files, rglob.
  rewrite !list_elem_of_In, !filter_In. tauto.
Qed.

Lemma media_is_file s d E p : p ∈ iter_media_files s d E → is_file s p = true.
Proof.
  intros (_ & _ & H)%elem_of_iter_media_files. unfold is_media in H.
  by apply andb_true_iff in H as [[H _]%andb_true_iff _].
Qed.

(** Directories that are apart have no entry in common. *)
Lemma apart_below d1 d2 p :
  apart d1 d2 → below d1 p = true → below d2 p = true → False.
Proof.
  intros [H1 H2] [B1 _]%andb_true_iff [B2 _]%andb_true_iff.
  apply bool_decide_eq_true in B1, B2.
  destruct (prefix_weak_total _ _ _ B1 B2); tauto.
Qed.

(** The store after the deletion loop. *)
Lemma delete_all_store ps s0 :
  (∀ p, p ∈ ps → is_file s0 p = true) →
  ∀ done n out,
    (delete_all ps (without done s0) n out).1.1 = without (done ++ ps) s0.
Proof.
  induction ps as [|p ps IH]; intros Hf done n out; simpl.
  - by rewrite app_nil_r.
  - unfold unlink. rewrite is_file_without, Hf by (left). simpl.
    destruct (decide (p ∈ done)) as [Hin|Hout].
    + rewrite (bool_decide_eq_false_2 (p ∉ done)) by tauto.
      rewrite IH by (intros; apply Hf; by right).
      apply without_ext. intros q. rewrite !elem_of_app, elem_of_cons.
      split; [tauto|]. intros [?|[->|?]]; tauto.
    + rewrite (bool_decide_eq_true_2 (p ∉ done)) by done.
      rewrite without_snoc, IH by (intros; apply Hf; by right).
      by rewrite <- app_assoc.
Qed.

Lemma elem_of_add_mask_bases ms acc b :
  b ∈ add_mask_bases ms acc ↔
  b ∈ acc ∨ ∃ m, m ∈ ms ∧ PyStr.endswith (stem m) MASK_SUFFIX = true
                 ∧ strip_mask (stem m) = b.
Proof.
  revert acc. induction ms as [|m ms IH]; intros acc; simpl.
  - split; [auto|]. intros [?|(m & Hm & _)]; [done|]. by inversion Hm.
  - destruct (PyStr.endswith (stem m) MASK_SUFFIX) eqn:E; rewrite IH.
    + rewrite elem_of_union, elem_of_singleton. split.
      * intros [[H|H]|(m' & H1 & H2 & H3)].
        -- by left.
        -- right. exists m. subst b. split; [left|done].
        -- right. exists m'. split; [by right|done].
      * intros [H|(m' & H1 & H2 & H3)]; [by left; left|].
        apply elem_of_cons in H1 as [-> | H1].
        -- left. right. done.
        -- right. by exists m'.
    + split.
      * intros [H|(m' & H1 & H2 & H3)]; [by left|].
        right. exists m'. split; [by right|done].
      * intros [H|(m' & H1 & H2 & H3)]; [by left|].
        apply elem_of_cons in H1 as [-> | H1]; [congruence|].
        right. by exists m'.
Qed.

Lemma elem_of_collect_unpaired_masks I ms acc p :
  p ∈ collect_unpaired_masks I ms acc ↔
  p ∈ acc ∨ (p ∈ ms ∧ (PyStr.endswith (stem p) MASK_SUFFIX = false
                       ∨ strip_mask (stem p) ∉ I)).
Proof.
  revert acc. induction ms as [|m ms IH]; intros acc; simpl.
  - split; [auto|]. intros [?|[Hm _]]; [done|]. by inversion Hm.
  - destruct (PyStr.endswith (stem m) MASK_SUFFIX) eqn:E; simpl.
    + destruct (bool_decide (strip_mask (stem m) ∉ I)) eqn:EI; rewrite IH;
        [apply bool_decide_eq_true in EI | apply bool_decide_eq_false in EI].
      * rewrite elem_of_app, list_elem_of_singleton. split.
        -- intros [[H|H]|[H1 H2]].
           ++ by left.
           ++ subst p. right. split; [left | by right].
           ++ right. split; [by right | done].
        -- intros [H|[H1 H2]]; [by left; left|].
           apply elem_of_cons in H1 as [-> | H1].
           ++ left. by right.
           ++ by right.
      * split.
        -- intros [H|[H1 H2]]; [by left|].
           right. split; [by right | done].
        -- intros [H|[H1 H2]]; [by left|].
           apply elem_of_cons in H1 as [-> | H1]; [|by right].
           destruct H2 as [H2|H2]; [congruence | contradiction].
    + rewrite IH, elem_of_app, list_elem_of_singleton. split.
      * intros [[H|H]|[H1 H2]].
        -- by left.
        -- subst p. right. split; [left | by left].
        -- right. split; [by right | done].
      * intros [H|[H1 H2]]; [by left; left|].
        apply elem_of_cons in H1 as [-> | H1].
        -- left. by right.
        -- by right.
Qed.

Lemma elem_of_filter_bool {A} (f : A → bool) (l : list A) x :
  x ∈ List.filter f l ↔ x ∈ l ∧ f x = true.
Proof. rewrite !list_elem_of_In. apply filter_In. Qed.

End PruneFacts.

Section PruneRun.
Import Fs Spec Prune.

Implicit Types (s : fs) (p q : path) (ps : list path).

Lemma printed_images_app out1 out2 :
  printed_images (out1 ++ out2) = printed_images out1 ++ printed_images out2.
Proof. unfold printed_images. by rewrite map_app, concat_app. Qed.

Lemma printed_masks_app out1 out2 :
  printed_masks (out1 ++ out2) = printed_masks out1 ++ printed_masks out2.
Proof. unfold printed_masks. by rewrite map_app, concat_app. Qed.

Lemma printed_images_header n1 n2 n3 n4 ui um :
  printed_images ([Counts n1 n2 n3 n4]
                  ++ when_nonempty ui [ImagesToDelete ui]
                  ++ when_nonempty um [MasksToDelete um]) = ui.
Proof.
  unfold printed_images.
  destruct ui, um; simpl; rewrite ?app_nil_r; reflexivity.
Qed.

Lemma printed_masks_header n1 n2 n3 n4 ui um :
  printed_masks ([Counts n1 n2 n3 n4]
                 ++ when_nonempty ui [ImagesToDelete ui]
                 ++ when_nonempty um [MasksToDelete um]) = um.
Proof.
  unfold printed_masks.
  destruct ui, um; simpl; rewrite ?app_nil_r; reflexivity.
Qed.

(** The deletion loop only adds warnings to the output. *)
Lemma delete_all_out ps s n out :
  ∃ ws, (delete_all ps s n out).2 = out ++ map WarnCouldNotDelete ws.
Proof.
  revert s n out. induction ps as [|p ps IH]; intros s n out; simpl.
  - exists []. by rewrite app_nil_r.
  - destruct (unlink s p) as [s'|].
    + apply IH.
    + destruct (IH s n (out ++ [WarnCouldNotDelete p])) as [ws Hws].
      exists (p :: ws). rewrite Hws. by rewrite <- app_assoc.
Qed.

Lemma printed_images_warnings ws :
  printed_images (map WarnCouldNotDelete ws) = [].
Proof. induction ws; [done|]. exact IHws. Qed.

Lemma printed_masks_warnings ws :
  printed_masks (map WarnCouldNotDelete ws) = [].
Proof. induction ws; [done|]. exact IHws. Qed.

(** What a run returns, in terms of its candidate lists. *)
Lemma main_dry_run s img mask :
  is_dir s img = true → is_dir s mask = true →
  ∃ out, main s img mask true = Some (s, out)
         ∧ printed_images out = (candidates s img mask).1
         ∧ printed_masks out = (candidates s img mask).2.
Proof.
  intros Hi Hm. unfold main, candidates. rewrite Hi, Hm.
  cbn [negb orb].
  destruct (compute_bases s img mask) as [[[I M] images] masks].
  eexists. split; [reflexivity|]. cbn [fst snd].
  rewrite printed_images_app, printed_masks_app,
    printed_images_header, printed_masks_header.
  split; apply app_nil_r.
Qed.

Lemma candidates_are_files s img mask p :
  p ∈ (candidates s img mask).1 ++ (candidates s img mask).2 →
  is_file s p = true.
Proof.
  unfold candidates, compute_bases. simpl.
  rewrite elem_of_app, elem_of_filter_bool, elem_of_collect_unpaired_masks.
  intros [[H _]|[H|[H _]]].
  - by eapply media_is_file.
  - by inversion H.
  - by eapply media_is_file.
Qed.

Lemma main_run s img mask :
  is_dir s img = true → is_dir s mask = true →
  ∃ out,
    main s img mask false
    = Some (without ((candidates s img mask).1 ++ (candidates s img mask).2) s,
            out)
    ∧ printed_images out = (candidates s img mask).1
    ∧ printed_masks out = (candidates s img mask).2.
Proof.
  intros Hi Hm.
  pose proof (candidates_are_files s img mask) as Hfiles.
  unfold main, candidates in *. rewrite Hi, Hm. cbn [negb orb].
  destruct (compute_bases s img mask) as [[[I M] images] masks].
  cbn [fst snd] in *.
  set (ui := List.filter _ images) in *.
  set (um := collect_unpaired_masks I masks []) in *.
  set (out := [Counts _ _ _ _] ++ _).
  pose proof (delete_all_store (ui ++ um) s Hfiles [] O out) as Hs.
  destruct (delete_all_out (ui ++ um) s O out) as [ws Hout].
  rewrite without_nil in Hs.
  destruct (delete_all (ui ++ um) s O out) as [[s' n] out'].
  cbn [fst snd] in Hs, Hout. subst s' out'.
  eexists. split; [reflexivity|].
  rewrite !printed_images_app, !printed_masks_app,
    printed_images_warnings, printed_masks_warnings.
  subst out. rewrite printed_images_header, printed_masks_header.
  by rewrite !app_nil_r.
Qed.

End PruneRun.

Section PrunePairs.
Import Fs Spec Prune.

(** The survivors of a run on directories that are apart. *)
Lemma pruned_bases s img mask I M images masks :
  apart img mask →
  compute_bases s img mask = (I, M, images, masks) →
  ∃ images' masks',
    compute_bases
      (without ((candidates s img mask).1 ++ (candidates s img mask).2) s)
      img mask
    = (I ∩ M, I ∩ M, images', masks').
Proof.
  intros Hap Hcb. unfold candidates. rewrite Hcb.
  unfold compute_bases in *. injection Hcb as HI HM Him Hms.
  cbn [fst snd].
  rewrite !iter_media_files_without, Him, Hms.
  rewrite Him in HI. rewrite Hms in HM.
  set (ui := List.filter (fun p => bool_decide (stem p ∉ M)) images).
  set (um := collect_unpaired_masks I masks []).
  assert (Hui : ∀ p, p ∈ ui ↔ p ∈ images ∧ stem p ∉ M).
  { intros p. unfold ui. by rewrite elem_of_filter_bool, bool_decide_eq_true. }
  assert (Hum : ∀ p, p ∈ um ↔
            p ∈ masks ∧ (PyStr.endswith (stem p) MASK_SUFFIX = false
                         ∨ strip_mask (stem p) ∉ I)).
  { intros p. unfold um. rewrite elem_of_collect_unpaired_masks.
    split; [|by right]. intros [H|H]; [by inversion H | done]. }
  assert (Hdisj : ∀ p, p ∈ images → p ∈ masks → False).
  { intros p. rewrite <- Him, <- Hms, !elem_of_iter_media_files.
    intros (_ & B1 & _) (_ & B2 & _). eapply apart_below; eauto. }
  assert (HinI : ∀ b, b ∈ I ↔ ∃ p, p ∈ images ∧ stem p = b).
  { intros b. rewrite <- HI, elem_of_list_to_set, list_elem_of_In, in_map_iff.
    split; intros (p & H1 & H2); exists p.
    - by rewrite list_elem_of_In.
    - by rewrite <- list_elem_of_In. }
  assert (HinM : ∀ b, b ∈ M ↔
            ∃ m, m ∈ masks ∧ PyStr.endswith (stem m) MASK_SUFFIX = true
                 ∧ strip_mask (stem m) = b).
  { intros b. rewrite <- HM, elem_of_add_mask_bases.
    split; [|by right]. intros [H|H]; [by inversion H | done]. }
  set (del := ui ++ um).
  assert (HI' : list_to_set
                  (map stem (List.filter (fun q => bool_decide (q ∉ del)) images))
                = I ∩ M); [|assert (HM' : add_mask_bases
                  (List.filter (fun q => bool_decide (q ∉ del)) masks) ∅
                = I ∩ M); [|eexists _, _; by rewrite HI', HM']].
  - (* image basenames *)
    apply set_eq. intros b.
    rewrite elem_of_list_to_set, elem_of_intersection, HinI,
      list_elem_of_In, in_map_iff.
    split.
    + intros (p & <- & Hp). apply list_elem_of_In, elem_of_filter_bool in Hp.
      destruct Hp as [Hp Hdel]. apply bool_decide_eq_true in Hdel.
      split; [by exists p|].
      destruct (decide (stem p ∈ M)) as [|Hn]; [done|].
      exfalso. apply Hdel, elem_of_app. left. by apply Hui.
    + intros [(p & Hp & <-) HbM]. exists p. split; [done|].
      apply list_elem_of_In, elem_of_filter_bool. split; [done|].
      apply bool_decide_eq_true. intros [Hd|Hd]%elem_of_app.
      * apply Hui in Hd. destruct Hd as [_ Hd]. by apply Hd.
      * apply Hum in Hd. destruct Hd as [Hd _]. by eapply Hdisj.
  - (* mask roots *)
    apply set_eq. intros b.
    rewrite elem_of_add_mask_bases, elem_of_intersection, HinM.
    split.
    + intros [H|(m & Hm & He & <-)]; [by inversion H|].
      apply elem_of_filter_bool in Hm as [Hm Hdel].
      apply bool_decide_eq_true in Hdel.
      split; [|by exists m].
      destruct (decide (strip_mask (stem m) ∈ I)) as [|Hn]; [done|].
      exfalso. apply Hdel, elem_of_app. right. apply Hum. auto.
    + intros [HbI (m & Hm & He & <-)].
      right. exists m. split; [|done].
      apply elem_of_filter_bool. split; [done|].
      apply bool_decide_eq_true. intros [Hd|Hd]%elem_of_app.
      * apply Hui in Hd. destruct Hd as [Hd _]. by eapply Hdisj.
      * apply Hum in Hd. destruct Hd as [_ [Hd|Hd]]; [congruence|].
        by apply Hd.
Qed.

End PrunePairs.

(** C2 (as amended).  For directories that are apart (neither is the other
    or contains it), with image basenames [I] and mask roots [M], a
    non-preview prune run ends, and afterwards the image basenames and the
    mask roots are both [I ∩ M].  In the scenario with images
    C1_100H0001, C1_100H0002 and the single mask C1_100H0001_mask.png the
    run deletes the image C1_100H0002 and reports 1 unpaired image and 0
    unpaired masks. *)
Theorem prune_leaves_paired :
  (∀ s img mask I M images masks,
     Spec.apart img mask →
     Fs.is_dir s img = true → Fs.is_dir s mask = true →
     Prune.compute_bases s img mask = (I, M, images, masks) →
     ∃ s' out images' masks',
       Prune.main s img mask false = Some (s', out)
       ∧ Prune.compute_bases s' img mask = (I ∩ M, I ∩ M, images', masks'))
  ∧ Prune.main Spec.scenario_store ["img"%string] ["mask"%string] false
    = Some (Spec.scenario_store_pruned,
            [Prune.Counts 2 1 1 0;
             Prune.ImagesToDelete [["img"; "C1_100H0002.jpg"]%string];
             Prune.Summary 1]).
Proof.
  split.
  - intros s img mask I M images masks Hap Hi Hm Hcb.
    destruct (main_run s img mask Hi Hm) as (out & Hrun & _).
    destruct (pruned_bases s img mask I M images masks Hap Hcb)
      as (images' & masks' & Hcb').
    eauto 10.
  - vm_compute. reflexivity.
Qed.

Lemma prune_leaves_paired_witness :
  let bases :=
    Prune.compute_bases Spec.scenario_store ["img"%string] ["mask"%string] in
  ∃ s' out images' masks',
    Prune.main Spec.scenario_store ["img"%string] ["mask"%string] false
    = Some (s', out)
    ∧ Prune.compute_bases s' ["img"%string] ["mask"%string]
      = (bases.1.1.1 ∩ bases.1.1.2, bases.1.1.1 ∩ bases.1.1.2,
         images', masks').
Proof.
  intros bases.
  refine (proj1 prune_leaves_paired Spec.scenario_store
            ["img"%string] ["mask"%string]
            bases.1.1.1 bases.1.1.2 bases.1.2 bases.2 _ _ _ _).
  - split; intros [k Hk]; discriminate Hk.
  - reflexivity.
  - reflexivity.
  - subst bases.
    by destruct (Prune.compute_bases Spec.scenario_store _ _) as [[[I M] ?] ?].
Defined.

(** C2 as stated fails when one directory holds both images and masks:
    the run leaves image basenames other than [I ∩ M] (it empties the
    directory, while "a" is in both [I] and [M]). *)
Lemma prune_shared_directory_counterexample :
  let d := ["data"%string] in
  let bases := Prune.compute_bases Spec.shared_store d d in
  ∃ s' out,
    Prune.main Spec.shared_store d d false = Some (s', out)
    ∧ (Prune.compute_bases s' d d).1.1.1 ≠ bases.1.1.1 ∩ bases.1.1.2
    ∧ (Prune.compute_bases s' d d).1.1.2 ≠ bases.1.1.1 ∩ bases.1.1.2.
Proof.
  intros d bases. eexists _, _.
  split; [vm_compute; reflexivity|].
  split; apply (bool_decide_eq_false_1 _); vm_compute; reflexivity.
Qed.

Section PruneClaims.
Import Fs Spec Prune.

Lemma main_some_dirs s img mask dry r :
  main s img mask dry = Some r →
  is_dir s img = true ∧ is_dir s mask = true.
Proof.
  unfold main. destruct (is_dir s img), (is_dir s mask); simpl; try done.
Qed.

Lemma main_none s img mask dry :
  main s img mask dry = None ↔ is_dir s img && is_dir s mask = false.
Proof.
  split.
  - intros H. destruct (is_dir s img) eqn:Hi, (is_dir s mask) eqn:Hm;
      try reflexivity.
    destruct dry.
    + destruct (main_dry_run s img mask Hi Hm) as (out & Hr & _). congruence.
    + destruct (main_run s img mask Hi Hm) as (out & Hr & _). congruence.
  - unfold main. destruct (is_dir s img), (is_dir s mask); simpl; done.
Qed.

End PruneClaims.



(** C9.  A preview run of the prune pass returns the store as it found it,
    and lists exactly the files that a run without the flag removes from
    the same store; both runs print the same two lists.  When the
    directories are not valid both runs stop before touching anything. *)
Theorem prune_preview_is_faithful s img mask :
  match Prune.main s img mask true with
  | Some (s_dry, out_dry) =>
      s_dry = s
      ∧ ∃ out_run,
          Prune.main s img mask false
          = Some (Spec.without (Spec.printed_images out_dry
                                ++ Spec.printed_masks out_dry) s,
                  out_run)
          ∧ Spec.printed_images out_run = Spec.printed_images out_dry
          ∧ Spec.printed_masks out_run = Spec.printed_masks out_dry
          ∧ ∀ p, p ∈ Spec.printed_images out_dry ++ Spec.printed_masks out_dry →
                 Fs.is_file s p = true
  | None => Prune.main s img mask false = None
  end.
Proof.
  destruct (Prune.main s img mask true) as [[s_dry out_dry]|] eqn:Hdry.
  - destruct (main_some_dirs _ _ _ _ _ Hdry) as [Hdi Hdm].
    destruct (main_dry_run s img mask Hdi Hdm) as (out & Hr & Hpi & Hpm).
    rewrite Hdry in Hr. injection Hr as -> ->.
    destruct (main_run s img mask Hdi Hdm) as (out_run & Hr & Hpi' & Hpm').
    split; [reflexivity|]. exists out_run.
    rewrite Hpi, Hpm, Hpi', Hpm'. repeat split; [exact Hr|].
    apply candidates_are_files.
  - apply main_none. by apply main_none in Hdry.
Qed.

(* ===================================================================== *)
(** * Properties of the merge pass *)
(* ===================================================================== *)

Section GatherFacts.
Import Fs Spec Gather.

Implicit Types (s : fs) (p q : path) (w : world).

(** Running the monad's primitives. *)
Lemma run_bind {A B} (m : M A) (k : A → M B) w :
  (m ≫= k) w = match m w with
               | (inl a, w') => k a w'
               | (inr e, w') => (inr e, w')
               end.
Proof. reflexivity. Qed.

Lemma run_iterdir base w :
  is_dir (store w) base = true →
  iterdir base w = (inl (children (store w) base), w).
Proof.
  intros H. unfold iterdir. rewrite run_bind. cbn [get_store].
  by rewrite H.
Qed.

Lemma children_NoDup s base : wf s → NoDup (children s base).
Proof.
  unfold wf, children. intros H.
  apply NoDup_ListNoDup, List.NoDup_filter, NoDup_ListNoDup, H.
Qed.




Lemma run_choose_mask_for exts_iter basename mask_dir w :
  is_dir (store w) mask_dir = true →
  choose_mask_for exts_iter basename mask_dir w
  = (inl match List.find
                 (fun ext => exists_ (store w)
                               (strict_path mask_dir basename ext))
                 exts_iter with
         | Some ext => Some (strict_path mask_dir basename ext)
         | None =>
             match List.filter (relaxed_match (store w) basename)
                               (children (store w) mask_dir) with
             | [p] => Some p
             | _ => None
             end
         end,
     w).
Proof.
  intros Hd. unfold choose_mask_for. rewrite run_bind. cbn [get_store].
  unfold strict_path.
  destruct (List.find _ exts_iter); [reflexivity|].
  rewrite run_bind, run_iterdir by done.
  destruct (List.filter _ _) as [|p [|q l]]; reflexivity.
Qed.

Lemma merge_extensions_spec e :
  e ∈ IMG_EXTS ↔ e ∈ merge_extensions.
Proof.
  unfold IMG_EXTS, merge_extensions.
  rewrite !elem_of_union, !elem_of_singleton, !elem_of_cons, elem_of_nil.
  split.
  - intros [[[[[?|?]|?]|?]|?]|?]; auto 10.
  - intros [?|[?|[?|[?|[?|[?|[]]]]]]]; auto 10.
Qed.

(** The candidates of the amended wording are those of the scan. *)
Lemma relaxed_spec s mask_dir basename p :
  relaxed s mask_dir basename p ↔
  p ∈ children s mask_dir ∧ relaxed_match s basename p = true.
Proof.
  unfold relaxed, relaxed_match.
  rewrite !andb_true_iff, bool_decide_eq_true, merge_extensions_spec.
  unfold MASK_SUFFIX. split.
  - intros (? & ? & ? & ? & ?). done.
  - intros (? & (? & ?) & ? & ?). done.
Qed.

End GatherFacts.

(** C4 (as amended).  [choose_mask_for] first tries the exact names
    basename + "_mask" + extension for the extensions the merge pass allows
    and returns such a path when one exists.  Otherwise it scans the masks
    directory and returns a file exactly when it is the only candidate: the
    only file with an allowed extension (in lower case) whose stem, in lower
    case, starts with the basename in lower case and contains "_mask"; with
    two or more candidates the result is [None]. *)
Theorem choose_mask_priority exts_iter basename mask_dir w :
  (∀ e, e ∈ exts_iter ↔ e ∈ Gather.IMG_EXTS) →
  Fs.wf (Gather.store w) →
  Fs.is_dir (Gather.store w) mask_dir = true →
  ∃ r,
    Gather.choose_mask_for exts_iter basename mask_dir w = (inl r, w)
    ∧ ((∃ ext, ext ∈ Spec.merge_extensions
               ∧ Fs.exists_ (Gather.store w)
                   (Spec.strict_path mask_dir basename ext) = true) →
       ∃ ext, ext ∈ Spec.merge_extensions
              ∧ Fs.exists_ (Gather.store w)
                  (Spec.strict_path mask_dir basename ext) = true
              ∧ r = Some (Spec.strict_path mask_dir basename ext))
    ∧ ((∀ ext, ext ∈ Spec.merge_extensions →
               Fs.exists_ (Gather.store w)
                 (Spec.strict_path mask_dir basename ext) = false) →
       (∀ p, r = Some p ↔
             Spec.relaxed (Gather.store w) mask_dir basename p
             ∧ ∀ q, Spec.relaxed (Gather.store w) mask_dir basename q → q = p)
       ∧ (∀ p q, Spec.relaxed (Gather.store w) mask_dir basename p →
                 Spec.relaxed (Gather.store w) mask_dir basename q →
                 p ≠ q → r = None)).
Proof.
  intros Hexts Hwf Hdir. eexists. split; [by apply run_choose_mask_for|].
  set (s := Gather.store w).
  destruct (List.find _ exts_iter) as [ext|] eqn:Hfind.
  - (* an exact name exists *)
    apply find_some in Hfind as [Hin Hex].
    apply list_elem_of_In, Hexts, merge_extensions_spec in Hin. split.
    + intros _. by exists ext.
    + intros Hnone. rewrite Hnone in Hex by done. discriminate.
  - (* no exact name: the relaxed scan *)
    split.
    { intros (ext & Hin & Hex).
      apply merge_extensions_spec, Hexts, list_elem_of_In in Hin.
      eapply find_none in Hfind; [|exact Hin]. simpl in Hfind. congruence. }
    intros _.
    assert (Hrel : ∀ p, Spec.relaxed s mask_dir basename p ↔
               p ∈ List.filter (Gather.relaxed_match s basename)
                               (Fs.children s mask_dir)).
    { intros p. rewrite elem_of_filter_bool. apply relaxed_spec. }
    assert (Hnd : NoDup (List.filter (Gather.relaxed_match s basename)
                                     (Fs.children s mask_dir))).
    { apply NoDup_ListNoDup, List.NoDup_filter, NoDup_ListNoDup.
      by apply children_NoDup. }
    destruct (List.filter _ _) as [|p1 [|p2 l]].
    + split.
      * intros p. split; [done|]. intros [Hp _]. apply Hrel in Hp.
        by inversion Hp.
      * reflexivity.
    + split.
      * intros p. split.
        -- intros [= <-]. split; [apply Hrel; left|].
           intros q Hq%Hrel. by apply list_elem_of_singleton in Hq.
        -- intros [Hp%Hrel _]. apply list_elem_of_singleton in Hp. by subst.
      * intros p q Hp%Hrel Hq%Hrel Hne.
        apply list_elem_of_singleton in Hp, Hq. congruence.
    + split; [|reflexivity].
      intros p. split; [done|]. intros [_ Huniq].
      assert (p1 = p) as <- by (apply Huniq, Hrel; left).
      assert (p2 = p1) as -> by (apply Huniq, Hrel; right; left).
      apply NoDup_cons in Hnd as [Hnd _]. exfalso. apply Hnd. left.
Qed.

Lemma choose_mask_priority_witness :
  ∃ r,
    Gather.choose_mask_for (elements Gather.IMG_EXTS) "scan" ["masks"%string]
      (Gather.World Spec.ambiguous_masks [])
    = (inl r, Gather.World Spec.ambiguous_masks [])
    ∧ r = None.
Proof.
  destruct (choose_mask_priority (elements Gather.IMG_EXTS) "scan"
              ["masks"%string] (Gather.World Spec.ambiguous_masks []))
    as (r & Hrun & _ & Hrelaxed).
  - intros e. apply elem_of_elements.
  - unfold Fs.wf. apply (bool_decide_eq_true_1 _). vm_compute. reflexivity.
  - reflexivity.
  - exists r. split; [exact Hrun|].
    destruct Hrelaxed as [_ Hambiguous].
    + apply Forall_forall.
      apply (bool_decide_eq_true_1 _). vm_compute. reflexivity.
    + apply (Hambiguous ["masks"; "scan_v1_mask.png"]%string
                        ["masks"; "scan_v2_mask.png"]%string).
      * apply relaxed_spec. split; [vm_compute; repeat constructor|].
        vm_compute. reflexivity.
      * apply relaxed_spec. split; [vm_compute; repeat constructor|].
        vm_compute. reflexivity.
      * discriminate.
Defined.

(** C4 as stated fails where names differ in case.  With the basename [A]
    and a masks folder whose only file is [a_x_mask.png], no file has a
    stem that starts with the basename, yet the scan returns that file.
    With the basename [a] and the files [a_x_mask.png] and [A_y_mask.png],
    exactly one file has a stem that starts with the basename and contains
    the marker, yet the scan returns nothing. *)
Lemma relaxed_scan_folds_case_counterexample :
  (List.filter (Spec.relaxed_as_worded Spec.lower_case_mask "A")
               (Fs.children Spec.lower_case_mask ["masks"%string]) = []
   ∧ (Gather.choose_mask_for Spec.merge_extensions "A" ["masks"%string]
        (Gather.World Spec.lower_case_mask [])).1
     = inl (Some ["masks"; "a_x_mask.png"]%string))
  ∧ (List.filter (Spec.relaxed_as_worded Spec.mixed_case_masks "a")
                 (Fs.children Spec.mixed_case_masks ["masks"%string])
     = [["masks"; "a_x_mask.png"]%string]
     ∧ (Gather.choose_mask_for Spec.merge_extensions "a" ["masks"%string]
          (Gather.World Spec.mixed_case_masks [])).1
       = inl None).
Proof. repeat split; vm_compute; reflexivity. Qed.

Section SplitFacts.
Import Fs Spec Gather.



End SplitFacts.




(** The whole merge pass on a root whose first split lacks its masks
    folder: the split is reported and the next one is processed. *)
Example merge_skips_partial_split :
  (Gather.main (elements Gather.IMG_EXTS) ["raw"%string] ["out"%string]
     true false (Gather.World Spec.partial_split [])).2
  = Gather.World
      (Spec.partial_split
       ++ [(["out"], Fs.Dir); (["out"; "img"], Fs.Dir);
           (["out"; "mask"], Fs.Dir)]%string)
      [Gather.FoundSplits ["data_C1"; "data_C2"]%string;
       Gather.WarnSkipping "data_C1";
       Gather.SplitLine "data_C1" 0 0 0 0;
       Gather.DryCopy ["raw"; "data_C2"; "images_C2"; "8.jpg"]%string
                      ["out"; "img"; "C2_8.jpg"]%string;
       Gather.DryCopy ["raw"; "data_C2"; "masks_C2"; "8_mask.png"]%string
                      ["out"; "mask"; "C2_8_mask.png"]%string;
       Gather.SplitLine "data_C2" 1 1 0 0;
       Gather.SummaryLines 1 1 [] []].
Proof. vm_compute. reflexivity. Qed.

(** C5: the four enumerations applied to one folder holding a WebP image
    and a hidden file with an image extension.  The prune pass and the
    resampler list the WebP image only; the binarizer lists both; the merge
    pass lists the hidden file only. *)
Theorem enumerations_disagree :
  Prune.iter_media_files Spec.mixed_folder ["d"%string] Prune.IMG_EXTS
  = [["d"; "x.webp"]%string]
  ∧ Resize.files Spec.mixed_folder ["d"%string] = [["d"; "x.webp"]%string]
  ∧ Binarizer.mask_files Spec.mixed_folder ["d"%string]
    = [["d"; "x.webp"]; ["d"; "._x.jpg"]]%string
  ∧ List.filter (Gather.is_listed Spec.mixed_folder)
                (Fs.rglob Spec.mixed_folder ["d"%string])
    = [["d"; "._x.jpg"]%string].
Proof. repeat split; vm_compute; reflexivity. Qed.

(* ===================================================================== *)
(** * Floating-point arithmetic of the resize *)
(* ===================================================================== *)

Section Digits.

Lemma digits2_pos_size p : digits2_pos p = Pos.size p.
Proof. induction p; simpl; congruence. Qed.

(** The number of binary digits brackets the number. *)
Lemma Zdigits2_bounds m :
  0 < m → 2 ^ (Zdigits2 m - 1) <= m < 2 ^ Zdigits2 m.
Proof.
  destruct m as [|p|p]; try lia. intros _. simpl Zdigits2.
  rewrite digits2_pos_size.
  pose proof (Pos.size_gt p) as Hgt. pose proof (Pos.size_le p) as Hle.
  assert (H2 : Z.pos (2 ^ Pos.size p) = 2 ^ Z.pos (Pos.size p))
    by apply Pos2Z.inj_pow.
  split.
  - assert (2 ^ Z.pos (Pos.size p) = 2 * 2 ^ (Z.pos (Pos.size p) - 1)).
    { rewrite <- Z.pow_succ_r by lia. f_equal. lia. }
    lia.
  - lia.
Qed.

Lemma Zdigits2_unique m k :
  2 ^ (k - 1) <= m < 2 ^ k → 0 < k → Zdigits2 m = k.
Proof.
  intros [Hlo Hhi] Hk.
  assert (0 < m) by (pose proof (Z.pow_pos_nonneg 2 (k - 1)); lia).
  pose proof (Zdigits2_bounds m H) as [Hlo' Hhi'].
  assert (0 < Zdigits2 m) by (destruct m; simpl; lia).
  destruct (Z.lt_trichotomy (Zdigits2 m) k) as [Hlt|[Heq|Hgt]]; [|done|].
  - assert (2 ^ Zdigits2 m <= 2 ^ (k - 1))
      by (apply Z.pow_le_mono_r; lia). lia.
  - assert (2 ^ k <= 2 ^ (Zdigits2 m - 1))
      by (apply Z.pow_le_mono_r; lia). lia.
Qed.

End Digits.

Section Shifting.

Lemma shr_1_m mrs : 0 <= shr_m mrs → shr_m (shr_1 mrs) = shr_m mrs / 2.
Proof.
  destruct mrs as [m r s]. simpl. intros Hm.
  destruct m as [|[p|p|]|p]; simpl; try lia; try reflexivity.
  - rewrite Pos2Z.inj_xI. apply Z.div_unique with 1; lia.
  - rewrite Pos2Z.inj_xO. apply Z.div_unique with 0; lia.
Qed.

Lemma iter_pos_shr_1_m p : ∀ mrs,
  0 <= shr_m mrs →
  shr_m (SpecFloat.iter_pos shr_1 p mrs) = shr_m mrs / 2 ^ Z.pos p.
Proof.
  assert (Hnn : ∀ mrs, 0 <= shr_m mrs → 0 <= shr_m (shr_1 mrs)).
  { intros mrs H. rewrite shr_1_m by done. by apply Z.div_pos. }
  induction p as [p IH|p IH|]; intros mrs Hm; simpl.
  - assert (H1 : 0 <= shr_m (shr_1 mrs)) by auto.
    assert (H2 : 0 <= shr_m (SpecFloat.iter_pos shr_1 p (shr_1 mrs))).
    { rewrite IH by done. apply Z.div_pos; lia. }
    rewrite IH, IH, shr_1_m by done.
    rewrite !Z.div_div by lia. f_equal.
    replace (Z.pos p~1) with (1 + Z.pos p + Z.pos p) by lia.
    rewrite !Z.pow_add_r by lia. change (2 ^ 1) with 2. ring.
  - assert (H2 : 0 <= shr_m (SpecFloat.iter_pos shr_1 p mrs)).
    { rewrite IH by done. apply Z.div_pos; lia. }
    rewrite IH, IH by done.
    rewrite !Z.div_div by lia. f_equal.
    replace (Z.pos p~0) with (Z.pos p + Z.pos p) by lia.
    rewrite !Z.pow_add_r by lia. ring.
  - by rewrite shr_1_m.
Qed.

Lemma shr_record_of_loc_m m l : shr_m (shr_record_of_loc m l) = m.
Proof. by destruct l as [|[]]. Qed.

Lemma round_nearest_even_step m l :
  round_nearest_even m l = m ∨ round_nearest_even m l = m + 1.
Proof.
  destruct l as [|[]]; simpl; auto. destruct (Z.even m); auto.
Qed.

(** Shifting a number with [d >= prec] digits to [prec] digits. *)
Lemma shr_fexp_m m e l :
  0 < m → 53 <= Zdigits2 m → -1074 <= Zdigits2 m + e - 53 →
  let n := Zdigits2 m - 53 in
  ∃ mrs, shr_fexp 53 1024 m e l = (mrs, e + n) ∧ shr_m mrs = m / 2 ^ n
         ∧ (n = 0 → loc_of_shr_record mrs = l).
Proof.
  intros Hm Hd He n. unfold shr_fexp, fexp, emin.
  replace (Z.max (Zdigits2 m + e - 53) (3 - 1024 - 53) - e) with n by lia.
  unfold shr. destruct n as [|p|p] eqn:En.
  - eexists. split; [by rewrite Z.add_0_r|]. split.
    + rewrite shr_record_of_loc_m. by rewrite Z.div_1_r.
    + intros _. by destruct l as [|[]].
  - eexists. split; [reflexivity|]. split; [|done].
    rewrite iter_pos_shr_1_m; rewrite shr_record_of_loc_m; [done|lia].
  - lia.
Qed.

End Shifting.

Section Rounding.

Lemma pow2_split d n : 0 <= n <= d → 2 ^ d = 2 ^ n * 2 ^ (d - n).
Proof. intros H. rewrite <- Z.pow_add_r by lia. f_equal. lia. Qed.

(** Dropping the digits beyond the 53rd leaves a 53-digit number. *)
Lemma truncated_bounds m :
  0 < m → 53 <= Zdigits2 m →
  2 ^ 52 <= m / 2 ^ (Zdigits2 m - 53) < 2 ^ 53.
Proof.
  intros Hm Hd. pose proof (Zdigits2_bounds m Hm) as [Hlo Hhi].
  set (d := Zdigits2 m) in *. set (n := d - 53).
  assert (0 < 2 ^ n) by (apply Z.pow_pos_nonneg; lia).
  split.
  - apply Z.div_le_lower_bound; [done|].
    rewrite (pow2_split (d - 1) n) in Hlo by lia.
    replace (d - 1 - n) with 52 in Hlo by lia. lia.
  - apply Z.div_lt_upper_bound; [done|].
    rewrite (pow2_split d n) in Hhi by lia.
    replace (d - n) with 53 in Hhi by lia. lia.
Qed.

(** [binary_round_aux] on a positive number with at least 53 digits, in
    the range of the normal numbers: the result is the truncation to 53
    digits or its successor. *)
Lemma binary_round_aux_normal mx ex lx :
  0 < mx → 53 <= Zdigits2 mx →
  -1074 <= Zdigits2 mx + ex - 53 → Zdigits2 mx + ex <= 1023 →
  let n := Zdigits2 mx - 53 in
  let m1 := mx / 2 ^ n in
  let e1 := ex + n in
  ∃ m e,
    binary_round_aux 53 1024 false mx ex lx = S754_finite false m e
    ∧ 2 ^ 52 <= Z.pos m < 2 ^ 53
    ∧ ((Z.pos m = m1 ∧ e = e1)
       ∨ (Z.pos m = m1 + 1 ∧ e = e1)
       ∨ (m1 + 1 = 2 ^ 53 ∧ Z.pos m = 2 ^ 52 ∧ e = e1 + 1))
    ∧ (n = 0 → lx = loc_Exact → Z.pos m = mx ∧ e = ex).
Proof.
  intros Hm Hd Hlo Hhi n m1 e1.
  pose proof (truncated_bounds mx Hm Hd) as Hm1. fold n m1 in Hm1.
  unfold binary_round_aux.
  destruct (shr_fexp_m mx ex lx Hm Hd Hlo) as (mrs & -> & Hmrs & Hloc).
  fold n m1 e1 in Hmrs, Hloc |- *. rewrite Hmrs.
  set (m2 := round_nearest_even m1 (loc_of_shr_record mrs)).
  assert (Hm2 : m2 = m1 ∨ m2 = m1 + 1) by apply round_nearest_even_step.
  assert (Hexact : n = 0 → lx = loc_Exact → m2 = mx ∧ e1 = ex).
  { intros Hn Hl. unfold m2. rewrite Hloc, Hl by done. simpl.
    unfold m1, e1. rewrite Hn, Z.div_1_r. lia. }
  destruct (Z.lt_ge_cases m2 (2 ^ 53)) as [Hsmall|Hbig].
  - (* no carry *)
    assert (Hd2 : Zdigits2 m2 = 53) by (apply Zdigits2_unique; lia).
    destruct (shr_fexp_m m2 e1 loc_Exact) as (mrs2 & -> & Hmrs2 & _);
      [lia | lia | lia |].
    rewrite Hd2, Z.sub_diag in Hmrs2 |- *. rewrite Z.div_1_r in Hmrs2.
    rewrite Hmrs2, Z.add_0_r.
    destruct m2 as [|p|p] eqn:Ep; [lia | | lia].
    replace (e1 <=? 1024 - 53) with true by (symmetry; apply Z.leb_le; lia).
    exists p, e1. split; [done|]. split; [lia|]. split.
    { destruct Hm2 as [->| ->]; [by left | right; by left]. }
    intros Hn Hl. by apply Hexact.
  - (* the successor is 2^53: one more shift *)
    assert (Hcarry : m2 = 2 ^ 53) by lia.
    assert (Hd2 : Zdigits2 m2 = 54) by (rewrite Hcarry; reflexivity).
    destruct (shr_fexp_m m2 e1 loc_Exact) as (mrs2 & -> & Hmrs2 & _);
      [lia | lia | lia |].
    rewrite Hd2 in Hmrs2 |- *. rewrite Hcarry in Hmrs2.
    change (2 ^ 53 / 2 ^ (54 - 53)) with (Z.pos (2 ^ 52)) in Hmrs2.
    rewrite Hmrs2.
    replace (e1 + (54 - 53) <=? 1024 - 53) with true
      by (symmetry; apply Z.leb_le; lia).
    exists (2 ^ 52)%positive, (e1 + 1). split; [f_equal; lia|].
    split; [done|]. split; [right; right; lia|].
    intros Hn Hl. destruct (Hexact Hn Hl) as [Hmx _].
    pose proof (Zdigits2_bounds mx Hm) as [_ Hmxhi].
    replace (Zdigits2 mx) with 53 in Hmxhi by (unfold n in Hn; clear -Hn; lia).
    clear -Hmx Hmxhi Hcarry. lia.
Qed.

End Rounding.

Section RealValue.
Import Spec.
Local Open Scope R_scope.

Lemma powerRZ2_pos e : 0 < powerRZ 2 e.
Proof. apply powerRZ_lt. lra. Qed.

Lemma powerRZ2_add a b : powerRZ 2 (a + b) = powerRZ 2 a * powerRZ 2 b.
Proof. apply powerRZ_add. lra. Qed.

Lemma powerRZ2_Zpow n : (0 <= n)%Z → powerRZ 2 n = IZR (2 ^ n).
Proof.
  intros Hn. rewrite <- (Z2Nat.id n) by done.
  rewrite <- pow_powerRZ, pow_IZR. reflexivity.
Qed.

Lemma powerRZ2_succ e : powerRZ 2 (e + 1) = 2 * powerRZ 2 e.
Proof. rewrite powerRZ2_add, powerRZ_1. apply Rmult_comm. Qed.

Lemma powerRZ2_le a b : (a <= b)%Z → powerRZ 2 a <= powerRZ 2 b.
Proof.
  intros H. replace b with (a + (b - a))%Z by lia.
  rewrite powerRZ2_add, (powerRZ2_Zpow (b - a)) by lia.
  assert (1 <= IZR (2 ^ (b - a))).
  { apply IZR_le. pose proof (Z.pow_pos_nonneg 2 (b - a)). lia. }
  pose proof (powerRZ2_pos a). nra.
Qed.

Lemma F2R_nonneg m e : (0 <= m)%Z → 0 <= F2R m e.
Proof.
  intros H. unfold F2R. apply Rmult_le_pos; [by apply IZR_le|].
  apply Rlt_le, powerRZ2_pos.
Qed.

Lemma F2R_mono m m' e : (m <= m')%Z → F2R m e <= F2R m' e.
Proof.
  intros H. unfold F2R. apply Rmult_le_compat_r; [|by apply IZR_le].
  apply Rlt_le, powerRZ2_pos.
Qed.

(** Moving a power of two between significand and exponent. *)
Lemma F2R_shift m e k : (0 <= k)%Z → F2R (m * 2 ^ k) e = F2R m (e + k).
Proof.
  intros Hk. unfold F2R.
  rewrite mult_IZR, powerRZ2_add, <- powerRZ2_Zpow by done. ring.
Qed.

Lemma F2R_mul m1 e1 m2 e2 :
  F2R (m1 * m2) (e1 + e2) = F2R m1 e1 * F2R m2 e2.
Proof. unfold F2R. rewrite mult_IZR, powerRZ2_add. ring. Qed.

Lemma F2R_int m : F2R m 0 = IZR m.
Proof. unfold F2R. simpl. ring. Qed.

Lemma u_pos : 0 < u.
Proof. unfold u. apply Rinv_0_lt_compat, IZR_lt. reflexivity. Qed.

(** The result of [binary_round_aux] is at most one unit in the last
    place above the number it was given. *)
Lemma binary_round_aux_upper mx ex lx :
  (0 < mx)%Z → (53 <= Zdigits2 mx)%Z →
  (-1074 <= Zdigits2 mx + ex - 53)%Z → (Zdigits2 mx + ex <= 1023)%Z →
  ∃ m e,
    binary_round_aux 53 1024 false mx ex lx = S754_finite false m e
    ∧ (2 ^ 52 <= Z.pos m < 2 ^ 53)%Z
    ∧ (ex + (Zdigits2 mx - 53) <= e <= ex + (Zdigits2 mx - 53) + 1)%Z
    ∧ F2R (Z.pos m) e <= F2R mx ex * (1 + u).
Proof.
  intros Hm Hd Hlo Hhi.
  destruct (binary_round_aux_normal mx ex lx Hm Hd Hlo Hhi)
    as (m & e & Hres & Hcanon & Hcases & _).
  pose proof (truncated_bounds mx Hm Hd) as Hm1.
  set (n := (Zdigits2 mx - 53)%Z) in *.
  set (m1 := (mx / 2 ^ n)%Z) in *.
  exists m, e. split; [done|]. split; [done|].
  assert (Hn : (0 <= n)%Z) by (unfold n; lia).
  assert (Htrunc : F2R m1 (ex + n) <= F2R mx ex).
  { rewrite <- F2R_shift by done. apply F2R_mono.
    unfold m1. rewrite Z.mul_comm. apply Z.mul_div_le.
    apply Z.pow_pos_nonneg; lia. }
  assert (Hm1R : IZR (2 ^ 52) <= IZR m1) by (apply IZR_le; lia).
  assert (Hsucc : F2R (m1 + 1) (ex + n) <= F2R mx ex * (1 + u)).
  { pose proof (powerRZ2_pos (ex + n)) as Hp.
    pose proof u_pos as Hu.
    assert (Hulp : powerRZ 2 (ex + n) <= F2R m1 (ex + n) * u).
    { unfold F2R, u.
      assert (0 < IZR (2 ^ 52)) by (apply IZR_lt; reflexivity).
      rewrite Rmult_assoc, (Rmult_comm (powerRZ 2 (ex + n))), <- Rmult_assoc.
      rewrite <- (Rmult_1_l (powerRZ 2 (ex + n))) at 1.
      apply Rmult_le_compat_r; [lra|].
      apply Rmult_le_reg_r with (IZR (2 ^ 52)); [done|].
      rewrite Rmult_assoc, Rinv_l by lra. lra. }
    assert (Hsplit : F2R (m1 + 1) (ex + n)
                     = F2R m1 (ex + n) + powerRZ 2 (ex + n)).
    { unfold F2R. rewrite plus_IZR. ring. }
    rewrite Hsplit. nra. }
  destruct Hcases as [[Hmm ->]|[[Hmm ->]|(Hc & Hmm & ->)]]; rewrite Hmm.
  - split; [lia|]. pose proof u_pos.
    assert (0 <= F2R mx ex) by (apply F2R_nonneg; lia). nra.
  - split; [lia|]. exact Hsucc.
  - split; [lia|]. rewrite Hc in Hsucc.
    replace (F2R (2 ^ 52) (ex + n + 1)) with (F2R (2 ^ 53) (ex + n));
      [exact Hsucc|].
    unfold F2R. rewrite powerRZ2_succ.
    change (2 ^ 53)%Z with (2 * 2 ^ 52)%Z. rewrite mult_IZR. ring.
Qed.

End RealValue.

Section FloatOps.
Import Spec PyFloat.

Lemma div_eucl_pair a b : Z.div_eucl a b = (a / b, a mod b).
Proof. unfold Z.div, Z.modulo. by destruct (Z.div_eucl a b). Qed.

Lemma dim_digits n : dim n → 1 <= Zdigits2 n <= 50.
Proof.
  intros [Hlo Hhi]. pose proof (Zdigits2_bounds n ltac:(lia)) as [Hd _].
  assert (0 < Zdigits2 n) by (destruct n; simpl; lia).
  split; [lia|].
  destruct (Z.le_gt_cases (Zdigits2 n) 50) as [|Hbig]; [done|].
  assert (2 ^ 50 <= 2 ^ (Zdigits2 n - 1)) by (apply Z.pow_le_mono_r; lia).
  lia.
Qed.

Lemma SFdiv_core_ints a b :
  dim a → dim b →
  let s := 53 + Zdigits2 b - Zdigits2 a in
  SFdiv_core_binary 53 1024 a 0 b 0
  = (a * 2 ^ s / b, - s, new_location b (a * 2 ^ s mod b)).
Proof.
  intros Ha Hb s.
  pose proof (dim_digits a Ha). pose proof (dim_digits b Hb).
  unfold SFdiv_core_binary, fexp, emin.
  replace (Z.min (Z.max (Zdigits2 a + 0 - (Zdigits2 b + 0) - 53)
                        (3 - 1024 - 53)) (0 - 0)) with (- s) by lia.
  replace (0 - 0 - - s) with s by lia.
  assert (Hs : 0 < s) by lia.
  destruct s as [|p|p] eqn:Es; [lia | | lia].
  rewrite Z.shiftl_mul_pow2 by lia. rewrite div_eucl_pair. reflexivity.
Qed.

(** The quotient of two dimensions: a normal number, at most one unit
    in the last place above the exact quotient. *)
Lemma int_true_div_upper a b :
  dim a → dim b →
  ∃ m e,
    int_true_div a b = Some (S754_finite false m e)
    ∧ 2 ^ 52 <= Z.pos m < 2 ^ 53
    ∧ -102 <= e <= -2
    ∧ (F2R (Z.pos m) e <= IZR a / IZR b * (1 + u))%R.
Proof.
  intros Ha Hb.
  pose proof (dim_digits a Ha) as Hda. pose proof (dim_digits b Hb) as Hdb.
  pose proof (SFdiv_core_ints a b Ha Hb) as Hcore.
  destruct Ha as [Ha1 Ha2], Hb as [Hb1 Hb2].
  pose proof (Zdigits2_bounds a ltac:(lia)) as [Halo Hahi].
  pose proof (Zdigits2_bounds b ltac:(lia)) as [Hblo Hbhi].
  unfold int_true_div.
  replace (b =? 0) with false by (symmetry; apply Z.eqb_neq; lia).
  destruct a as [|pa|pa]; [lia| |lia]. destruct b as [|pb|pb]; [lia| |lia].
  unfold PyFloat.prec, PyFloat.emax.
  cbn [of_int_exact SFdiv xorb]. rewrite Hcore. clear Hcore.
  set (a := Z.pos pa) in *. set (b := Z.pos pb) in *.
  set (s := 53 + Zdigits2 b - Zdigits2 a) in *.
  set (q := a * 2 ^ s / b).
  assert (Hs : 4 <= s <= 102) by (unfold s; lia).
  assert (Hpow : 0 < 2 ^ s) by (apply Z.pow_pos_nonneg; lia).
  assert (Hnum_lo : 2 ^ 52 * 2 ^ Zdigits2 b <= a * 2 ^ s).
  { rewrite <- Z.pow_add_r by lia.
    replace (52 + Zdigits2 b) with (Zdigits2 a - 1 + s) by (unfold s; lia).
    rewrite Z.pow_add_r by lia. apply Z.mul_le_mono_nonneg_r; lia. }
  assert (Hnum_hi : a * 2 ^ s < 2 ^ (Zdigits2 b - 1) * 2 ^ 54).
  { rewrite <- Z.pow_add_r by lia.
    replace (Zdigits2 b - 1 + 54) with (Zdigits2 a + s) by (unfold s; lia).
    rewrite Z.pow_add_r by lia. apply Z.mul_lt_mono_pos_r; lia. }
  assert (Hq : 2 ^ 52 <= q < 2 ^ 54).
  { unfold q. split.
    - apply Z.div_le_lower_bound; [lia|]. nia.
    - apply Z.div_lt_upper_bound; [lia|]. nia. }
  assert (Hdq : Zdigits2 q = 53 ∨ Zdigits2 q = 54).
  { destruct (Z.lt_ge_cases q (2 ^ 53)).
    - left. apply Zdigits2_unique; lia.
    - right. apply Zdigits2_unique; lia. }
  destruct (binary_round_aux_upper q (- s)
              (new_location b (a * 2 ^ s mod b)))
    as (m & e & Hres & Hcanon & He & Hval); [lia..|].
  rewrite Hres. cbn [is_finite].
  exists m, e. split; [done|]. split; [done|]. split; [lia|].
  eapply Rle_trans; [exact Hval|].
  apply Rmult_le_compat_r.
  { pose proof u_pos. lra. }
  assert (HbR : (0 < IZR b)%R) by (apply IZR_lt; lia).
  apply Rmult_le_reg_r with (IZR b); [done|].
  unfold Rdiv. rewrite Rmult_assoc, Rinv_l, Rmult_1_r by lra.
  assert (H1 : (IZR q * IZR b <= IZR (a * 2 ^ s))%R).
  { rewrite <- mult_IZR. apply IZR_le. unfold q.
    rewrite Z.mul_comm. apply Z.mul_div_le. lia. }
  assert (H2 : (IZR (a * 2 ^ s) * powerRZ 2 (- s) = IZR a)%R).
  { change (F2R (a * 2 ^ s) (- s) = IZR a).
    rewrite F2R_shift by lia. replace (- s + s) with 0 by lia.
    apply F2R_int. }
  rewrite <- H2. unfold F2R.
  replace (IZR q * powerRZ 2 (- s) * IZR b)%R
    with (IZR q * IZR b * powerRZ 2 (- s))%R by ring.
  apply Rmult_le_compat_r; [apply Rlt_le, powerRZ2_pos | exact H1].
Qed.

End FloatOps.

Section FloatOps2.
Import Spec PyFloat.

(** [float(n)] is exact for a dimension. *)
Lemma of_int_value n :
  dim n →
  ∃ m, of_int n = Some (S754_finite false m (Zdigits2 n - 53))
       ∧ Z.pos m = n * 2 ^ (53 - Zdigits2 n).
Proof.
  intros Hn. pose proof (dim_digits n Hn) as Hd. destruct Hn as [Hn1 Hn2].
  pose proof (Zdigits2_bounds n ltac:(lia)) as [Hlo Hhi].
  destruct n as [|p|p]; [lia| |lia].
  unfold of_int, binary_normalize, binary_round, PyFloat.prec, PyFloat.emax.
  unfold fexp, emin, shl_align.
  cbn [Zdigits2] in *. set (d := Z.pos (digits2_pos p)) in *.
  replace (Z.max (d + 0 - 53) (3 - 1024 - 53) - 0) with (d - 53) by lia.
  replace (Z.max (d + 0 - 53) (3 - 1024 - 53)) with (d - 53) by lia.
  destruct (d - 53) as [|k|k] eqn:Ek; [lia | lia |].
  set (M := Z.pos (Pos.iter xO p k)).
  assert (HM : M = Z.pos p * 2 ^ (53 - d)).
  { unfold M. change (Pos.iter xO p k) with (shift_pos k p).
    rewrite shift_pos_correct, Zpower_pos_nat, Zpower_nat_Z.
    rewrite positive_nat_Z. replace (53 - d) with (Z.pos k) by lia. lia. }
  assert (Hpow : 0 < 2 ^ (53 - d)) by (apply Z.pow_pos_nonneg; lia).
  assert (HMb : 2 ^ 52 <= M < 2 ^ 53).
  { rewrite HM. split.
    - rewrite (pow2_split 52 (53 - d)) by lia.
      replace (52 - (53 - d)) with (d - 1) by lia. nia.
    - rewrite (pow2_split 53 (53 - d)) by lia.
      replace (53 - (53 - d)) with d by lia. nia. }
  assert (HdM : Zdigits2 M = 53) by (apply Zdigits2_unique; lia).
  destruct (binary_round_aux_normal M (Z.neg k) loc_Exact)
    as (m & e & Hres & _ & _ & Hexact); [lia..|].
  destruct Hexact as [Hm He]; [lia | done |].
  rewrite Hres. cbn [is_finite]. exists m. subst e.
  split; [done|]. rewrite Hm. exact HM.
Qed.

(** The product of a dimension and a normal number. *)
Lemma int_mul_upper n ms es :
  dim n → 2 ^ 52 <= Z.pos ms < 2 ^ 53 → -102 <= es <= -2 →
  ∃ m e,
    int_mul n (S754_finite false ms es) = Some (S754_finite false m e)
    ∧ 2 ^ 52 <= Z.pos m < 2 ^ 53
    ∧ (F2R (Z.pos m) e <= IZR n * F2R (Z.pos ms) es * (1 + u))%R.
Proof.
  intros Hn Hms Hes. pose proof (dim_digits n Hn) as Hd.
  destruct (of_int_value n Hn) as (mw & Hof & Hmw).
  pose proof (Zdigits2_bounds n ltac:(destruct Hn; lia)) as [Hlo Hhi].
  unfold int_mul. rewrite Hof.
  unfold PyFloat.prec, PyFloat.emax. cbn [SFmul xorb].
  set (d := Zdigits2 n) in *.
  assert (Hpow : 0 < 2 ^ (53 - d)) by (apply Z.pow_pos_nonneg; lia).
  assert (Hmwb : 2 ^ 52 <= Z.pos mw < 2 ^ 53).
  { rewrite Hmw. split.
    - rewrite (pow2_split 52 (53 - d)) by lia.
      replace (52 - (53 - d)) with (d - 1) by lia. nia.
    - rewrite (pow2_split 53 (53 - d)) by lia.
      replace (53 - (53 - d)) with d by lia. nia. }
  rewrite Pos2Z.inj_mul.
  set (P := Z.pos mw * Z.pos ms).
  assert (HP : 2 ^ 104 <= P < 2 ^ 106).
  { unfold P. change (2 ^ 104) with (2 ^ 52 * 2 ^ 52).
    change (2 ^ 106) with (2 ^ 53 * 2 ^ 53). nia. }
  assert (HdP : Zdigits2 P = 105 ∨ Zdigits2 P = 106).
  { destruct (Z.lt_ge_cases P (2 ^ 105)).
    - left. apply Zdigits2_unique; lia.
    - right. apply Zdigits2_unique; lia. }
  destruct (binary_round_aux_upper P (d - 53 + es) loc_Exact)
    as (m & e & Hres & Hcanon & _ & Hval); [lia..|].
  rewrite Hres. exists m, e. split; [done|]. split; [done|].
  eapply Rle_trans; [exact Hval|].
  apply Req_le. f_equal. unfold P. rewrite F2R_mul. f_equal.
  rewrite Hmw, F2R_shift by lia.
  replace (d - 53 + (53 - d)) with 0 by lia. apply F2R_int.
Qed.

(** Comparison of normal numbers agrees with their values, so
    [min] returns one of its arguments, below both. *)
Lemma F2R_exp_lt m1 e1 m2 e2 :
  2 ^ 52 <= m1 < 2 ^ 53 → 2 ^ 52 <= m2 < 2 ^ 53 → e1 < e2 →
  (F2R m1 e1 <= F2R m2 e2)%R.
Proof.
  intros H1 H2 He.
  apply Rle_trans with (F2R (2 ^ 53) e1); [apply F2R_mono; lia|].
  apply Rle_trans with (F2R (2 ^ 52) e2); [|apply F2R_mono; lia].
  unfold F2R. change (2 ^ 53) with (2 * 2 ^ 52). rewrite mult_IZR.
  pose proof (powerRZ2_le (e1 + 1) e2 ltac:(lia)) as Hle.
  rewrite powerRZ2_succ in Hle.
  assert (0 < IZR (2 ^ 52))%R by (apply IZR_lt; reflexivity).
  nra.
Qed.

Lemma min_lower m1 e1 m2 e2 :
  2 ^ 52 <= Z.pos m1 < 2 ^ 53 → 2 ^ 52 <= Z.pos m2 < 2 ^ 53 →
  let a := S754_finite false m1 e1 in
  let b := S754_finite false m2 e2 in
  (PyFloat.min a b = a
   ∧ (F2R (Z.pos m1) e1 <= F2R (Z.pos m2) e2)%R)
  ∨ (PyFloat.min a b = b
     ∧ (F2R (Z.pos m2) e2 <= F2R (Z.pos m1) e1)%R).
Proof.
  intros H1 H2 a b. unfold PyFloat.min, SFltb, a, b. cbn [SFcompare].
  destruct (Z.compare_spec e2 e1) as [->|Hlt|Hgt].
  - rewrite Pos.compare_cont_spec. cbn [Pos.switch_Eq].
    destruct (Pos.compare_spec m2 m1) as [->|Hm|Hm].
    + left. split; [done|]. apply Rle_refl.
    + right. split; [done|]. apply F2R_mono. lia.
    + left. split; [done|]. apply F2R_mono. lia.
  - right. split; [done|]. by apply F2R_exp_lt.
  - left. split; [done|]. apply F2R_exp_lt; [done..|]. lia.
Qed.

(** Rounding a positive number below [N + 1/2] to an integer. *)
Lemma round_upper m e N :
  (F2R (Z.pos m) e < IZR N + / 2)%R →
  ∃ r, round (S754_finite false m e) = Some r ∧ 0 <= r <= N.
Proof.
  intros Hv. unfold round, round_half_even. eexists. split; [reflexivity|].
  destruct (Z.leb_spec 0 e) as [He|He].
  - assert (Hr : (IZR (Z.pos m * 2 ^ e) < IZR (N + 1))%R).
    { rewrite mult_IZR, <- powerRZ2_Zpow, plus_IZR by done.
      unfold F2R in Hv. lra. }
    apply lt_IZR in Hr.
    pose proof (Z.pow_pos_nonneg 2 e ltac:(lia) He). nia.
  - set (d := 2 ^ (- e)).
    assert (Hd : 0 < d) by (apply Z.pow_pos_nonneg; lia).
    assert (Hz : 2 * Z.pos m < (2 * N + 1) * d).
    { apply lt_IZR. rewrite !mult_IZR, plus_IZR, mult_IZR.
      assert (Hone : (powerRZ 2 e * IZR d = 1)%R).
      { unfold d. rewrite <- powerRZ2_Zpow, <- powerRZ2_add by lia.
        replace (e + - e) with 0 by lia. reflexivity. }
      assert (HdR : (0 < IZR d)%R) by (apply IZR_lt; lia).
      unfold F2R in Hv.
      assert (Hm : (IZR (Z.pos m) = IZR (Z.pos m) * powerRZ 2 e * IZR d)%R).
      { rewrite Rmult_assoc, Hone. ring. }
      rewrite Hm. nra. }
    pose proof (Z.div_mod (Z.pos m) d ltac:(lia)) as Hdm.
    pose proof (Z.mod_pos_bound (Z.pos m) d Hd) as Hr.
    assert (Hq : 0 <= Z.pos m / d) by (apply Z.div_pos; lia).
    set (q := Z.pos m / d) in *. set (r := Z.pos m mod d) in *.
    destruct (Z.compare_spec (2 * r) d) as [Heq|Hlt|Hgt];
      [destruct (Z.even q)| |]; nia.
Qed.

End FloatOps2.

Section NewDims.
Import Spec PyFloat Resize.

(** Two roundings cannot lift a dimension by half a unit. *)
Lemma two_roundings_small N :
  dim N → (IZR N * (1 + u) * (1 + u) < IZR N + / 2)%R.
Proof.
  intros [Hlo Hhi].
  assert (HN : (IZR N <= 1125899906842623)%R) by (apply IZR_le; lia).
  assert (HN0 : (0 < IZR N)%R) by (apply IZR_lt; lia).
  pose proof u_pos as Hu.
  assert (Hu52 : (u * 4503599627370496 = 1)%R).
  { unfold u. change (2 ^ 52) with 4503599627370496.
    apply Rinv_l. lra. }
  assert (Hx : (IZR N * u <= / 4 - u)%R) by nra.
  assert (Hxu : (IZR N * u * u <= u / 4)%R) by nra.
  nra.
Qed.

Lemma rounded_upper n N ms es :
  dim n → dim N →
  2 ^ 52 <= Z.pos ms < 2 ^ 53 → -102 <= es <= -2 →
  (F2R (Z.pos ms) es <= IZR N / IZR n * (1 + u))%R →
  ∃ r, rounded n (S754_finite false ms es) = Some r ∧ 0 <= r <= N.
Proof.
  intros Hn HN Hms Hes Hscale.
  destruct (int_mul_upper n ms es Hn Hms Hes) as (m & e & Hmul & _ & Hval).
  unfold rounded. rewrite Hmul. apply round_upper.
  eapply Rle_lt_trans; [exact Hval|].
  eapply Rle_lt_trans; [|exact (two_roundings_small N HN)].
  pose proof u_pos as Hu.
  assert (HnR : (0 < IZR n)%R) by (apply IZR_lt; destruct Hn; lia).
  apply Rmult_le_compat_r; [lra|].
  replace (IZR N * (1 + u))%R
    with (IZR n * (IZR N / IZR n * (1 + u)))%R by (field; lra).
  apply Rmult_le_compat_l; [lra | exact Hscale].
Qed.

(** The content dimensions exist and fit the target. *)
Lemma new_dims_fit w h W H :
  dim w → dim h → dim W → dim H →
  ∃ new_w new_h,
    new_dims w h W H = Some (new_w, new_h)
    ∧ 1 <= new_w <= W ∧ 1 <= new_h <= H.
Proof.
  intros Hw Hh HW HH.
  destruct (int_true_div_upper W w HW Hw) as (m1 & e1 & Hsw & Hc1 & He1 & Hv1).
  destruct (int_true_div_upper H h HH Hh) as (m2 & e2 & Hsh & Hc2 & He2 & Hv2).
  unfold new_dims, scale_of. rewrite Hsw, Hsh.
  destruct (min_lower m1 e1 m2 e2 Hc1 Hc2) as [[-> Hle]|[-> Hle]].
  - destruct (rounded_upper w W m1 e1) as (rw & -> & Hrw); [done..|].
    destruct (rounded_upper h H m1 e1) as (rh & -> & Hrh); [done..| |].
    { eapply Rle_trans; [exact Hle | exact Hv2]. }
    exists (Z.max 1 rw), (Z.max 1 rh). destruct HW, HH. split; [done|]. lia.
  - destruct (rounded_upper w W m2 e2) as (rw & -> & Hrw); [done..| |].
    { eapply Rle_trans; [exact Hle | exact Hv1]. }
    destruct (rounded_upper h H m2 e2) as (rh & -> & Hrh); [done..|].
    exists (Z.max 1 rw), (Z.max 1 rh). destruct HW, HH. split; [done|]. lia.
Qed.

End NewDims.

Section LowerBounds.
Import Spec PyFloat.

(** The result of [binary_round_aux] is less than one unit in the last
    place below the next number after the one it was given. *)
Lemma binary_round_aux_lower mx ex lx :
  0 < mx → 53 <= Zdigits2 mx →
  -1074 <= Zdigits2 mx + ex - 53 → Zdigits2 mx + ex <= 1023 →
  ∃ m e,
    binary_round_aux 53 1024 false mx ex lx = S754_finite false m e
    ∧ (F2R (mx + 1) ex <= F2R (Z.pos m) e * (1 + u))%R.
Proof.
  intros Hm Hd Hlo Hhi.
  destruct (binary_round_aux_normal mx ex lx Hm Hd Hlo Hhi)
    as (m & e & Hres & Hcanon & Hcases & _).
  pose proof (truncated_bounds mx Hm Hd) as Hm1.
  set (n := Zdigits2 mx - 53) in *.
  set (m1 := mx / 2 ^ n) in *.
  exists m, e. split; [done|].
  assert (Hn : 0 <= n) by (unfold n; lia).
  assert (Hpow : 0 < 2 ^ n) by (apply Z.pow_pos_nonneg; lia).
  assert (Hnext : mx + 1 <= (m1 + 1) * 2 ^ n).
  { pose proof (Z.div_mod mx (2 ^ n) ltac:(lia)) as Hdm.
    pose proof (Z.mod_pos_bound mx (2 ^ n) Hpow) as Hr.
    fold m1 in Hdm. nia. }
  assert (H1 : (F2R (mx + 1) ex <= F2R (m1 + 1) (ex + n))%R).
  { rewrite <- F2R_shift by done. by apply F2R_mono. }
  assert (Hm1R : (IZR (2 ^ 52) <= IZR m1)%R) by (apply IZR_le; lia).
  pose proof (powerRZ2_pos (ex + n)) as Hp.
  pose proof u_pos as Hu.
  assert (Hulp : (powerRZ 2 (ex + n) <= F2R m1 (ex + n) * u)%R).
  { unfold F2R, u.
    assert (0 < IZR (2 ^ 52))%R by (apply IZR_lt; reflexivity).
    rewrite Rmult_assoc, (Rmult_comm (powerRZ 2 (ex + n))), <- Rmult_assoc.
    rewrite <- (Rmult_1_l (powerRZ 2 (ex + n))) at 1.
    apply Rmult_le_compat_r; [lra|].
    apply Rmult_le_reg_r with (IZR (2 ^ 52)); [done|].
    rewrite Rmult_assoc, Rinv_l by lra. lra. }
  assert (Hsplit : (F2R (m1 + 1) (ex + n)
                    = F2R m1 (ex + n) + powerRZ 2 (ex + n))%R).
  { unfold F2R. rewrite plus_IZR. ring. }
  assert (H2 : (F2R (mx + 1) ex <= F2R m1 (ex + n) * (1 + u))%R) by lra.
  assert (H3 : (F2R m1 (ex + n) <= F2R (Z.pos m) e)%R).
  { destruct Hcases as [[Hmm ->]|[[Hmm ->]|(Hc & Hmm & ->)]]; rewrite Hmm.
    - apply Rle_refl.
    - apply F2R_mono. lia.
    - replace (F2R (2 ^ 52) (ex + n + 1)) with (F2R (m1 + 1) (ex + n)).
      + apply F2R_mono. lia.
      + rewrite Hc. unfold F2R. rewrite powerRZ2_succ.
        change (2 ^ 53) with (2 * 2 ^ 52). rewrite mult_IZR. ring. }
  assert (0 <= F2R m1 (ex + n))%R by (apply F2R_nonneg; lia).
  nra.
Qed.

(** The quotient of two dimensions is less than one unit in the last
    place below the exact quotient. *)
Lemma int_true_div_lower a b :
  dim a → dim b →
  ∃ m e,
    int_true_div a b = Some (S754_finite false m e)
    ∧ (IZR a / IZR b <= F2R (Z.pos m) e * (1 + u))%R.
Proof.
  intros Ha Hb.
  pose proof (dim_digits a Ha) as Hda. pose proof (dim_digits b Hb) as Hdb.
  pose proof (SFdiv_core_ints a b Ha Hb) as Hcore.
  destruct Ha as [Ha1 Ha2], Hb as [Hb1 Hb2].
  pose proof (Zdigits2_bounds a ltac:(lia)) as [Halo Hahi].
  pose proof (Zdigits2_bounds b ltac:(lia)) as [Hblo Hbhi].
  unfold int_true_div.
  replace (b =? 0) with false by (symmetry; apply Z.eqb_neq; lia).
  destruct a as [|pa|pa]; [lia| |lia]. destruct b as [|pb|pb]; [lia| |lia].
  unfold PyFloat.prec, PyFloat.emax.
  cbn [of_int_exact SFdiv xorb]. rewrite Hcore. clear Hcore.
  set (a := Z.pos pa) in *. set (b := Z.pos pb) in *.
  set (s := 53 + Zdigits2 b - Zdigits2 a) in *.
  set (q := a * 2 ^ s / b).
  assert (Hs : 4 <= s <= 102) by (unfold s; lia).
  assert (Hpow : 0 < 2 ^ s) by (apply Z.pow_pos_nonneg; lia).
  assert (Hnum_lo : 2 ^ 52 * 2 ^ Zdigits2 b <= a * 2 ^ s).
  { rewrite <- Z.pow_add_r by lia.
    replace (52 + Zdigits2 b) with (Zdigits2 a - 1 + s) by (unfold s; lia).
    rewrite Z.pow_add_r by lia. apply Z.mul_le_mono_nonneg_r; lia. }
  assert (Hnum_hi : a * 2 ^ s < 2 ^ (Zdigits2 b - 1) * 2 ^ 54).
  { rewrite <- Z.pow_add_r by lia.
    replace (Zdigits2 b - 1 + 54) with (Zdigits2 a + s) by (unfold s; lia).
    rewrite Z.pow_add_r by lia. apply Z.mul_lt_mono_pos_r; lia. }
  assert (Hq : 2 ^ 52 <= q < 2 ^ 54).
  { unfold q. split.
    - apply Z.div_le_lower_bound; [lia|]. nia.
    - apply Z.div_lt_upper_bound; [lia|]. nia. }
  assert (Hdq : Zdigits2 q = 53 ∨ Zdigits2 q = 54).
  { destruct (Z.lt_ge_cases q (2 ^ 53)).
    - left. apply Zdigits2_unique; lia.
    - right. apply Zdigits2_unique; lia. }
  destruct (binary_round_aux_lower q (- s)
              (new_location b (a * 2 ^ s mod b)))
    as (m & e & Hres & Hval); [lia..|].
  rewrite Hres. cbn [is_finite].
  exists m, e. split; [done|].
  eapply Rle_trans; [|exact Hval].
  assert (HbR : (0 < IZR b)%R) by (apply IZR_lt; lia).
  apply Rmult_le_reg_r with (IZR b); [done|].
  unfold Rdiv. rewrite Rmult_assoc, Rinv_l, Rmult_1_r by lra.
  assert (H1 : (IZR (a * 2 ^ s) <= IZR (q + 1) * IZR b)%R).
  { rewrite <- mult_IZR. apply IZR_le.
    pose proof (Z.div_mod (a * 2 ^ s) b ltac:(lia)) as Hdm.
    pose proof (Z.mod_pos_bound (a * 2 ^ s) b ltac:(lia)) as Hr.
    fold q in Hdm. nia. }
  assert (H2 : (IZR (a * 2 ^ s) * powerRZ 2 (- s) = IZR a)%R).
  { change (F2R (a * 2 ^ s) (- s) = IZR a).
    rewrite F2R_shift by lia. replace (- s + s) with 0 by lia.
    apply F2R_int. }
  rewrite <- H2. unfold F2R.
  replace (IZR (q + 1) * powerRZ 2 (- s) * IZR b)%R
    with (IZR (q + 1) * IZR b * powerRZ 2 (- s))%R by ring.
  apply Rmult_le_compat_r; [apply Rlt_le, powerRZ2_pos | exact H1].
Qed.

(** The product of a dimension and a normal number is less than one unit
    in the last place below the exact product. *)
Lemma int_mul_lower n ms es :
  dim n → 2 ^ 52 <= Z.pos ms < 2 ^ 53 → -102 <= es <= -2 →
  ∃ m e,
    int_mul n (S754_finite false ms es) = Some (S754_finite false m e)
    ∧ (IZR n * F2R (Z.pos ms) es <= F2R (Z.pos m) e * (1 + u))%R.
Proof.
  intros Hn Hms Hes. pose proof (dim_digits n Hn) as Hd.
  destruct (of_int_value n Hn) as (mw & Hof & Hmw).
  pose proof (Zdigits2_bounds n ltac:(destruct Hn; lia)) as [Hlo Hhi].
  unfold int_mul. rewrite Hof.
  unfold PyFloat.prec, PyFloat.emax. cbn [SFmul xorb].
  set (d := Zdigits2 n) in *.
  assert (Hpow : 0 < 2 ^ (53 - d)) by (apply Z.pow_pos_nonneg; lia).
  assert (Hmwb : 2 ^ 52 <= Z.pos mw < 2 ^ 53).
  { rewrite Hmw. split.
    - rewrite (pow2_split 52 (53 - d)) by lia.
      replace (52 - (53 - d)) with (d - 1) by lia. nia.
    - rewrite (pow2_split 53 (53 - d)) by lia.
      replace (53 - (53 - d)) with d by lia. nia. }
  rewrite Pos2Z.inj_mul.
  set (P := Z.pos mw * Z.pos ms).
  assert (HP : 2 ^ 104 <= P < 2 ^ 106).
  { unfold P. change (2 ^ 104) with (2 ^ 52 * 2 ^ 52).
    change (2 ^ 106) with (2 ^ 53 * 2 ^ 53). nia. }
  assert (HdP : Zdigits2 P = 105 ∨ Zdigits2 P = 106).
  { destruct (Z.lt_ge_cases P (2 ^ 105)).
    - left. apply Zdigits2_unique; lia.
    - right. apply Zdigits2_unique; lia. }
  destruct (binary_round_aux_lower P (d - 53 + es) loc_Exact)
    as (m & e & Hres & Hval); [lia..|].
  rewrite Hres. exists m, e. split; [done|].
  eapply Rle_trans; [|exact Hval].
  apply Rle_trans with (F2R P (d - 53 + es)); [|apply F2R_mono; lia].
  apply Req_le. unfold P. rewrite F2R_mul. f_equal.
  rewrite Hmw, F2R_shift by lia.
  replace (d - 53 + (53 - d)) with 0 by lia. symmetry. apply F2R_int.
Qed.

(** Rounding a positive number above [N - 1/2] to an integer. *)
Lemma round_lower m e N :
  (IZR N - / 2 < F2R (Z.pos m) e)%R →
  ∃ r, round (S754_finite false m e) = Some r ∧ N <= r.
Proof.
  intros Hv. unfold round, round_half_even. eexists. split; [reflexivity|].
  destruct (Z.leb_spec 0 e) as [He|He].
  - assert (Hr : (IZR (N - 1) < IZR (Z.pos m * 2 ^ e))%R).
    { rewrite mult_IZR, <- powerRZ2_Zpow, minus_IZR by done.
      unfold F2R in Hv. lra. }
    apply lt_IZR in Hr. lia.
  - set (d := 2 ^ (- e)).
    assert (Hd : 0 < d) by (apply Z.pow_pos_nonneg; lia).
    assert (Hz : (2 * N - 1) * d < 2 * Z.pos m).
    { apply lt_IZR. rewrite !mult_IZR, minus_IZR, mult_IZR.
      assert (Hone : (powerRZ 2 e * IZR d = 1)%R).
      { unfold d. rewrite <- powerRZ2_Zpow, <- powerRZ2_add by lia.
        replace (e + - e) with 0 by lia. reflexivity. }
      assert (HdR : (0 < IZR d)%R) by (apply IZR_lt; lia).
      unfold F2R in Hv.
      assert (Hm : (IZR (Z.pos m) = IZR (Z.pos m) * powerRZ 2 e * IZR d)%R).
      { rewrite Rmult_assoc, Hone. ring. }
      rewrite Hm. nra. }
    pose proof (Z.div_mod (Z.pos m) d ltac:(lia)) as Hdm.
    pose proof (Z.mod_pos_bound (Z.pos m) d Hd) as Hr.
    set (q := Z.pos m / d) in *. set (r := Z.pos m mod d) in *.
    destruct (Z.compare_spec (2 * r) d) as [Heq|Hlt|Hgt];
      [destruct (Z.even q)| |]; nia.
Qed.

End LowerBounds.

Section ContentSpans.
Import Spec PyFloat Resize.

(** With a scale within one unit in the last place of [N / n] on both
    sides, [n] is scaled to [N] exactly. *)
Lemma rounded_exact n N ms es :
  dim n → dim N →
  2 ^ 52 <= Z.pos ms < 2 ^ 53 → -102 <= es <= -2 →
  (F2R (Z.pos ms) es <= IZR N / IZR n * (1 + u))%R →
  (IZR N / IZR n <= F2R (Z.pos ms) es * (1 + u))%R →
  rounded n (S754_finite false ms es) = Some N.
Proof.
  intros Hn HN Hms Hes Hup Hlow.
  destruct (rounded_upper n N ms es Hn HN Hms Hes Hup) as (r & Hr & Hr1).
  rewrite Hr. f_equal.
  destruct (int_mul_lower n ms es Hn Hms Hes) as (m & e & Hmul & Hval).
  unfold rounded in Hr. rewrite Hmul in Hr.
  destruct (round_lower m e N) as (r' & Hr' & Hr2).
  - pose proof (two_roundings_small N HN) as Hsmall.
    pose proof u_pos as Hu.
    assert (HnR : (0 < IZR n)%R) by (apply IZR_lt; destruct Hn; lia).
    assert (HNR : (0 < IZR N)%R) by (apply IZR_lt; destruct HN; lia).
    assert (H1 : (IZR N <= IZR n * F2R (Z.pos ms) es * (1 + u))%R).
    { replace (IZR N) with (IZR n * (IZR N / IZR n))%R by (field; lra).
      rewrite Rmult_assoc. apply Rmult_le_compat_l; [lra | exact Hlow]. }
    assert (H2 : (IZR N <= F2R (Z.pos m) e * (1 + u) * (1 + u))%R).
    { eapply Rle_trans; [exact H1|].
      apply Rmult_le_compat_r; [lra | exact Hval]. }
    destruct (Rlt_le_dec (IZR N - / 2) (F2R (Z.pos m) e)) as [|Hle];
      [done|exfalso].
    assert (H3 : (F2R (Z.pos m) e * (1 + u) * (1 + u)
                  <= (IZR N - / 2) * (1 + u) * (1 + u))%R).
    { apply Rmult_le_compat_r; [lra|].
      apply Rmult_le_compat_r; [lra | exact Hle]. }
    nra.
  - rewrite Hr' in Hr. injection Hr as <-. lia.
Qed.

(** The quotient of two dimensions, bounded on both sides. *)
Lemma int_true_div_bounds a b :
  dim a → dim b →
  ∃ m e,
    int_true_div a b = Some (S754_finite false m e)
    ∧ 2 ^ 52 <= Z.pos m < 2 ^ 53
    ∧ -102 <= e <= -2
    ∧ (F2R (Z.pos m) e <= IZR a / IZR b * (1 + u))%R
    ∧ (IZR a / IZR b <= F2R (Z.pos m) e * (1 + u))%R.
Proof.
  intros Ha Hb.
  destruct (int_true_div_upper a b Ha Hb) as (m & e & Hq & Hc & He & Hup).
  destruct (int_true_div_lower a b Ha Hb) as (m' & e' & Hq' & Hlow).
  rewrite Hq in Hq'. injection Hq' as <- <-.
  exists m, e. done.
Qed.

End ContentSpans.

Section Nearness.
Import Spec PyFloat Resize.





End Nearness.

(* ===================================================================== *)
(** * Properties of the resize *)
(* ===================================================================== *)

Section ResizeFacts.
Import Spec Resize.
Context {pixel : Type} (of_bands : list Z → pixel) (fits : Z * Z → bool).
Context (kernel : resample → image pixel → Z * Z → option (Z → Z → pixel)).

Lemma in_box_spec left top (im : image pixel) x y :
  in_box pixel left top im x y = true ↔
  left <= x < left + fst (size pixel im)
  ∧ top <= y < top + snd (size pixel im).
Proof.
  unfold in_box. rewrite !andb_true_iff, !Z.leb_le, !Z.ltb_lt. lia.
Qed.

(** [new_dims] spelled out. *)
Lemma new_dims_some w h W H new_w new_h :
  new_dims w h W H = Some (new_w, new_h) →
  ∃ sw sh rw rh,
    PyFloat.int_true_div W w = Some sw
    ∧ PyFloat.int_true_div H h = Some sh
    ∧ rounded w (PyFloat.min sw sh) = Some rw
    ∧ rounded h (PyFloat.min sw sh) = Some rh
    ∧ new_w = Z.max 1 rw ∧ new_h = Z.max 1 rh.
Proof.
  unfold new_dims, scale_of.
  destruct (PyFloat.int_true_div W w) as [sw|]; [|done].
  destruct (PyFloat.int_true_div H h) as [sh|]; [|done].
  destruct (rounded w _) as [rw|] eqn:Erw; [|done].
  destruct (rounded h _) as [rh|] eqn:Erh; [|done].
  intros [= <- <-]. exists sw, sh, rw, rh. repeat split; done.
Qed.




End ResizeFacts.




(** C10 (as amended).  For image dimensions and targets from 1 up to 2^50
    the content dimensions are computed and satisfy [new_w <= W] and
    [new_h <= H]; both paste offsets are non-negative and the box of the
    resampled content lies inside the canvas. *)
Theorem content_fits_canvas (w h W H : Z) :
  Spec.dim w → Spec.dim h → Spec.dim W → Spec.dim H →
  ∃ new_w new_h,
    Resize.new_dims w h W H = Some (new_w, new_h)
    ∧ 1 <= new_w <= W ∧ 1 <= new_h <= H
    ∧ let left := (W - new_w) / 2 in
      let top := (H - new_h) / 2 in
      0 <= left ∧ 0 <= top
      ∧ ∀ (pixel : Type) (resized : Resize.image pixel) x y,
          Resize.size pixel resized = (new_w, new_h) →
          Resize.in_box pixel left top resized x y = true →
          0 <= x < W ∧ 0 <= y < H.
Proof.
  intros Hw Hh HW HH.
  destruct (new_dims_fit w h W H Hw Hh HW HH) as (nw & nh & Hd & Hnw & Hnh).
  exists nw, nh. split; [done|]. split; [done|]. split; [done|].
  cbn zeta.
  assert (Hl : 0 <= (W - nw) / 2) by (apply Z.div_pos; lia).
  assert (Ht : 0 <= (H - nh) / 2) by (apply Z.div_pos; lia).
  assert (Hl2 : 2 * ((W - nw) / 2) <= W - nw)
    by (apply Z.mul_div_le; lia).
  assert (Ht2 : 2 * ((H - nh) / 2) <= H - nh)
    by (apply Z.mul_div_le; lia).
  split; [done|]. split; [done|].
  intros pixel resized x y Hsize Hbox.
  apply in_box_spec in Hbox. rewrite Hsize in Hbox. cbn [fst snd] in Hbox.
  lia.
Qed.

Lemma content_fits_canvas_witness :
  ∃ new_w new_h,
    Resize.new_dims 512 384 256 256 = Some (new_w, new_h)
    ∧ 1 <= new_w <= 256 ∧ 1 <= new_h <= 256.
Proof.
  destruct (content_fits_canvas 512 384 256 256)
    as (nw & nh & Hd & Hnw & Hnh & _); try (unfold Spec.dim; lia).
  exists nw, nh. auto.
Defined.

(** C10 as stated fails for a target beyond the integers a [float] holds
    exactly: for a 1 x 1 image and the target 2^53 + 3 the quotient rounds
    up to 2^53 + 4, so the content is wider than the canvas and the offset
    is negative. *)
Lemma content_exceeds_huge_target :
  let W := 2 ^ 53 + 3 in
  ∃ new_w new_h,
    Resize.new_dims 1 1 W W = Some (new_w, new_h)
    ∧ ¬ new_w <= W ∧ (W - new_w) / 2 < 0.
Proof.
  intros W. exists (2 ^ 53 + 4), (2 ^ 53 + 4).
  split; [vm_compute; reflexivity|]. unfold W. split; [lia|].
  vm_compute. reflexivity.
Qed.

(* ===================================================================== *)
(** * Further properties of the binarizer and the prune pass *)
(* ===================================================================== *)

Section BinarizerMore.
Import Binarizer Vocabulary.

Lemma Forall_concat {A} (P : A → Prop) (ls : list (list A)) :
  Forall (Forall P) ls ↔ ∀ x, x ∈ concat ls → P x.
Proof.
  split.
  - intros H x Hx. apply list_elem_of_In, in_concat in Hx as (l & Hl & Hx).
    apply list_elem_of_In in Hl, Hx.
    rewrite Forall_forall in H. specialize (H l Hl).
    rewrite Forall_forall in H. by apply H.
  - intros H. apply Forall_forall. intros l Hl. apply Forall_forall.
    intros x Hx. apply H, list_elem_of_In, in_concat. exists l.
    split; by apply list_elem_of_In.
Qed.

(** Whatever the tier, [binarize] is a pointwise map that sends 0 to 0
    and every other [uint8] sample to 255. *)
Lemma binarize_pointwise arr :
  is_uint8 arr →
  ∃ f : Z → Z,
    binarize arr = map (map f) arr
    ∧ ∀ v, v ∈ concat arr → f v = (if 0 <? v then 255 else 0).
Proof.
  intros Hu. rewrite (Forall_concat (fun v => 0 <= v < 256)) in Hu.
  destruct (bool_decide (set_of (np_unique arr) ⊆ {[0; 255]})) eqn:E1.
  - apply bool_decide_eq_true in E1. rewrite unique_subset_pair in E1.
    exists (fun v => v). split.
    + rewrite binarize_tier1 by done. symmetry. by apply map_map_fixed.
    + intros v Hv. destruct (E1 v Hv) as [-> | ->]; reflexivity.
  - apply bool_decide_eq_false in E1. rewrite unique_subset_pair in E1.
    destruct (bool_decide (set_of (np_unique arr) ⊆ {[0; 1]})) eqn:E2.
    + apply bool_decide_eq_true in E2. rewrite unique_subset_pair in E2.
      eexists. split; [by apply binarize_tier2|].
      intros v Hv. destruct (E2 v Hv) as [-> | ->]; reflexivity.
    + apply bool_decide_eq_false in E2. rewrite unique_subset_pair in E2.
      eexists. split; [by apply binarize_tier3|]. done.
Qed.

End BinarizerMore.

(** X1.  Whatever buffer it is given, [binarize_array] returns samples in
    the two-level alphabet only: each is 0 or 255. *)
Theorem binarize_alphabet (arr : Binarizer.buffer) :
  Forall (Forall (fun o => o = 0 ∨ o = 255)) (Binarizer.binarize arr).
Proof.
  apply Forall_concat. intros o Ho.
  destruct (binarize_cases arr) as [[E H] | (f & E & H)]; rewrite E in Ho.
  - by apply H.
  - apply elem_of_concat_map_map in Ho as (v & Hv & ->). by apply H.
Qed.

(** X2.  On a [uint8] buffer no tier moves a sample across the
    background/foreground line: the output sample is 0 exactly where the
    input sample is 0, and 255 exactly where it is positive. *)
Theorem binarize_keeps_background (arr : Binarizer.buffer) (i j : nat) (v : Z) :
  Vocabulary.is_uint8 arr →
  Binarizer.sample_at arr i j = Some v →
  ∃ o, Binarizer.sample_at (Binarizer.binarize arr) i j = Some o
       ∧ (o = 0 ↔ v = 0) ∧ (o = 255 ↔ 0 < v).
Proof.
  intros Hu Hv. destruct (binarize_pointwise arr Hu) as (f & -> & Hf).
  rewrite sample_at_map_map, Hv. simpl. eexists. split; [reflexivity|].
  pose proof (sample_at_elem _ _ _ _ Hv) as Hin.
  rewrite (Forall_concat (fun v => 0 <= v < 256)) in Hu.
  specialize (Hu v Hin). rewrite (Hf v Hin).
  destruct (Z.ltb_spec 0 v); split; split; intros; lia.
Qed.

Lemma binarize_keeps_background_witness :
  ∃ o, Binarizer.sample_at (Binarizer.binarize [[0; 1]; [1; 0]]) 0 1 = Some o
       ∧ (o = 0 ↔ 1 = 0) ∧ (o = 255 ↔ 0 < 1).
Proof.
  apply (binarize_keeps_background [[0; 1]; [1; 0]] 0 1 1).
  - repeat constructor; lia.
  - reflexivity.
Defined.

Section PruneMore.
Import Fs Spec Prune Vocabulary.

Implicit Types (s : fs) (p q : path) (ps : list path).

Lemma elem_of_without ps s (e : path * node) :
  e ∈ without ps s ↔ e ∈ s ∧ e.1 ∉ ps.
Proof.
  unfold without. rewrite elem_of_filter_bool, bool_decide_eq_true. done.
Qed.

(** In a well-formed store an entry is what [lookup] finds. *)
Lemma wf_lookup s p n : wf s → (p, n) ∈ s → lookup s p = Some n.
Proof.
  unfold wf, lookup. induction s as [|[q m] s IH]; intros Hwf Hin.
  - by inversion Hin.
  - simpl in *. apply NoDup_cons in Hwf as [Hq Hwf].
    destruct (path_eqb q p) eqn:E.
    + apply path_eqb_true in E. subst q.
      apply elem_of_cons in Hin as [[= <-]|Hin]; [done|].
      exfalso. apply Hq. apply list_elem_of_In, in_map_iff.
      exists (p, n). split; [done|]. by apply list_elem_of_In.
    + apply path_eqb_false in E.
      apply elem_of_cons in Hin as [[= -> ->]|Hin]; [done|]. by apply IH.
Qed.

Lemma candidates_below s img mask p :
  p ∈ (candidates s img mask).1 ++ (candidates s img mask).2 →
  below img p = true ∨ below mask p = true.
Proof.
  unfold candidates, compute_bases. cbn [fst snd].
  rewrite elem_of_app, elem_of_filter_bool, elem_of_collect_unpaired_masks.
  intros [[H _]|[H|[H _]]].
  - left. by apply elem_of_iter_media_files in H as (_ & H & _).
  - by inversion H.
  - right. by apply elem_of_iter_media_files in H as (_ & H & _).
Qed.

(** The loop collecting the unpaired masks is a filter. *)
Lemma collect_unpaired_masks_filter I ms acc :
  collect_unpaired_masks I ms acc
  = acc ++ List.filter (unpaired_mask I) ms.
Proof.
  revert acc. induction ms as [|m ms IH]; intros acc; simpl.
  - by rewrite app_nil_r.
  - unfold unpaired_mask at 1. fold MASK_SUFFIX.
    destruct (PyStr.endswith (stem m) MASK_SUFFIX); simpl.
    + destruct (bool_decide (strip_mask (stem m) ∉ I)); rewrite IH.
      * by rewrite <- app_assoc.
      * done.
    + rewrite IH. by rewrite <- app_assoc.
Qed.

Lemma rglob_NoDup s d : wf s → NoDup (rglob s d).
Proof.
  unfold wf, rglob. intros H.
  apply NoDup_ListNoDup, List.NoDup_filter, NoDup_ListNoDup, H.
Qed.

Lemma iter_media_files_NoDup s d E : wf s → NoDup (iter_media_files s d E).
Proof.
  intros H. unfold iter_media_files.
  apply NoDup_ListNoDup, List.NoDup_filter, NoDup_ListNoDup.
  by apply rglob_NoDup.
Qed.

Lemma filter_NoDup_bool {A} (f : A → bool) (l : list A) :
  NoDup l → NoDup (List.filter f l).
Proof.
  intros H. by apply NoDup_ListNoDup, List.NoDup_filter, NoDup_ListNoDup.
Qed.

Lemma candidates_NoDup s img mask :
  wf s → apart img mask →
  NoDup ((candidates s img mask).1 ++ (candidates s img mask).2).
Proof.
  intros Hwf Hap. unfold candidates, compute_bases. cbn [fst snd].
  rewrite collect_unpaired_masks_filter, app_nil_l.
  apply NoDup_app. split; [|split].
  - apply filter_NoDup_bool. by apply iter_media_files_NoDup.
  - intros p [Hp _]%elem_of_filter_bool [Hq _]%elem_of_filter_bool.
    apply elem_of_iter_media_files in Hp as (_ & B1 & _).
    apply elem_of_iter_media_files in Hq as (_ & B2 & _).
    eapply apart_below; eauto.
  - apply filter_NoDup_bool. by apply iter_media_files_NoDup.
Qed.

(** Deleting distinct files: each [unlink] succeeds. *)
Lemma delete_all_distinct ps s0 :
  NoDup ps → (∀ p, p ∈ ps → is_file s0 p = true) →
  ∀ done n out,
    (∀ p, p ∈ ps → p ∉ done) →
    delete_all ps (without done s0) n out
    = (without (done ++ ps) s0, (n + length ps)%nat, out).
Proof.
  induction ps as [|p ps IH]; intros Hnd Hf done n out Hfresh; simpl.
  - by rewrite app_nil_r, Nat.add_0_r.
  - apply NoDup_cons in Hnd as [Hp Hnd].
    unfold unlink. rewrite is_file_without, Hf by left. simpl.
    rewrite (bool_decide_eq_true_2 (p ∉ done)) by (apply Hfresh; left).
    rewrite without_snoc, IH; [| done | intros; apply Hf; by right |].
    + rewrite <- app_assoc. simpl. do 2 f_equal. lia.
    + intros q Hq [Hd| ->%list_elem_of_singleton]%elem_of_app; [|done].
      apply (Hfresh q); [by right | done].
Qed.

End PruneMore.

(** X3.  The prune pass only ever removes entries.  On a store that names
    each path once, whatever the flag, nothing is created or rewritten,
    no directory is removed, and no entry outside the two directories is
    touched. *)
Theorem prune_touches_only_media s img mask dry s' out :
  Fs.wf s →
  Prune.main s img mask dry = Some (s', out) →
  (∀ e, e ∈ s' → e ∈ s)
  ∧ ∀ p n, (p, n) ∈ s →
           n = Fs.Dir ∨ (Fs.below img p = false ∧ Fs.below mask p = false) →
           (p, n) ∈ s'.
Proof.
  intros Hwf Hrun.
  destruct (main_some_dirs _ _ _ _ _ Hrun) as [Hdi Hdm].
  destruct dry.
  - destruct (main_dry_run s img mask Hdi Hdm) as (out' & Hr & _).
    rewrite Hrun in Hr. injection Hr as -> _. auto.
  - destruct (main_run s img mask Hdi Hdm) as (out' & Hr & _).
    rewrite Hrun in Hr. injection Hr as -> _. split.
    + intros e He. by apply elem_of_without in He as [He _].
    + intros p n Hin Hkeep. apply elem_of_without. split; [done|].
      cbn [fst]. intros Hc.
      pose proof (candidates_are_files _ _ _ _ Hc) as Hfile.
      pose proof (candidates_below _ _ _ _ Hc) as Hbelow.
      unfold Fs.is_file in Hfile. rewrite (wf_lookup s p n Hwf Hin) in Hfile.
      destruct Hkeep as [-> | [H1 H2]]; [done|].
      destruct Hbelow; congruence.
Qed.

Lemma prune_touches_only_media_witness :
  (["img"%string], Fs.Dir) ∈ Spec.scenario_store_pruned.
Proof.
  refine (proj2 (prune_touches_only_media Spec.scenario_store
                   ["img"%string] ["mask"%string] false
                   Spec.scenario_store_pruned _ _ _)
                ["img"%string] Fs.Dir _ _).
  - unfold Fs.wf. apply (bool_decide_eq_true_1 _). vm_compute. reflexivity.
  - vm_compute. reflexivity.
  - vm_compute. repeat constructor.
  - left. reflexivity.
Defined.

(** X4.  On a store that names each path once and directories that are
    apart, every deletion of a run without the preview flag succeeds: the
    run prints no warning and reports as deleted the number of unpaired
    images plus the number of unpaired masks. *)
Theorem prune_deletes_every_candidate s img mask :
  Fs.wf s → Spec.apart img mask →
  Fs.is_dir s img = true → Fs.is_dir s mask = true →
  let ui := (Prune.candidates s img mask).1 in
  let um := (Prune.candidates s img mask).2 in
  ∃ images masks,
    Prune.main s img mask false
    = Some (Spec.without (ui ++ um) s,
            ([Prune.Counts images masks (length ui) (length um)]
             ++ Prune.when_nonempty ui [Prune.ImagesToDelete ui]
             ++ Prune.when_nonempty um [Prune.MasksToDelete um])
            ++ [Prune.Summary (length ui + length um)]).
Proof.
  intros Hwf Hap Hdi Hdm ui um.
  pose proof (candidates_are_files s img mask) as Hfiles.
  pose proof (candidates_NoDup s img mask Hwf Hap) as Hnd.
  subst ui um. unfold Prune.main, Prune.candidates in *.
  rewrite Hdi, Hdm. cbn [negb orb].
  destruct (Prune.compute_bases s img mask) as [[[I M] images] masks].
  cbn [fst snd] in *.
  set (ui := List.filter _ images) in *.
  set (um := Prune.collect_unpaired_masks I masks []) in *.
  set (out := [Prune.Counts _ _ _ _] ++ _).
  pose proof (delete_all_distinct (ui ++ um) s Hnd Hfiles [] O out) as Hdel.
  rewrite without_nil in Hdel. rewrite Hdel by (intros; apply not_elem_of_nil).
  rewrite length_app. eauto.
Qed.

Lemma prune_deletes_every_candidate_witness :
  ∃ images masks,
    Prune.main Spec.scenario_store ["img"%string] ["mask"%string] false
    = Some (Spec.without
              ((Prune.candidates Spec.scenario_store
                  ["img"%string] ["mask"%string]).1
               ++ (Prune.candidates Spec.scenario_store
                     ["img"%string] ["mask"%string]).2)
              Spec.scenario_store,
            ([Prune.Counts images masks
                (length (Prune.candidates Spec.scenario_store
                           ["img"%string] ["mask"%string]).1)
                (length (Prune.candidates Spec.scenario_store
                           ["img"%string] ["mask"%string]).2)]
             ++ Prune.when_nonempty
                  (Prune.candidates Spec.scenario_store
                     ["img"%string] ["mask"%string]).1
                  [Prune.ImagesToDelete
                     (Prune.candidates Spec.scenario_store
                        ["img"%string] ["mask"%string]).1]
             ++ Prune.when_nonempty
                  (Prune.candidates Spec.scenario_store
                     ["img"%string] ["mask"%string]).2
                  [Prune.MasksToDelete
                     (Prune.candidates Spec.scenario_store
                        ["img"%string] ["mask"%string]).2])
            ++ [Prune.Summary
                  (length (Prune.candidates Spec.scenario_store
                             ["img"%string] ["mask"%string]).1
                   + length (Prune.candidates Spec.scenario_store
                               ["img"%string] ["mask"%string]).2)]).
Proof.
  apply (prune_deletes_every_candidate Spec.scenario_store
           ["img"%string] ["mask"%string]).
  - unfold Fs.wf. apply (bool_decide_eq_true_1 _). vm_compute. reflexivity.
  - split; intros [k Hk]; discriminate Hk.
  - reflexivity.
  - reflexivity.
Defined.

Section PruneTwice.
Import Fs Spec Prune Vocabulary.

Lemma is_dir_not_candidate s img mask d :
  is_dir s d = true →
  d ∉ (candidates s img mask).1 ++ (candidates s img mask).2.
Proof.
  intros Hd Hc. apply candidates_are_files in Hc.
  unfold is_dir, is_file in *. destruct (lookup s d) as [[]|]; done.
Qed.

(** After a run on directories that are apart no candidate is left. *)
Lemma pruned_no_candidates s img mask :
  apart img mask →
  candidates
    (without ((candidates s img mask).1 ++ (candidates s img mask).2) s)
    img mask = ([], []).
Proof.
  intros Hap.
  destruct (compute_bases s img mask) as [[[I M] images] masks] eqn:Hcb.
  destruct (pruned_bases s img mask I M images masks Hap Hcb)
    as (images' & masks' & Hcb').
  set (del := (candidates s img mask).1 ++ (candidates s img mask).2) in *.
  assert (Hdel : ∀ p, p ∈ del ↔
            (p ∈ images ∧ stem p ∉ M)
            ∨ (p ∈ masks ∧ unpaired_mask I p = true)).
  { intros p. unfold del, candidates. rewrite Hcb. cbn [fst snd].
    rewrite collect_unpaired_masks_filter, app_nil_l, elem_of_app,
      !elem_of_filter_bool, bool_decide_eq_true. done. }
  assert (Him : images' = List.filter (fun q => bool_decide (q ∉ del)) images).
  { unfold compute_bases in Hcb, Hcb'. injection Hcb as _ _ Hi _.
    injection Hcb' as _ _ Hi' _.
    by rewrite iter_media_files_without, Hi in Hi'. }
  assert (Hms : masks' = List.filter (fun q => bool_decide (q ∉ del)) masks).
  { unfold compute_bases in Hcb, Hcb'. injection Hcb as _ _ _ Hm.
    injection Hcb' as _ _ _ Hm'.
    by rewrite iter_media_files_without, Hm in Hm'. }
  assert (HinI : ∀ p, p ∈ images → stem p ∈ I).
  { intros p Hp. unfold compute_bases in Hcb. injection Hcb as HI _ Hi _.
    rewrite <- HI, Hi, elem_of_list_to_set.
    apply list_elem_of_In, in_map. by apply list_elem_of_In. }
  assert (HinM : ∀ m, m ∈ masks →
            PyStr.endswith (stem m) MASK_SUFFIX = true →
            strip_mask (stem m) ∈ M).
  { intros m Hm He. unfold compute_bases in Hcb. injection Hcb as _ HM _ Hmk.
    rewrite <- HM, Hmk, elem_of_add_mask_bases. right. by exists m. }
  unfold candidates. rewrite Hcb'. cbn [fst snd].
  rewrite collect_unpaired_masks_filter, app_nil_l. f_equal.
  - apply elem_of_nil_inv. intros p [Hp Hun]%elem_of_filter_bool.
    apply bool_decide_eq_true in Hun. apply Hun.
    rewrite Him in Hp. apply elem_of_filter_bool in Hp as [Hp Hkeep].
    apply bool_decide_eq_true in Hkeep.
    apply elem_of_intersection. split; [by apply HinI|].
    destruct (decide (stem p ∈ M)) as [|Hn]; [done|].
    exfalso. apply Hkeep, Hdel. left. done.
  - apply elem_of_nil_inv. intros m [Hm Hun]%elem_of_filter_bool.
    rewrite Hms in Hm. apply elem_of_filter_bool in Hm as [Hm Hkeep].
    apply bool_decide_eq_true in Hkeep.
    destruct (unpaired_mask I m) eqn:HunI.
    { apply Hkeep, Hdel. right. done. }
    unfold unpaired_mask in Hun, HunI.
    apply orb_false_iff in HunI as [He HI].
    apply negb_false_iff in He. apply bool_decide_eq_false in HI.
    rewrite He in Hun. cbn [negb orb] in Hun.
    apply bool_decide_eq_true in Hun. apply Hun.
    apply elem_of_intersection. split; [|by apply HinM].
    destruct (decide (strip_mask (stem m) ∈ I)); [done|]. by exfalso; apply HI.
Qed.


End PruneTwice.

(** X5.  Pruning is idempotent on directories that are apart: after a run
    without the preview flag, a second run finds no unpaired image and no
    unpaired mask, deletes nothing and leaves the store as it is. *)
Theorem prune_twice s img mask s' out :
  Spec.apart img mask →
  Prune.main s img mask false = Some (s', out) →
  Prune.candidates s' img mask = ([], [])
  ∧ ∃ images masks,
      Prune.main s' img mask false
      = Some (s', [Prune.Counts images masks 0 0; Prune.Summary 0]).
Proof.
  intros Hap Hrun.
  destruct (main_some_dirs _ _ _ _ _ Hrun) as [Hdi Hdm].
  destruct (main_run s img mask Hdi Hdm) as (out' & Hr & _).
  rewrite Hrun in Hr. injection Hr as -> _.
  pose proof (pruned_no_candidates s img mask Hap) as Hnone.
  split; [exact Hnone|].
  set (s' := Spec.without _ s) in *.
  assert (Hdi' : Fs.is_dir s' img = true).
  { unfold s'. rewrite is_dir_without, Hdi. simpl.
    apply bool_decide_eq_true. by apply is_dir_not_candidate. }
  assert (Hdm' : Fs.is_dir s' mask = true).
  { unfold s'. rewrite is_dir_without, Hdm. simpl.
    apply bool_decide_eq_true. by apply is_dir_not_candidate. }
  unfold Prune.main, Prune.candidates in *. rewrite Hdi', Hdm'.
  cbn [negb orb].
  destruct (Prune.compute_bases s' img mask) as [[[I' M'] images'] masks'].
  injection Hnone as -> ->. simpl. eauto.
Qed.

Lemma prune_twice_witness :
  Prune.candidates Spec.scenario_store_pruned ["img"%string] ["mask"%string]
  = ([], []).
Proof.
  refine (proj1 (prune_twice Spec.scenario_store ["img"%string]
                   ["mask"%string] Spec.scenario_store_pruned _ _ _)).
  - split; intros [k Hk]; discriminate Hk.
  - vm_compute. reflexivity.
Defined.

(* ===================================================================== *)
(** * Writes to a store with hard links *)
(* ===================================================================== *)

Section StoreWrites.
Import Fs Gather.

Implicit Types (s : fs) (p q dst : path) (n : node).

Lemma path_eqb_refl p : path_eqb p p = true.
Proof. by apply path_eqb_true. Qed.

Lemma lookup_filter_ne s p q :
  p ≠ q →
  lookup (List.filter (fun e => negb (path_eqb e.1 q)) s) p = lookup s p.
Proof.
  intros Hne. unfold lookup. induction s as [|[r n] s IH]; [done|]. simpl.
  destruct (path_eqb r q) eqn:E1; simpl.
  - apply path_eqb_true in E1. subst r.
    replace (path_eqb q p) with false
      by (symmetry; apply path_eqb_false; congruence).
    exact IH.
  - destruct (path_eqb r p); [done | exact IH].
Qed.

Lemma lookup_filter_eq s q :
  lookup (List.filter (fun e => negb (path_eqb e.1 q)) s) q = None.
Proof.
  unfold lookup. induction s as [|[r n] s IH]; [done|]. simpl.
  destruct (path_eqb r q) eqn:E1; simpl; [exact IH|]. by rewrite E1.
Qed.

Lemma lookup_snoc_new s p n q :
  lookup (s ++ [(p, n)]) q
  = match lookup s q with
    | Some m => Some m
    | None => if path_eqb p q then Some n else None
    end.
Proof.
  unfold lookup. induction s as [|[r m] s IH]; simpl.
  - by destruct (path_eqb p q).
  - destruct (path_eqb r q); [done | exact IH].
Qed.

(** Rewriting the nodes of a store, name by name. *)
Lemma lookup_map_nodes (g : path → node → node) s q :
  lookup (map (fun e => (e.1, g e.1 e.2)) s) q = g q <$> lookup s q.
Proof.
  unfold lookup. induction s as [|[r m] s IH]; [done|]. simpl.
  destruct (path_eqb r q) eqn:E; [|exact IH].
  apply path_eqb_true in E. by subst r.
Qed.

Lemma map_fst_map_nodes (g : path → node → node) s :
  map fst (map (fun e => (e.1, g e.1 e.2)) s) = map fst s.
Proof. rewrite map_map. by apply map_ext. Qed.

(** [write_file] as a rewriting of nodes, or as one more entry. *)
Lemma write_file_shared s dst data ino d0 :
  lookup s dst = Some (Shared ino d0) →
  write_file s dst data
  = map (fun e => (e.1, match e.2 with
                        | Shared j _ =>
                            if Nat.eqb j ino then Shared ino data else e.2
                        | _ => e.2
                        end)) s.
Proof.
  intros H. unfold write_file. rewrite H. apply map_ext.
  intros [r [|d|j d]]; simpl; try done. by destruct (Nat.eqb j ino).
Qed.

Lemma write_file_single s dst data n :
  lookup s dst = Some n → (∀ ino d0, n ≠ Shared ino d0) →
  write_file s dst data
  = map (fun e => (e.1, if path_eqb e.1 dst then File data else e.2)) s.
Proof.
  intros H Hn. unfold write_file. rewrite H.
  assert (Hmap : map (fun e => if path_eqb (fst e) dst
                               then (dst, File data) else e) s
                 = map (fun e => (e.1, if path_eqb e.1 dst
                                       then File data else e.2)) s).
  { apply map_ext. intros [r m]. simpl.
    destruct (path_eqb r dst) eqn:E; [|done].
    apply path_eqb_true in E. by subst r. }
  destruct n as [|d|j d]; [done | done |]. by destruct (Hn j d).
Qed.

(** What a path names after a write at [dst]. *)
Lemma lookup_write_file s dst data q :
  lookup (write_file s dst data) q
  = match lookup s dst with
    | Some (Shared ino _) =>
        match lookup s q with
        | Some (Shared j d) =>
            Some (if Nat.eqb j ino then Shared ino data else Shared j d)
        | o => o
        end
    | Some _ => if path_eqb q dst then Some (File data) else lookup s q
    | None =>
        match lookup s q with
        | Some n => Some n
        | None => if path_eqb dst q then Some (File data) else None
        end
    end.
Proof.
  destruct (lookup s dst) as [n|] eqn:Hd.
  - destruct n as [|d|ino d].
    + rewrite (write_file_single s dst data Dir Hd) by done.
      rewrite (lookup_map_nodes
                 (fun r n => if path_eqb r dst then File data else n)).
      destruct (path_eqb q dst) eqn:E.
      * apply path_eqb_true in E. subst q. by rewrite Hd.
      * by destruct (lookup s q).
    + rewrite (write_file_single s dst data (File d) Hd) by done.
      rewrite (lookup_map_nodes
                 (fun r n => if path_eqb r dst then File data else n)).
      destruct (path_eqb q dst) eqn:E.
      * apply path_eqb_true in E. subst q. by rewrite Hd.
      * by destruct (lookup s q).
    + rewrite (write_file_shared s dst data ino d Hd).
      rewrite (lookup_map_nodes
                 (fun _ n => match n with
                             | Shared j _ =>
                                 if Nat.eqb j ino then Shared ino data
                                 else n
                             | _ => n
                             end)).
      destruct (lookup s q) as [[|d'|j d']|]; try done.
  - unfold write_file. rewrite Hd. apply lookup_snoc_new.
Qed.

(** After a write the destination holds the bytes written. *)
Lemma read_write_file_eq s dst data :
  read (write_file s dst data) dst = Some data.
Proof.
  unfold read. rewrite lookup_write_file.
  destruct (lookup s dst) as [[|d|ino d]|] eqn:Hd; rewrite ?path_eqb_refl;
    try done.
  by rewrite Nat.eqb_refl.
Qed.

(** A path that is neither the destination nor another name of its file
    is as it was. *)
Lemma lookup_write_file_other s dst data q :
  q ≠ dst → samefile s dst q = false →
  lookup (write_file s dst data) q = lookup s q.
Proof.
  intros Hne Hsame. rewrite lookup_write_file.
  unfold samefile, ino_of in Hsame.
  assert (Hqd : path_eqb q dst = false) by by apply path_eqb_false.
  assert (Hdq : path_eqb dst q = false)
    by (apply path_eqb_false; congruence).
  rewrite Hdq in Hsame.
  destruct (lookup s dst) as [[|d|ino d]|];
    rewrite ?Hqd, ?Hdq; try done.
  - destruct (lookup s q) as [[|d'|j d']|]; try done.
    simpl in Hsame. rewrite Nat.eqb_sym in Hsame. by rewrite Hsame.
  - by destruct (lookup s q).
Qed.

(** Every path holds what it held or the bytes written. *)
Lemma read_write_file s dst data q :
  read (write_file s dst data) q = read s q
  ∨ read (write_file s dst data) q = Some data.
Proof.
  unfold read. rewrite lookup_write_file.
  destruct (lookup s dst) as [[|d|ino d]|].
  - destruct (path_eqb q dst); [by right | by left].
  - destruct (path_eqb q dst); [by right | by left].
  - destruct (lookup s q) as [[|d'|j d']|]; try by left.
    destruct (Nat.eqb j ino); [by right | by left].
  - destruct (lookup s q) as [n|]; [by left|].
    destruct (path_eqb dst q); [by right | by left].
Qed.

(** Another name of the destination's file holds the bytes written. *)
Lemma read_write_file_alias s dst data q :
  q ≠ dst → samefile s dst q = true →
  read (write_file s dst data) q = Some data.
Proof.
  intros Hne Hsame. unfold read. rewrite lookup_write_file.
  unfold samefile, ino_of in Hsame.
  assert (Hdq : path_eqb dst q = false)
    by (apply path_eqb_false; congruence).
  rewrite Hdq in Hsame.
  destruct (lookup s dst) as [[|d|ino d]|]; try done;
    destruct (lookup s q) as [[|d'|j d']|]; try done.
  simpl in Hsame. rewrite Nat.eqb_sym in Hsame. by rewrite Hsame.
Qed.

(** A write keeps, for every path, whether it is a directory, whether it
    is a file (the destination becomes one), and which file it names. *)
Lemma is_dir_write_file s dst data q :
  is_dir s dst = false →
  is_dir (write_file s dst data) q = is_dir s q.
Proof.
  intros Hd. unfold is_dir in *. rewrite lookup_write_file.
  destruct (lookup s dst) as [[|d|ino d]|] eqn:E; try done.
  - destruct (path_eqb q dst) eqn:Eq; [|done].
    apply path_eqb_true in Eq. subst q. by rewrite E.
  - destruct (lookup s q) as [[|d'|j d']|]; try done.
    by destruct (Nat.eqb j ino).
  - destruct (lookup s q) as [n|] eqn:Eq; [done|].
    by destruct (path_eqb dst q).
Qed.

Lemma is_file_write_file s dst data q :
  is_dir s dst = false →
  is_file (write_file s dst data) q = is_file s q || path_eqb q dst.
Proof.
  intros Hd. unfold is_dir, is_file in *. rewrite lookup_write_file.
  destruct (lookup s dst) as [[|d|ino d]|] eqn:E; try done.
  - destruct (path_eqb q dst) eqn:Eq; [by rewrite orb_true_r|].
    by rewrite orb_false_r.
  - destruct (path_eqb q dst) eqn:Eq.
    + apply path_eqb_true in Eq. subst q. by rewrite E, Nat.eqb_refl.
    + rewrite orb_false_r. destruct (lookup s q) as [[|d'|j d']|]; try done.
      by destruct (Nat.eqb j ino).
  - destruct (path_eqb q dst) eqn:Eq.
    + apply path_eqb_true in Eq. subst q. rewrite E, path_eqb_refl. done.
    + rewrite orb_false_r. destruct (lookup s q) as [n|] eqn:Eq'; [done|].
      replace (path_eqb dst q) with false; [done|].
      symmetry. apply path_eqb_false. apply path_eqb_false in Eq. congruence.
Qed.

Lemma ino_of_write_file s dst data q :
  ino_of (write_file s dst data) q = ino_of s q.
Proof.
  unfold ino_of. rewrite lookup_write_file.
  destruct (lookup s dst) as [[|d|ino d]|] eqn:E.
  - destruct (path_eqb q dst) eqn:Eq; [|done].
    apply path_eqb_true in Eq. subst q. by rewrite E.
  - destruct (path_eqb q dst) eqn:Eq; [|done].
    apply path_eqb_true in Eq. subst q. by rewrite E.
  - destruct (lookup s q) as [[|d'|j d']|]; try done.
    destruct (Nat.eqb j ino) eqn:Ej; [|done].
    apply Nat.eqb_eq in Ej. by subst j.
  - destruct (lookup s q) as [n|] eqn:Eq; [done|].
    by destruct (path_eqb dst q).
Qed.

(** A write in place keeps the names of the store. *)
Lemma map_fst_write_existing s dst data :
  exists_ s dst = true →
  map fst (write_file s dst data) = map fst s.
Proof.
  unfold exists_. destruct (lookup s dst) as [n|] eqn:E; [|done].
  intros _. destruct n as [|d|ino d].
  - rewrite (write_file_single s dst data Dir E) by done.
    apply (map_fst_map_nodes
             (fun r n => if path_eqb r dst then File data else n)).
  - rewrite (write_file_single s dst data (File d) E) by done.
    apply (map_fst_map_nodes
             (fun r n => if path_eqb r dst then File data else n)).
  - rewrite (write_file_shared s dst data ino d E).
    apply (map_fst_map_nodes
             (fun _ n => match n with
                         | Shared j _ =>
                             if Nat.eqb j ino then Shared ino data else n
                         | _ => n
                         end)).
Qed.

(** Appended directories change nothing that was there. *)
Lemma lookup_app_some s l p n :
  lookup s p = Some n → lookup (s ++ l) p = Some n.
Proof.
  unfold lookup. induction s as [|[q m] s IH]; simpl; [done|].
  destruct (path_eqb q p); [done | exact IH].
Qed.

Lemma lookup_app_dirs s ds p :
  lookup (s ++ map (fun q => (q, Dir)) ds) p = lookup s p
  ∨ (lookup s p = None
     ∧ lookup (s ++ map (fun q => (q, Dir)) ds) p = Some Dir).
Proof.
  destruct (lookup s p) as [n|] eqn:E.
  - left. by apply lookup_app_some.
  - unfold lookup in *. induction s as [|[q m] s IH]; simpl in *.
    + induction ds as [|d ds IHd]; simpl; [by left|].
      destruct (path_eqb d p); [by right | exact IHd].
    + destruct (path_eqb q p); [done | by apply IH].
Qed.

Lemma read_app_dirs s ds p :
  read (s ++ map (fun q => (q, Dir)) ds) p = read s p.
Proof.
  unfold read. destruct (lookup_app_dirs s ds p) as [->|[-> ->]]; done.
Qed.

Lemma exists_write_file s dst data q :
  exists_ (write_file s dst data) q = exists_ s q || path_eqb q dst.
Proof.
  unfold exists_. rewrite lookup_write_file.
  destruct (lookup s dst) as [[|d|ino d]|] eqn:E.
  - destruct (path_eqb q dst) eqn:Eq; [by rewrite orb_true_r|].
    by rewrite orb_false_r.
  - destruct (path_eqb q dst) eqn:Eq; [by rewrite orb_true_r|].
    by rewrite orb_false_r.
  - destruct (path_eqb q dst) eqn:Eq.
    + apply path_eqb_true in Eq. subst q. by rewrite E.
    + rewrite orb_false_r. by destruct (lookup s q) as [[|d'|j d']|].
  - destruct (path_eqb q dst) eqn:Eq.
    + apply path_eqb_true in Eq. subst q. by rewrite E, path_eqb_refl.
    + rewrite orb_false_r. destruct (lookup s q) as [n|]; [done|].
      replace (path_eqb dst q) with false; [done|].
      symmetry. apply path_eqb_false. apply path_eqb_false in Eq. congruence.
Qed.

Lemma samefile_alt s a b :
  samefile s a b
  = exists_ s a && exists_ s b
    && (path_eqb a b
        || match ino_of s a, ino_of s b with
           | Some i, Some j => Nat.eqb i j
           | _, _ => false
           end).
Proof.
  unfold samefile, exists_. by destruct (lookup s a), (lookup s b).
Qed.

(** A write in place changes no answer to "the same file?". *)
Lemma samefile_write_file s dst data a b :
  exists_ s dst = true →
  samefile (write_file s dst data) a b = samefile s a b.
Proof.
  intros He. rewrite !samefile_alt, !exists_write_file, !ino_of_write_file.
  assert (H : ∀ q, exists_ s q || path_eqb q dst = exists_ s q).
  { intros q. destruct (path_eqb q dst) eqn:E; [|by rewrite orb_false_r].
    apply path_eqb_true in E. subst q. by rewrite He. }
  by rewrite !H.
Qed.

End StoreWrites.

(* ===================================================================== *)
(** * Further properties of the merge pass *)
(* ===================================================================== *)

Section GatherFrame.
Import Fs Spec Gather Vocabulary.

Implicit Types (s : fs) (p q : path) (w : world).

Lemma dirs_added_refl s : dirs_added s s.
Proof. exists []. by rewrite app_nil_r. Qed.

Lemma dirs_added_trans s1 s2 s3 :
  dirs_added s1 s2 → dirs_added s2 s3 → dirs_added s1 s3.
Proof.
  intros [d1 ->] [d2 ->]. exists (d1 ++ d2).
  by rewrite map_app, app_assoc.
Qed.

Lemma planned_refl w : planned w w.
Proof. apply dirs_added_refl. Qed.

Lemma planned_trans w1 w2 w3 : planned w1 w2 → planned w2 w3 → planned w1 w3.
Proof. apply dirs_added_trans. Qed.

(** [keeps] through the monad. *)
Lemma keeps_ret {A} (R : world → world → Prop) (a : A) :
  (∀ w, R w w) → keeps R (mret a).
Proof. intros HR w r w' [= <- <-]. apply HR. Qed.

Lemma keeps_raise {A} (R : world → world → Prop) e :
  (∀ w, R w w) → keeps R (raise e : M A).
Proof. intros HR w r w' [= <- <-]. apply HR. Qed.

Lemma keeps_bind {A B} (R : world → world → Prop) (m : M A) (k : A → M B) :
  (∀ w1 w2 w3, R w1 w2 → R w2 w3 → R w1 w3) →
  keeps R m → (∀ a, keeps R (k a)) → keeps R (m ≫= k).
Proof.
  intros Htr Hm Hk w r w' Hrun. rewrite run_bind in Hrun.
  destruct (m w) as [[a|e] w1] eqn:Em.
  - eapply Htr; [by eapply Hm | by eapply Hk].
  - injection Hrun as <- <-. by eapply Hm.
Qed.

Lemma keeps_get_store (R : world → world → Prop) :
  (∀ w, R w w) → keeps R get_store.
Proof. intros HR w r w' [= <- <-]. apply HR. Qed.

Lemma keeps_print m : keeps planned (print m).
Proof. intros w r w' [= <- <-]. apply dirs_added_refl. Qed.

Lemma keeps_iterdir base : keeps planned (iterdir base).
Proof.
  apply keeps_bind; [apply planned_trans | |].
  - apply keeps_get_store, planned_refl.
  - intros s. destruct (is_dir s base);
      [apply keeps_ret | apply keeps_raise]; apply planned_refl.
Qed.

(** Reading the store and going on with what was read. *)
Lemma keeps_with_store {B} (R : world → world → Prop) (k : fs → M B) :
  (∀ w r w', k (store w) w = (r, w') → R w w') →
  keeps R (get_store ≫= k).
Proof. intros Hk w r w' Hrun. rewrite run_bind in Hrun. by eapply Hk. Qed.

Lemma keeps_mkdir_chain todo : ∀ done, keeps planned (mkdir_chain todo done).
Proof.
  induction todo as [|c rest IH]; intros done; simpl.
  - apply keeps_ret, planned_refl.
  - apply keeps_with_store. intros w r w'.
    destruct (lookup (store w) (join done c)) as [[|data|ino data]|].
    + apply IH.
    + intros [= <- <-]. apply planned_refl.
    + intros [= <- <-]. apply planned_refl.
    + rewrite run_bind. cbn [put_store]. intros Hrun.
      apply IH in Hrun. eapply planned_trans; [|exact Hrun].
      exists [join done c]. reflexivity.
Qed.

Lemma keeps_mkdir_parents p : keeps planned (mkdir_parents p).
Proof. apply keeps_mkdir_chain. Qed.

(** With [dry_run] set, [copy_file] creates directories at most. *)
Lemma keeps_copy_file_dry src dst hardlink :
  keeps planned (copy_file src dst true hardlink).
Proof.
  unfold copy_file.
  apply keeps_bind; [apply planned_trans | apply keeps_mkdir_parents |].
  intros _. apply keeps_print.
Qed.

Lemma keeps_find_dir base exact prefix :
  keeps planned (find_dir_exact_or_prefix base exact prefix).
Proof.
  unfold find_dir_exact_or_prefix.
  apply keeps_bind; [apply planned_trans | |].
  - apply keeps_get_store, planned_refl.
  - intros s. destruct (is_dir s _); [apply keeps_ret, planned_refl|].
    apply keeps_bind; [apply planned_trans | apply keeps_iterdir |].
    intros ps. apply keeps_ret, planned_refl.
Qed.

Lemma keeps_choose_mask_for exts_iter basename mask_dir :
  keeps planned (choose_mask_for exts_iter basename mask_dir).
Proof.
  unfold choose_mask_for.
  apply keeps_bind; [apply planned_trans | |].
  - apply keeps_get_store, planned_refl.
  - intros s. destruct (List.find _ exts_iter);
      [apply keeps_ret, planned_refl|].
    apply keeps_bind; [apply planned_trans | apply keeps_iterdir |].
    intros ps. destruct (List.filter _ ps) as [|p [|q l]];
      apply keeps_ret, planned_refl.
Qed.

Lemma keeps_copy_images_dry exts_iter split_tag masks_dir out_img out_mask
  hardlink images :
  ∀ t, keeps planned
         (copy_images exts_iter split_tag masks_dir out_img out_mask
            true hardlink images t).
Proof.
  induction images as [|img rest IH]; intros t; simpl.
  - apply keeps_ret, planned_refl.
  - apply keeps_bind; [apply planned_trans | apply keeps_copy_file_dry |].
    intros _.
    apply keeps_bind; [apply planned_trans | apply keeps_choose_mask_for |].
    intros mask_path.
    apply keeps_bind; [apply planned_trans | | intros; apply IH].
    destruct mask_path as [mask_path|].
    + apply keeps_bind; [apply planned_trans | apply keeps_copy_file_dry |].
      intros _. apply keeps_ret, planned_refl.
    + apply keeps_ret, planned_refl.
Qed.

Lemma keeps_process_split_dry exts_iter data_dir out_img out_mask hardlink :
  keeps planned
    (process_split exts_iter data_dir out_img out_mask true hardlink).
Proof.
  unfold process_split.
  apply keeps_bind; [apply planned_trans | apply keeps_find_dir |].
  intros images_dir.
  apply keeps_bind; [apply planned_trans | apply keeps_find_dir |].
  intros masks_dir.
  destruct images_dir as [images_dir|], masks_dir as [masks_dir|];
    try (apply keeps_bind; [apply planned_trans | apply keeps_print |];
         intros; apply keeps_ret, planned_refl).
  apply keeps_bind; [apply planned_trans | |].
  - apply keeps_get_store, planned_refl.
  - intros s.
    apply keeps_bind;
      [apply planned_trans | apply keeps_copy_images_dry |].
    intros t. apply keeps_ret, planned_refl.
Qed.

Lemma keeps_run_splits_dry exts_iter out_img out_mask hardlink splits :
  ∀ acc, keeps planned
           (run_splits exts_iter out_img out_mask true hardlink splits acc).
Proof.
  induction splits as [|d rest IH]; intros acc; simpl.
  - apply keeps_ret, planned_refl.
  - apply keeps_bind;
      [apply planned_trans | apply keeps_process_split_dry |].
    intros [[[ni nm] missing] extra].
    apply keeps_bind; [apply planned_trans | apply keeps_print |].
    intros _. apply IH.
Qed.

(** Appended directories hide no file and add none. *)
Lemma lookup_dirs_added s ds p data :
  lookup (s ++ map (fun q => (q, Dir)) ds) p = Some (File data)
  ↔ lookup s p = Some (File data).
Proof.
  unfold lookup. induction s as [|[q n] s IH]; simpl.
  - split; [|done]. induction ds as [|d ds IHd]; simpl; [done|].
    destruct (path_eqb d p); [done | exact IHd].
  - destruct (path_eqb q p); [done | exact IH].
Qed.

End GatherFrame.

(** X6.  A dry run of the merge pass writes no file: however it ends, the
    store it leaves is the one it found followed by newly created
    directories only (the destination folders are made before the flag is
    looked at), so every path that was a file is the same file afterwards
    and no other path has become one. *)
Theorem merge_dry_run_only_makes_dirs exts_iter root out hardlink w :
  let w' := (Gather.main exts_iter root out true hardlink w).2 in
  Vocabulary.dirs_added (Gather.store w) (Gather.store w')
  ∧ ∀ p data, Fs.lookup (Gather.store w') p = Some (Fs.File data)
              ↔ Fs.lookup (Gather.store w) p = Some (Fs.File data).
Proof.
  intros w'.
  assert (Hadd : Vocabulary.dirs_added (Gather.store w) (Gather.store w')).
  { subst w'.
    destruct (Gather.main exts_iter root out true hardlink w) as [r w'] eqn:Hrun.
    revert w r w' Hrun.
    change (Vocabulary.keeps Vocabulary.planned
              (Gather.main exts_iter root out true hardlink)).
    unfold Gather.main.
    apply keeps_bind; [apply planned_trans | apply keeps_iterdir |].
    intros ps.
    apply keeps_bind; [apply planned_trans | |].
    - apply keeps_get_store, planned_refl.
    - intros s. destruct (merge_sort _ _) as [|d splits].
      + apply keeps_print.
      + apply keeps_bind; [apply planned_trans | apply keeps_print |].
        intros _.
        apply keeps_bind;
          [apply planned_trans | apply keeps_run_splits_dry |].
        intros acc. apply keeps_print. }
  split; [exact Hadd|].
  destruct Hadd as [ds ->]. intros p data. apply lookup_dirs_added.
Qed.

Section GatherCounts.
Import Fs Spec Gather Vocabulary.

Lemma returns_ret {A} (a : A) (Q : A → Prop) : Q a → returns (mret a) Q.
Proof. intros H w a' w' [= <- <-]. exact H. Qed.

Lemma returns_bind {A B} (m : M A) (k : A → M B) (P : A → Prop)
  (Q : B → Prop) :
  returns m P → (∀ a, P a → returns (k a) Q) → returns (m ≫= k) Q.
Proof.
  intros Hm Hk w b w' Hrun. rewrite run_bind in Hrun.
  destruct (m w) as [[a|e] w1] eqn:Em; [|done].
  eapply Hk; [|exact Hrun]. by eapply Hm.
Qed.

Lemma returns_any {A} (m : M A) : returns m (fun _ => True).
Proof. by intros w a w' _. Qed.

(** What one pass of the image loop adds to the tally. *)
Lemma returns_copy_images exts_iter split_tag masks_dir out_img out_mask
  dry_run hardlink images :
  ∀ t, returns
         (copy_images exts_iter split_tag masks_dir out_img out_mask
            dry_run hardlink images t)
         (fun t' =>
            copied_imgs t' = (copied_imgs t + length images)%nat
            ∧ (copied_masks t' + length (imgs_without_mask t')
               = copied_masks t + length (imgs_without_mask t)
                 + length images)%nat).
Proof.
  induction images as [|img rest IH]; intros t; simpl.
  - apply returns_ret. lia.
  - eapply returns_bind; [apply returns_any|]. intros _ _.
    eapply returns_bind; [apply returns_any|]. intros mask_path _.
    eapply returns_bind with
      (P := fun t1 =>
              copied_imgs t1 = S (copied_imgs t)
              ∧ (copied_masks t1 + length (imgs_without_mask t1)
                 = S (copied_masks t + length (imgs_without_mask t)))%nat).
    + destruct mask_path as [mask_path|].
      * eapply returns_bind; [apply returns_any|]. intros _ _.
        apply returns_ret. simpl. lia.
      * apply returns_ret. simpl. rewrite length_app. simpl. lia.
    + intros t1 [H1 H2]. intros w t' w' Hrun.
      apply IH in Hrun. lia.
Qed.

Lemma returns_process_split exts_iter data_dir out_img out_mask dry_run
  hardlink :
  returns
    (process_split exts_iter data_dir out_img out_mask dry_run hardlink)
    (fun '(ni, nm, missing, extra) => ni = (nm + length missing)%nat).
Proof.
  unfold process_split.
  eapply returns_bind; [apply returns_any|]. intros images_dir _.
  eapply returns_bind; [apply returns_any|]. intros masks_dir _.
  destruct images_dir as [images_dir|], masks_dir as [masks_dir|];
    try (eapply returns_bind; [apply returns_any|]; intros _ _;
         by apply returns_ret).
  eapply returns_bind; [apply returns_any|]. intros s _.
  eapply returns_bind; [apply returns_copy_images|].
  intros t [H1 H2]. apply returns_ret. simpl in *. lia.
Qed.

Lemma returns_run_splits exts_iter out_img out_mask dry_run hardlink splits :
  ∀ acc,
    total_i acc = (total_m acc + length (total_missing acc))%nat →
    returns
      (run_splits exts_iter out_img out_mask dry_run hardlink splits acc)
      (fun acc' =>
         total_i acc' = (total_m acc' + length (total_missing acc'))%nat).
Proof.
  induction splits as [|d rest IH]; intros acc Hacc; simpl.
  - by apply returns_ret.
  - eapply returns_bind; [apply returns_process_split|].
    intros [[[ni nm] missing] extra] Hsplit.
    eapply returns_bind; [apply returns_any|]. intros _ _.
    apply IH. simpl. rewrite length_app. lia.
Qed.

End GatherCounts.

(** X7.  In the merge pass every image is either copied with a mask or
    listed as missing one, never both and never neither: whenever
    [process_split] returns, the number of images copied is the number of
    masks copied plus the number of images reported without a mask, and the
    totals kept over the splits obey the same equation. *)
Theorem merge_counts_add_up exts_iter out_img out_mask dry_run hardlink :
  (∀ data_dir w ni nm missing extra w',
     Gather.process_split exts_iter data_dir out_img out_mask dry_run
       hardlink w = (inl (ni, nm, missing, extra), w') →
     ni = (nm + length missing)%nat)
  ∧ (∀ splits w acc w',
       Gather.run_splits exts_iter out_img out_mask dry_run hardlink splits
         (Gather.Totals 0 0 [] []) w = (inl acc, w') →
       Gather.total_i acc
       = (Gather.total_m acc + length (Gather.total_missing acc))%nat).
Proof.
  split.
  - intros data_dir w ni nm missing extra w' Hrun.
    exact (returns_process_split _ _ _ _ _ _ _ _ _ Hrun).
  - intros splits w acc w' Hrun.
    exact (returns_run_splits _ _ _ _ _ splits (Gather.Totals 0 0 [] [])
             eq_refl _ _ _ Hrun).
Qed.

Lemma merge_counts_add_up_witness :
  (1 = 1 + length (@nil string))%nat.
Proof.
  refine (proj1 (merge_counts_add_up (elements Gather.IMG_EXTS)
                   ["out"; "img"]%string ["out"; "mask"]%string true false)
            ["raw"; "data_C2"]%string (Gather.World Spec.partial_split [])
            1%nat 1%nat [] [] _ _).
  vm_compute. reflexivity.
Defined.

Section GatherCopy.
Import Fs Spec Gather Vocabulary.

Implicit Types (s : fs) (p q : path) (w : world).

Lemma made_dirs_mkdir_chain todo : ∀ done, keeps made_dirs (mkdir_chain todo done).
Proof.
  induction todo as [|c rest IH]; intros done; simpl.
  - intros w r w' [= <- <-]. split; [apply dirs_added_refl | done].
  - apply keeps_with_store. intros w r w'.
    destruct (lookup (store w) (join done c)) as [[|data|ino data]|].
    + apply IH.
    + intros [= <- <-]. split; [apply dirs_added_refl | done].
    + intros [= <- <-]. split; [apply dirs_added_refl | done].
    + rewrite run_bind. cbn [put_store]. intros Hrun.
      apply IH in Hrun as [Hd Hp]. cbn [store printed] in *. split; [|done].
      eapply dirs_added_trans; [|exact Hd]. exists [join done c]. reflexivity.
Qed.

Lemma samefile_sym s p q : samefile s p q = samefile s q p.
Proof.
  unfold samefile.
  assert (path_eqb p q = path_eqb q p) as ->.
  { destruct (path_eqb q p) eqn:E.
    - apply path_eqb_true in E. subst. by apply path_eqb_true.
    - apply path_eqb_false in E. apply path_eqb_false. congruence. }
  destruct (lookup s p), (lookup s q); try done.
  destruct (ino_of s p), (ino_of s q); try done.
  by rewrite Nat.eqb_sym.
Qed.

Lemma samefile_refl s p n : lookup s p = Some n → samefile s p p = true.
Proof. intros H. unfold samefile. by rewrite H, path_eqb_refl. Qed.

Lemma read_lookup s p data :
  read s p = Some data →
  ∃ n, lookup s p = Some n ∧ is_dir s p = false ∧ is_file s p = true.
Proof.
  unfold read, is_dir, is_file.
  destruct (lookup s p) as [[|d|i d]|]; try done; by eexists.
Qed.

(** What [shutil.copy2] has done when it returns. *)
Lemma run_copy2 src dst w w' :
  copy2 src dst w = (inl tt, w') →
  ∃ data,
    read (store w) src = Some data
    ∧ samefile (store w) src (copy_target (store w) src dst) = false
    ∧ is_dir (store w) (copy_target (store w) src dst) = false
    ∧ w' = World (write_file (store w) (copy_target (store w) src dst) data)
                 (printed w).
Proof.
  unfold copy2. rewrite run_bind. cbn [get_store].
  fold (copy_target (store w) src dst).
  set (target := copy_target (store w) src dst).
  unfold read.
  destruct (lookup (store w) src) as [[|data|ino data]|] eqn:Hsrc; try done.
  - destruct (samefile (store w) src target) eqn:Heq; [done|].
    destruct (is_dir (store w) target) eqn:Hdir; [done|].
    destruct (negb (is_dir (store w) (parent target))); [done|].
    intros [= <-]. by exists data.
  - destruct (samefile (store w) src target) eqn:Heq; [done|].
    destruct (is_dir (store w) target) eqn:Hdir; [done|].
    destruct (negb (is_dir (store w) (parent target))); [done|].
    intros [= <-]. by exists data.
Qed.

(** What [hardlink_to] has done, however it ends. *)
Lemma run_hardlink_to dst src w r w' :
  hardlink_to dst src w = (r, w') →
  printed w' = printed w
  ∧ (∀ u, r = inl u →
       ∃ data, read (store w) src = Some data
               ∧ read (store w') src = Some data
               ∧ read (store w') dst = Some data)
  ∧ (∀ e, r = inr e → w' = w).
Proof.
  unfold hardlink_to. rewrite run_bind. cbn [get_store].
  unfold read, exists_.
  destruct (lookup (store w) src) as [[|data|ino data]|] eqn:Hsrc;
    try (intros [= <- <-]; split; [done|]; split; [done|]; done).
  - destruct (lookup (store w) dst) eqn:Hdst;
      [intros [= <- <-]; split; [done|]; split; [done|]; done|].
    destruct (negb (is_dir (store w) (parent dst)));
      [intros [= <- <-]; split; [done|]; split; [done|]; done|].
    intros [= <- <-]. cbn [store printed]. split; [done|]. split; [|done].
    intros _ _. exists data. split; [done|].
    set (ino := fresh_ino (store w)).
    assert (Hmap : map (fun e => if path_eqb (fst e) src
                                 then (src, Shared ino data) else e)
                       (store w)
                   = map (fun e => (e.1, if path_eqb e.1 src
                                         then Shared ino data else e.2))
                         (store w)).
    { apply map_ext. intros [q m]. simpl.
      destruct (path_eqb q src) eqn:E; [|done].
      apply path_eqb_true in E. by subst q. }
    rewrite Hmap, !lookup_snoc_new.
    rewrite !(lookup_map_nodes
                (fun q m => if path_eqb q src then Shared ino data else m)).
    rewrite Hsrc, Hdst. simpl. by rewrite !path_eqb_refl.
  - destruct (lookup (store w) dst) eqn:Hdst;
      [intros [= <- <-]; split; [done|]; split; [done|]; done|].
    destruct (negb (is_dir (store w) (parent dst)));
      [intros [= <- <-]; split; [done|]; split; [done|]; done|].
    intros [= <- <-]. cbn [store printed]. split; [done|]. split; [|done].
    intros _ _. exists data. split; [done|].
    rewrite !lookup_snoc_new, Hsrc, Hdst. by rewrite path_eqb_refl.
Qed.

(** What the attempt to link has done. *)
Lemma run_try_link src dst w b w' :
  try_pass (s ← get_store;
            (if exists_ s dst then unlink_ dst else pass);;
            hardlink_to dst src) w = (inl b, w') →
  printed w' = printed w
  ∧ (b = true →
     ∃ data, read (store w) src = Some data
             ∧ read (store w') src = Some data
             ∧ read (store w') dst = Some data)
  ∧ (b = false → ∀ p, p ≠ dst → lookup (store w') p = lookup (store w) p).
Proof.
  unfold try_pass. rewrite run_bind. cbn [get_store].
  destruct (exists_ (store w) dst) eqn:Hex.
  - rewrite run_bind. unfold unlink_ at 1. rewrite run_bind. cbn [get_store].
    unfold unlink.
    destruct (is_file (store w) dst) eqn:Hfile.
    + cbn [put_store].
      set (w1 := World _ (printed w)).
      destruct (hardlink_to dst src w1) as [[u|e] w2] eqn:Hl;
        apply run_hardlink_to in Hl as (Hp & Hok & Herr); intros [= <- <-].
      * split; [done|]. split; [|done]. intros _.
        destruct (Hok u eq_refl) as (data & H1 & H2 & H3).
        exists data. split; [|done].
        unfold w1, read in H1. cbn [store] in H1.
        destruct (decide (src = dst)) as [->|Hne].
        -- by rewrite lookup_filter_eq in H1.
        -- unfold read. by rewrite lookup_filter_ne in H1.
      * split; [done|]. split; [done|]. intros _ p Hne.
        rewrite (Herr e eq_refl). unfold w1. cbn [store].
        by apply lookup_filter_ne.
    + intros [= <- <-]. done.
  - rewrite run_bind. unfold pass at 1. cbn [mret M_ret].
    destruct (hardlink_to dst src w) as [[u|e] w2] eqn:Hl;
      apply run_hardlink_to in Hl as (Hp & Hok & Herr); intros [= <- <-].
    + split; [done|]. split; [|done]. intros _. by apply (Hok u).
    + split; [done|]. split; [done|]. intros _ p _. by rewrite (Herr e).
Qed.

(** X8. A real copy that returns has copied: [src] was a file before the
    call, it still holds the same bytes after it, the place the copy went to
    ([dst], or [dst/name] when [dst] is a directory) holds those bytes too,
    and nothing was printed.  This holds with and without [--hardlink], and
    whether the link or the fallback copy did the work. *)
Theorem copy_file_copies src dst hardlink w w' :
  copy_file src dst false hardlink w = (inl tt, w') →
  ∃ data,
    read (store w) src = Some data
    ∧ read (store w') src = Some data
    ∧ read (store w') (copy_target (store w') src dst) = Some data
    ∧ printed w' = printed w.
Proof.
  unfold copy_file. rewrite run_bind.
  destruct (mkdir_parents (parent dst) w) as [[[]|e] w1] eqn:Hmk; [|done].
  apply made_dirs_mkdir_chain in Hmk as [[ds Hd] Hp1].
  assert (Hback : ∀ q, read (store w1) q = read (store w) q).
  { intros q. rewrite Hd. apply read_app_dirs. }
  cbn [negb]. rewrite run_bind.
  assert (Hfinish : ∀ w2,
    printed w2 = printed w1 →
    (∀ p, p ≠ dst → lookup (store w2) p = lookup (store w1) p) →
    copy2 src dst w2 = (inl tt, w') →
    ∃ data,
      read (store w) src = Some data
      ∧ read (store w') src = Some data
      ∧ read (store w') (copy_target (store w') src dst) = Some data
      ∧ printed w' = printed w).
  { intros w2 Hp2 Hsame Hcp.
    apply run_copy2 in Hcp as (data & Hsrc & Hnot & Hnd & ->).
    cbn [store printed]. exists data.
    set (target := copy_target (store w2) src dst) in *.
    destruct (read_lookup _ _ _ Hsrc) as (n & Hl & Hsd & _).
    assert (Hne : src ≠ target).
    { intros Heq. rewrite <- Heq in Hnot.
      by rewrite (samefile_refl _ _ _ Hl) in Hnot. }
    assert (Hsdst : src ≠ dst).
    { intros ->. apply Hne. unfold target, copy_target. by rewrite Hsd. }
    assert (Htgt : copy_target (write_file (store w2) target data) src dst
                   = target).
    { unfold copy_target at 1. by rewrite is_dir_write_file. }
    split.
    { rewrite <- Hback. unfold read in *. by rewrite <- Hsame. }
    split.
    { unfold read. rewrite lookup_write_file_other; [exact Hsrc | done |].
      by rewrite samefile_sym. }
    split; [rewrite Htgt; apply read_write_file_eq |].
    congruence. }
  destruct hardlink.
  - match goal with
    | |- context [try_pass ?m w1] =>
        destruct (try_pass m w1) as [[b|e] w2] eqn:Htry
    end; [|done].
    apply run_try_link in Htry as (Hp2 & Htrue & Hfalse).
    destruct b.
    + intros [= <-]. destruct (Htrue eq_refl) as (data & H1 & H2 & H3).
      exists data. split; [by rewrite <- Hback |].
      split; [done|]. split; [|congruence].
      destruct (read_lookup _ _ _ H3) as (n & _ & Hnd & _).
      unfold copy_target. by rewrite Hnd.
    + apply Hfinish; [done | by apply Hfalse].
  - cbn [mret M_ret]. by apply Hfinish.
Qed.

Lemma copy_file_copies_witness :
  ∃ w', copy_file ["in"; "a.jpg"]%string ["out"; "images"; "a.jpg"]%string
          false true (World one_image []) = (inl tt, w')
        ∧ read (store w') ["out"; "images"; "a.jpg"]%string
          = Some "pixels"%string.
Proof.
  eexists. split; [vm_compute; reflexivity|].
  destruct (copy_file_copies ["in"; "a.jpg"]%string
              ["out"; "images"; "a.jpg"]%string true
              (World one_image []) _ eq_refl) as (data & H1 & _ & H3 & _).
  vm_compute in H1. injection H1 as <-. exact H3.
Defined.

End GatherCopy.

(* ===================================================================== *)
(** * Names: strings, tags and pairs *)
(* ===================================================================== *)

Section Strings.

#[local] Arguments String.append !_ _ / : simpl nomatch.

Implicit Types (s t x y e sep : string) (c : ascii).

Lemma str_app_assoc x y t : ((x ++ y) ++ t = x ++ (y ++ t))%string.
Proof. induction x as [|a x IH]; simpl; [done | by rewrite IH]. Qed.

Lemma str_app_nil_r x : (x ++ "" = x)%string.
Proof. induction x as [|a x IH]; simpl; [done | by rewrite IH]. Qed.

Lemma str_length_app x y :
  String.length (x ++ y) = (String.length x + String.length y)%nat.
Proof. induction x as [|a x IH]; simpl; [done | by rewrite IH]. Qed.

Lemma substring_all x : String.substring 0 (String.length x) x = x.
Proof. induction x as [|a x IH]; simpl; [done | by rewrite IH]. Qed.

Lemma substring_app_l x y :
  String.substring 0 (String.length x) (x ++ y) = x.
Proof.
  induction x as [|a x IH]; simpl; [by destruct y | by rewrite IH].
Qed.

Lemma substring_app_r x y :
  String.substring (String.length x) (String.length y) (x ++ y) = y.
Proof. induction x as [|a x IH]; simpl; [apply substring_all | exact IH]. Qed.

Lemma from_app x y : PyStr.from (String.length x) (x ++ y) = y.
Proof.
  unfold PyStr.from. rewrite str_length_app.
  replace (String.length x + String.length y - String.length x)%nat
    with (String.length y) by lia.
  apply substring_app_r.
Qed.

Lemma drop_last_app x y :
  PyStr.drop_last (String.length y) (x ++ y) = x.
Proof.
  unfold PyStr.drop_last. rewrite str_length_app.
  replace (String.length x + String.length y - String.length y)%nat
    with (String.length x) by lia.
  apply substring_app_l.
Qed.

Lemma endswith_app x y : PyStr.endswith (x ++ y) y = true.
Proof.
  unfold PyStr.endswith. rewrite str_length_app.
  replace (String.length x + String.length y - String.length y)%nat
    with (String.length x) by lia.
  rewrite substring_app_r, String.eqb_refl, andb_true_r.
  apply Nat.leb_le. lia.
Qed.

Lemma rfind_app c x e i :
  PyStr.rfind c e = Some i →
  PyStr.rfind c (x ++ e) = Some (String.length x + i)%nat.
Proof.
  intros He. induction x as [|a x IH]; simpl; [done | by rewrite IH].
Qed.

Lemma prefix_split sep t :
  String.prefix sep t = true →
  t = (sep ++ PyStr.from (String.length sep) t)%string.
Proof.
  revert t. induction sep as [|a sep IH]; intros t; simpl.
  - intros _. unfold PyStr.from. simpl. rewrite Nat.sub_0_r.
    by rewrite substring_all.
  - destruct t as [|b t]; [done|]. simpl.
    destruct (ascii_dec a b) as [->|]; [|done].
    intros H. apply IH in H. unfold PyStr.from in *. simpl.
    by rewrite <- H.
Qed.

Lemma after_first_some sep t rest :
  PyStr.after_first sep t = Some rest →
  ∃ pre, t = (pre ++ sep ++ rest)%string.
Proof.
  induction t as [|a t IH]; cbn [PyStr.after_first].
  - destruct (String.prefix sep "") eqn:E; [|done].
    intros [= <-]. exists ""%string. by apply prefix_split.
  - destruct (String.prefix sep (String a t)) eqn:E.
    + intros [= <-]. exists ""%string. by apply prefix_split.
    + intros H. destruct (IH H) as [pre ->]. by exists (String a pre).
Qed.

Lemma after_first_none sep t :
  PyStr.after_first sep t = None ↔ PyStr.contains t sep = false.
Proof.
  induction t as [|a t IH]; cbn [PyStr.after_first PyStr.contains].
  - destruct (String.prefix sep ""); simpl; split; done.
  - destruct (String.prefix sep (String a t)); simpl; [split; done|].
    exact IH.
Qed.

Lemma split_last_from_spec sep :
  sep ≠ ""%string →
  ∀ fuel s, (String.length s < fuel)%nat →
    PyStr.contains (PyStr.split_last_from fuel sep s) sep = false
    ∧ ∃ pre, s = (pre ++ PyStr.split_last_from fuel sep s)%string
             ∧ (pre = ""%string ∨ ∃ y, pre = (y ++ sep)%string).
Proof.
  intros Hsep. induction fuel as [|fuel IH]; intros s Hlen; [lia|].
  simpl. destruct (PyStr.after_first sep s) as [rest|] eqn:E.
  - destruct (after_first_some _ _ _ E) as [pre0 Hs].
    assert (String.length rest < fuel)%nat as Hr.
    { rewrite Hs, !str_length_app in Hlen.
      destruct sep; [done|]. simpl in Hlen. lia. }
    destruct (IH rest Hr) as (Hc & pre1 & Hrest & Hpre). split; [done|].
    exists (pre0 ++ sep ++ pre1)%string. split.
    + rewrite !str_app_assoc, <- Hrest. done.
    + right. destruct Hpre as [->|[y ->]].
      * exists pre0. by rewrite str_app_nil_r.
      * exists (pre0 ++ sep ++ y)%string. by rewrite !str_app_assoc.
  - split; [by apply after_first_none|]. exists ""%string. by split; [|left].
Qed.

End Strings.

Section MergedNames.
Import Fs Vocabulary.

Lemma name_join p nm : name (join p nm) = nm.
Proof. unfold name, join. apply last_last. Qed.

Lemma gather_ext_cases e :
  e ∈ Gather.IMG_EXTS →
  PyStr.rfind "." e = Some 0%nat ∧ (2 <= String.length e)%nat
  ∧ PyStr.lower e ∈ Prune.IMG_EXTS ∧ PyStr.lower e = e.
Proof.
  unfold Gather.IMG_EXTS. rewrite !elem_of_union, !elem_of_singleton.
  intros [[[[[->| ->]| ->]| ->]| ->]| ->];
    (split; [reflexivity|]; split; [simpl; lia|]; split; [|reflexivity]);
    apply (bool_decide_eq_true_1 _); vm_compute; reflexivity.
Qed.

(** A name built as [x ++ e], with [x] non-empty and [e] one of the
    extensions, splits back into [x] and [e]. *)
Lemma split_built_name p x e :
  x ≠ ""%string → e ∈ Gather.IMG_EXTS →
  stem (join p (x ++ e)) = x ∧ suffix (join p (x ++ e)) = e.
Proof.
  intros Hx He. destruct (gather_ext_cases e He) as (Hr & Hl & _).
  unfold stem, suffix. rewrite name_join. unfold split_at_dot.
  rewrite (rfind_app _ x e 0 Hr), Nat.add_0_r, str_length_app.
  assert ((0 <? String.length x)%nat = true) as ->.
  { apply Nat.ltb_lt. destruct x; [done | simpl; lia]. }
  assert ((String.length x <? String.length x + String.length e - 1)%nat
          = true) as -> by (apply Nat.ltb_lt; lia).
  simpl. split; [apply substring_app_l | apply from_app].
Qed.



(** X11. Whatever [choose_mask_for] returns has one of the listed
    extensions, up to case: the strict pattern builds the name with an
    extension of the set, the relaxed scan tests it.  [exts_iter] is the
    order in which the set is iterated, so its members are in the set. *)
Theorem chosen_mask_has_listed_extension (exts_iter : list string)
  (basename : string) (mask_dir : path) :
  (∀ ext, ext ∈ exts_iter → ext ∈ Gather.IMG_EXTS) →
  returns (Gather.choose_mask_for exts_iter basename mask_dir)
    (fun r => ∀ m, r = Some m →
                   PyStr.lower (suffix m) ∈ Gather.IMG_EXTS).
Proof.
  intros Hexts w r w'. unfold Gather.choose_mask_for.
  rewrite run_bind. cbn [Gather.get_store].
  destruct (List.find _ exts_iter) as [ext|] eqn:Hfind.
  - intros [= <- _] m [= <-].
    apply find_some in Hfind as [Hin _].
    apply list_elem_of_In, Hexts in Hin.
    unfold Gather.strict_name.
    assert (Hne : (basename ++ Gather.MASK_SUFFIX)%string ≠ ""%string)
      by (destruct basename; done).
    destruct (split_built_name mask_dir _ _ Hne Hin) as [_ Hsuf].
    rewrite str_app_assoc in Hsuf. rewrite Hsuf.
    destruct (gather_ext_cases _ Hin) as (_ & _ & _ & ->). done.
  - rewrite run_bind.
    destruct (Gather.iterdir mask_dir w) as [[ps|e] w1]; [|done].
    destruct (List.filter _ ps) as [|p [|q l]] eqn:Hf;
      intros [= <- _] m [= <-].
    assert (Hin : In p (List.filter
                          (Gather.relaxed_match (Gather.store w) basename)
                          ps)) by (rewrite Hf; by left).
    apply filter_In in Hin as [_ Hm]. unfold Gather.relaxed_match in Hm.
    apply andb_prop in Hm as [Hm _]. apply andb_prop in Hm as [_ Hm].
    by apply bool_decide_eq_true_1 in Hm.
Qed.

Lemma chosen_mask_has_listed_extension_witness :
  returns (Gather.choose_mask_for [".png"; ".jpg"]%string "a"
             ["m"]%string)
    (fun r => ∀ m, r = Some m →
                   PyStr.lower (suffix m) ∈ Gather.IMG_EXTS).
Proof.
  apply chosen_mask_has_listed_extension.
  intros ext Hin. apply (bool_decide_eq_true_1 _).
  apply elem_of_cons in Hin as [->|Hin]; [vm_compute; reflexivity|].
  apply elem_of_cons in Hin as [->|Hin]; [vm_compute; reflexivity|].
  by apply elem_of_nil in Hin.
Defined.

(** X10. The split tag is what follows the last [data_] of the folder
    name: the name is [pre ++ tag] where [pre] is empty or ends with
    [data_], and the tag holds no [data_] itself.  A name without
    [data_] (upper case [DATA_C1], say) is its own tag. *)
Theorem split_tag_follows_last_marker (nm : string) :
  let split_tag := PyStr.split_last "data_" nm in
  PyStr.contains split_tag "data_" = false
  ∧ (∃ pre, nm = (pre ++ split_tag)%string
            ∧ (pre = ""%string ∨ ∃ c, pre = (c ++ "data_")%string))
  ∧ (PyStr.contains nm "data_" = false → split_tag = nm).
Proof.
  intros split_tag. unfold split_tag, PyStr.split_last.
  destruct (split_last_from_spec "data_" ltac:(done)
              (S (String.length nm)) nm ltac:(lia)) as (Hc & Hpre).
  split; [done|]. split; [done|].
  intros Hno. apply after_first_none in Hno.
  cbn [PyStr.split_last_from]. by rewrite Hno.
Qed.

End MergedNames.

(* ===================================================================== *)
(** * Derived paths and the destination of a mask *)
(* ===================================================================== *)

Section PathlibFacts.
Import Fs Pathlib.

#[local] Arguments String.append !_ _ / : simpl nomatch.

Implicit Types (s t x y e : string) (p q : path).

Lemma rfind_lt c s i : PyStr.rfind c s = Some i → (i < String.length s)%nat.
Proof.
  revert i. induction s as [|a s IH]; intros i; simpl; [done|].
  destruct (PyStr.rfind c s) as [j|].
  - intros [= <-]. specialize (IH j eq_refl). lia.
  - destruct (Ascii.eqb a c); [|done]. intros [= <-]. lia.
Qed.

Lemma length_substring s : ∀ n m,
  (n + m <= String.length s)%nat →
  String.length (String.substring n m s) = m.
Proof.
  induction s as [|a s IH]; intros n m; simpl.
  - intros H. assert (n = 0 ∧ m = 0)%nat as [-> ->] by lia. done.
  - destruct n as [|n].
    + destruct m as [|m]; [done|]. simpl. intros H.
      rewrite IH; [done | lia].
    + intros H. apply IH. lia.
Qed.

Lemma substring_split s : ∀ i,
  (i <= String.length s)%nat →
  (String.substring 0 i s ++ PyStr.from i s)%string = s.
Proof.
  unfold PyStr.from. induction s as [|a s IH]; intros i; simpl.
  - intros H. assert (i = 0)%nat as -> by lia. done.
  - destruct i as [|i]; simpl.
    + intros _. by rewrite substring_all.
    + intros H. rewrite IH; [done | lia].
Qed.

Lemma parent_join q nm : parent (join q nm) = q.
Proof. unfold parent, join. apply removelast_last. Qed.

(** A name is its stem followed by its suffix. *)
Lemma stem_suffix p : (stem p ++ suffix p)%string = name p.
Proof.
  unfold stem, suffix, split_at_dot.
  destruct (PyStr.rfind "." (name p)) as [i|] eqn:Hr;
    [|apply str_app_nil_r].
  destruct (_ && _)%bool; [|apply str_app_nil_r].
  apply substring_split. apply rfind_lt in Hr. lia.
Qed.

Lemma stem_nonempty p : name p ≠ ""%string → stem p ≠ ""%string.
Proof.
  intros Hn. unfold stem, split_at_dot.
  destruct (PyStr.rfind "." (name p)) as [i|] eqn:Hr; [|done].
  destruct (_ && _)%bool eqn:Hb; [|done].
  apply andb_prop in Hb as [H0 H1].
  apply Nat.ltb_lt in H0. apply Nat.ltb_lt in H1.
  intros Hs. apply (f_equal String.length) in Hs.
  rewrite length_substring in Hs by lia. simpl in Hs. lia.
Qed.

Lemma suffix_length p :
  suffix p = ""%string ∨ (2 <= String.length (suffix p))%nat.
Proof.
  unfold suffix, split_at_dot.
  destruct (PyStr.rfind "." (name p)) as [i|] eqn:Hr; [|by left].
  destruct (_ && _)%bool eqn:Hb; [|by left].
  apply andb_prop in Hb as [H0 H1].
  apply Nat.ltb_lt in H0. apply Nat.ltb_lt in H1.
  right. unfold PyStr.from. rewrite length_substring by lia. lia.
Qed.

Lemma eqb_empty_false x : x ≠ ""%string → String.eqb x "" = false.
Proof. intros H. by apply String.eqb_neq. Qed.

(** [with_suffix] replaces what follows the stem. *)
Lemma with_suffix_png p :
  name p ≠ ""%string →
  with_suffix p ".png" = Some (join (parent p) (stem p ++ ".png")).
Proof.
  intros Hn. unfold with_suffix. cbn [negb andb orb String.eqb].
  change (PyStr.startswith ".png" ".") with true. cbn [negb andb orb].
  change (String.eqb ".png" ".") with false. cbn iota.
  rewrite (eqb_empty_false _ Hn). do 3 f_equal.
  destruct (suffix_length p) as [He|Hl].
  - rewrite He. cbn [String.eqb].
    rewrite <- (stem_suffix p) at 1. rewrite He. by rewrite str_app_nil_r.
  - rewrite eqb_empty_false by (intros He; rewrite He in Hl; simpl in Hl; lia).
    rewrite <- (stem_suffix p) at 1. by rewrite drop_last_app.
Qed.

Lemma with_name_ok p nm :
  name p ≠ ""%string → (2 <= String.length nm)%nat →
  with_name p nm = Some (join (parent p) nm).
Proof.
  intros Hn Hl. unfold with_name. rewrite (eqb_empty_false _ Hn).
  assert (String.eqb nm "" = false) as ->
    by (apply String.eqb_neq; intros ->; simpl in Hl; lia).
  assert (String.eqb nm "." = false) as ->
    by (apply String.eqb_neq; intros ->; simpl in Hl; lia).
  done.
Qed.

Lemma png_listed : ".png"%string ∈ Gather.IMG_EXTS.
Proof. apply (bool_decide_eq_true_1 _). vm_compute. reflexivity. Qed.

End PathlibFacts.

Section MaskDestination.
Import Fs Pathlib BinarizerRun.

(** The destination in closed form. *)
Lemma png_destination_closed (p : path) :
  name p ≠ ""%string →
  let masked :=
    if PyStr.endswith (stem p) Binarizer.MASK_SUFFIX then stem p
    else (stem p ++ Binarizer.MASK_SUFFIX)%string in
  let dst := join (parent p) (masked ++ ".png") in
  png_destination p = Some dst
  ∧ suffix dst = ".png"%string
  ∧ stem dst = masked
  ∧ PyStr.endswith (stem dst) Binarizer.MASK_SUFFIX = true
  ∧ png_destination dst = Some dst.
Proof.
  intros Hn masked dst.
  assert (Hm : masked ≠ ""%string).
  { unfold masked. pose proof (stem_nonempty p Hn) as Hs.
    destruct (PyStr.endswith _ _); [done|]. destruct (stem p); done. }
  assert (Hend : PyStr.endswith masked Binarizer.MASK_SUFFIX = true).
  { unfold masked. destruct (PyStr.endswith (stem p) _) eqn:E; [done|].
    apply endswith_app. }
  destruct (split_built_name (parent p) masked ".png" Hm png_listed)
    as [Hstem Hsuf]. fold dst in Hstem, Hsuf.
  assert (Hdst : png_destination p = Some dst).
  { unfold png_destination. rewrite (with_suffix_png p Hn).
    cbn [mbind option_bind].
    destruct (split_built_name (parent p) (stem p) ".png"
                (stem_nonempty p Hn) png_listed) as [Hs1 Hx1].
    rewrite Hs1. unfold dst, masked.
    destruct (PyStr.endswith (stem p) Binarizer.MASK_SUFFIX); cbn [negb].
    - done.
    - unfold with_stem. rewrite Hx1, with_name_ok.
      + by rewrite parent_join, str_app_assoc.
      + rewrite name_join. by destruct (stem p).
      + rewrite !str_length_app. simpl. lia. }
  split; [done|]. split; [done|]. split; [done|].
  split; [by rewrite Hstem|].
  assert (Hnd : name dst ≠ ""%string).
  { unfold dst. rewrite name_join. intros E.
    apply (f_equal String.length) in E. rewrite str_length_app in E.
    simpl in E. lia. }
  unfold png_destination. rewrite (with_suffix_png dst Hnd).
  assert (Hpd : parent dst = parent p) by apply parent_join.
  cbn [mbind option_bind]. rewrite Hstem, Hpd. fold dst.
  by rewrite Hstem, Hend.
Qed.

Lemma png_destination_some p dst :
  png_destination p = Some dst → name p ≠ ""%string.
Proof.
  unfold png_destination, with_suffix. intros H Hn. rewrite Hn in H.
  cbn [String.eqb] in H.
  destruct (_ || _)%bool in H; done.
Qed.

Lemma png_destination_suffix p dst :
  png_destination p = Some dst →
  suffix dst = ".png"%string
  ∧ PyStr.endswith (stem dst) Binarizer.MASK_SUFFIX = true
  ∧ png_destination dst = Some dst.
Proof.
  intros H. pose proof (png_destination_some _ _ H) as Hn.
  destruct (png_destination_closed p Hn) as (H1 & H2 & _ & H3 & H4).
  rewrite H1 in H. injection H as <-. done.
Qed.

(** X12. Where [--out-png] writes a mask.  For a path with a name, the
    destination lies in the same folder and is named after the stem alone:
    the stem, followed by [_mask] unless it ends with it already, followed
    by [.png].  So the destination has suffix [.png] and a stem ending with
    [_mask], the extension of the source plays no part, and a destination
    is its own destination: a second run writes the same files. *)
Theorem png_destination_name (p : path) :
  name p ≠ ""%string →
  let masked :=
    if PyStr.endswith (stem p) Binarizer.MASK_SUFFIX then stem p
    else (stem p ++ Binarizer.MASK_SUFFIX)%string in
  let dst := join (parent p) (masked ++ ".png") in
  png_destination p = Some dst
  ∧ suffix dst = ".png"%string
  ∧ stem dst = masked
  ∧ PyStr.endswith (stem dst) Binarizer.MASK_SUFFIX = true
  ∧ png_destination dst = Some dst.
Proof. apply png_destination_closed. Qed.

Lemma png_destination_name_witness :
  png_destination ["m"; "Scan.01.JPG"]%string
  = Some ["m"; "Scan.01_mask.png"]%string.
Proof.
  refine (proj1 (png_destination_name ["m"; "Scan.01.JPG"]%string _)).
  vm_compute. discriminate.
Defined.

End MaskDestination.

(* ===================================================================== *)
(** * The binarizer on files *)
(* ===================================================================== *)

Section BinarizerRunFacts.
Import Fs Pathlib BinarizerRun.

Variable decode : string → option Binarizer.buffer.
Variable encode : string → Binarizer.buffer → option string.

Implicit Types (s : fs) (p q d : path).

Lemma is_file_in_store s q : is_file s q = true → q ∈ map fst s.
Proof.
  unfold is_file, lookup.
  destruct (List.find _ s) as [[r n]|] eqn:Hf; [|done].
  intros _. apply find_some in Hf as [Hin Heq]. simpl in Heq.
  apply path_eqb_true in Heq. subst r.
  apply list_elem_of_In, in_map_iff. by exists (q, n).
Qed.

Lemma elem_of_mask_files s d q :
  q ∈ Binarizer.mask_files s d ↔
  below d q = true
  ∧ PyStr.lower (suffix q) ∈ Binarizer.IMG_EXTS
  ∧ is_file s q = true.
Proof.
  unfold Binarizer.mask_files, rglob. rewrite !elem_of_filter_bool.
  rewrite andb_true_iff, bool_decide_eq_true. split.
  - intros [[_ Hb] [He Hf]]. done.
  - intros (Hb & He & Hf). split; [|done]. split; [|done].
    by apply is_file_in_store.
Qed.

(** The first steps of [process_mask_file] on a file that decodes. *)
Lemma process_read s p out_png dry_run data arr :
  read s p = Some data → decode data = Some arr →
  process_mask_file decode encode s p out_png dry_run
  = let out := [Ok (name p) (Binarizer.np_unique arr)
                   (Binarizer.np_unique (Binarizer.binarize arr))] in
    if dry_run then (None, s, out)
    else if out_png then
      match png_destination p with
      | Some dst =>
          match save encode s dst (Binarizer.binarize arr) with
          | (None, s1) =>
              if negb (path_eqb dst p)
              then (None,
                    match unlink s1 p with
                    | Some s2 => s2
                    | None => s1
                    end, out)
              else (None, s1, out)
          | (Some e, s1) => (Some e, s1, out)
          end
      | None => (Some ValueError, s, out)
      end
    else
      let '(st, s1) := save encode s p (Binarizer.binarize arr) in
      (st, s1, out).
Proof.
  unfold read, process_mask_file.
  destruct (lookup s p) as [[|d|ino d]|]; try done;
    intros [= ->] ->; reflexivity.
Qed.

(** A call that prints has read a file that decodes. *)
Lemma process_returns_read s p out_png dry_run s1 o :
  process_mask_file decode encode s p out_png dry_run = (None, s1, o) →
  ∃ data arr, read s p = Some data ∧ decode data = Some arr.
Proof.
  unfold read, process_mask_file.
  destruct (lookup s p) as [[|d|ino d]|]; try done;
    (destruct (decode d) as [arr|] eqn:Hd; [|done]); intros _;
    by exists d, arr.
Qed.

(** One file in the [out_png] branch: how the call ends and the store it
    leaves. *)
Lemma process_png_run s p data arr dst :
  read s p = Some data → decode data = Some arr →
  png_destination p = Some dst →
  process_mask_file decode encode s p true false
  = let out := [Ok (name p) (Binarizer.np_unique arr)
                   (Binarizer.np_unique (Binarizer.binarize arr))] in
    match encode ".png" (Binarizer.binarize arr) with
    | None => (Some ValueError, s, out)
    | Some bytes =>
        if is_dir s dst then (Some IsADirectoryError, s, out)
        else (None,
              if path_eqb dst p then Gather.write_file s dst bytes
              else List.filter (fun e => negb (path_eqb e.1 p))
                               (Gather.write_file s dst bytes),
              out)
    end.
Proof.
  intros Hp Hd Hdst. rewrite (process_read _ _ _ _ _ _ Hp Hd).
  cbn zeta. cbn [negb]. rewrite Hdst.
  destruct (png_destination_suffix _ _ Hdst) as (Hsuf & _).
  unfold save. rewrite Hsuf. change (PyStr.lower ".png") with ".png"%string.
  destruct (encode ".png" _) as [bytes|]; [|done].
  destruct (is_dir s dst) eqn:Hdir; [done|].
  destruct (path_eqb dst p) eqn:E; cbn [negb]; [done|].
  apply path_eqb_false in E. unfold unlink.
  rewrite is_file_write_file by done.
  destruct (read_lookup _ _ _ Hp) as (n & _ & _ & ->). done.
Qed.

(** What a call in the [out_png] branch that returns has done. *)
Lemma process_png_returns s p s1 o :
  process_mask_file decode encode s p true false = (None, s1, o) →
  ∃ dst arr bytes,
    png_destination p = Some dst
    ∧ encode ".png" (Binarizer.binarize arr) = Some bytes
    ∧ is_dir s dst = false
    ∧ read s1 dst = Some bytes
    ∧ (dst ≠ p → lookup s1 p = None)
    ∧ (∀ q, q ≠ p → is_file s1 q = is_file s q || path_eqb q dst)
    ∧ (∀ q, q ≠ p → read s1 q = read s q ∨ read s1 q = Some bytes)
    ∧ (∀ q, q ≠ dst → q ≠ p → samefile s dst q = true →
            read s1 q = Some bytes)
    ∧ (∀ q, q ≠ dst → q ≠ p → samefile s dst q = false →
            lookup s1 q = lookup s q).
Proof.
  intros Hrun.
  destruct (process_returns_read _ _ _ _ _ _ Hrun) as (data & arr & Hp & Hd).
  destruct (png_destination p) as [dst|] eqn:Hdst;
    [|rewrite (process_read _ _ _ _ _ _ Hp Hd) in Hrun; cbn zeta in Hrun;
      cbn [negb] in Hrun; rewrite Hdst in Hrun; done].
  rewrite (process_png_run s p data arr dst Hp Hd Hdst) in Hrun.
  cbn zeta in Hrun.
  destruct (encode ".png" _) as [bytes|] eqn:He; [|done].
  destruct (is_dir s dst) eqn:Hdir; [done|].
  injection Hrun as <- _. exists dst, arr, bytes.
  split; [done|]. split; [done|]. split; [done|].
  destruct (path_eqb dst p) eqn:E.
  - apply path_eqb_true in E. subst dst.
    split; [apply read_write_file_eq|]. split; [done|].
    split; [intros q _; by apply is_file_write_file|].
    split; [intros q _; apply read_write_file|].
    split; [intros q Hq _ Hs; by apply read_write_file_alias|].
    intros q Hq _ Hs. by apply lookup_write_file_other.
  - apply path_eqb_false in E.
    assert (Hf : ∀ q, q ≠ p →
              lookup (List.filter (fun e => negb (path_eqb e.1 p))
                                  (Gather.write_file s dst bytes)) q
              = lookup (Gather.write_file s dst bytes) q)
      by (intros q Hq; by apply lookup_filter_ne).
    split.
    { unfold read. rewrite Hf by done. apply read_write_file_eq. }
    split; [intros _; apply lookup_filter_eq|].
    split.
    { intros q Hq. unfold is_file. rewrite Hf by done.
      by apply is_file_write_file. }
    split.
    { intros q Hq. unfold read. rewrite Hf by done.
      apply read_write_file. }
    split.
    { intros q Hq1 Hq2 Hs. unfold read. rewrite Hf by done.
      by apply read_write_file_alias. }
    intros q Hq1 Hq2 Hs. rewrite Hf by done.
    by apply lookup_write_file_other.
Qed.

Lemma process_all_png_normalises d files :
  ∀ s out s' out',
    (∀ q, q ∈ Binarizer.mask_files s d →
          q ∈ files ∨ Vocabulary.normalised encode s q) →
    process_all decode encode s files true false out = (None, s', out') →
    ∀ q, q ∈ Binarizer.mask_files s' d → Vocabulary.normalised encode s' q.
Proof.
  induction files as [|p rest IH]; intros s out s' out' Hinv; simpl.
  - intros [= <- _] q Hq. destruct (Hinv q Hq) as [Hin|Hn]; [|done].
    by apply elem_of_nil in Hin.
  - destruct (process_mask_file decode encode s p true false)
      as [[[e|] s1] o] eqn:Hstep; [done|].
    apply process_png_returns in Hstep
      as (dst & arr & bytes & Hdst & Henc & _ & Hl1 & Hl2 & Hfile & Hread
          & _ & _).
    apply IH. intros q Hq.
    apply elem_of_mask_files in Hq as (Hb & He & Hf).
    destruct (decide (q = dst)) as [->|Hqd].
    { right. destruct (png_destination_suffix _ _ Hdst) as (H1 & H2 & _).
      split; [done|]. split; [done|]. by exists arr, bytes. }
    destruct (decide (q = p)) as [->|Hqp].
    { unfold is_file in Hf. rewrite Hl2 in Hf by done. done. }
    rewrite Hfile in Hf by done.
    replace (path_eqb q dst) with false in Hf
      by (symmetry; by apply path_eqb_false).
    rewrite orb_false_r in Hf.
    destruct (Hinv q) as [Hin|(H1 & H2 & a & b & H3 & H4)].
    + by apply elem_of_mask_files.
    + left. apply elem_of_cons in Hin as [?|?]; done.
    + right. split; [done|]. split; [done|].
      destruct (Hread q Hqp) as [Hsame|Hnew].
      * exists a, b. by rewrite Hsame.
      * by exists arr, bytes.
Qed.

(** One file without [--out-png]: the store keeps its names, and what
    they name; only the file read changes, under all its names. *)
Lemma process_in_place s p dry_run st s1 o :
  process_mask_file decode encode s p false dry_run = (st, s1, o) →
  map fst s1 = map fst s
  ∧ (∀ q, is_dir s1 q = is_dir s q)
  ∧ (∀ a b, samefile s1 a b = samefile s a b)
  ∧ (∀ q, q ≠ p → samefile s p q = false → lookup s1 q = lookup s q)
  ∧ (dry_run = true → s1 = s).
Proof.
  destruct (read s p) as [data|] eqn:Hp.
  - destruct (decode data) as [arr|] eqn:Hd.
    + rewrite (process_read _ _ _ _ _ _ Hp Hd). cbn zeta.
      destruct dry_run; [intros [= _ <- _]; done|].
      destruct (read_lookup _ _ _ Hp) as (n & Hl & Hnd & Hf).
      unfold save. destruct (encode _ _) as [bytes|];
        [|intros [= _ <- _]; done].
      rewrite Hnd. intros [= _ <- _].
      assert (He : exists_ s p = true) by (unfold exists_; by rewrite Hl).
      split; [by apply map_fst_write_existing|].
      split; [intros q; by apply is_dir_write_file|].
      split; [intros a b; by apply samefile_write_file|].
      split; [|done]. intros q Hq Hs. by apply lookup_write_file_other.
    + unfold read, process_mask_file in *.
      destruct (lookup s p) as [[|d|ino d]|]; try done;
        injection Hp as ->; rewrite Hd; intros [= _ <- _]; done.
  - unfold read, process_mask_file in *.
    destruct (lookup s p) as [[|d|ino d]|]; try done;
      intros [= _ <- _]; done.
Qed.

Lemma process_all_in_place files dry_run :
  ∀ s out st s' out',
    process_all decode encode s files false dry_run out = (st, s', out') →
    map fst s' = map fst s
    ∧ (∀ q, is_dir s' q = is_dir s q)
    ∧ (∀ a b, samefile s' a b = samefile s a b)
    ∧ (∀ q, (∀ f, f ∈ files → q ≠ f ∧ samefile s f q = false) →
            lookup s' q = lookup s q).
Proof.
  induction files as [|p rest IH]; intros s out st s' out'; simpl.
  - intros [= _ <- _]. done.
  - destruct (process_mask_file decode encode s p false dry_run)
      as [[[e|] s1] o] eqn:Hstep;
      apply process_in_place in Hstep as (H1 & H2 & H3 & H4 & _).
    + intros [= _ <- _]. split; [done|]. split; [done|]. split; [done|].
      intros q Hq. destruct (Hq p) as [Hne Hs]; [by left|]. by apply H4.
    + intros Hrest. apply IH in Hrest as (R1 & R2 & R3 & R4).
      split; [congruence|]. split; [intros q; by rewrite R2|].
      split; [intros a b; by rewrite R3|].
      intros q Hq. rewrite R4.
      * destruct (Hq p) as [Hne Hs]; [by left|]. by apply H4.
      * intros f Hf. destruct (Hq f) as [Hne Hs]; [by right|].
        by rewrite H3.
Qed.

Lemma process_dry s p out_png st1 s1 o :
  process_mask_file decode encode s p out_png true = (st1, s1, o) → s1 = s.
Proof.
  unfold process_mask_file.
  destruct (lookup s p) as [[|data|ino data]|]; try by intros [= _ <- _].
  - destruct (decode data); by intros [= _ <- _].
  - destruct (decode data); by intros [= _ <- _].
Qed.

Lemma process_all_dry files out_png :
  ∀ s out st s' out',
    process_all decode encode s files out_png true out = (st, s', out') →
    s' = s.
Proof.
  induction files as [|p rest IH]; intros s out st s' out'; simpl.
  - by intros [= _ <- _].
  - destruct (process_mask_file decode encode s p out_png true)
      as [[[e|] s1] o] eqn:E; apply process_dry in E; subst s1.
    + by intros [= _ <- _].
    + apply IH.
Qed.

(** X13. One mask under [--out-png].  When the file decodes, Pillow can
    write PNG and the destination is not a directory, the call returns
    after printing its line; the destination then holds the encoded
    binarized array, whatever was there before, and so does every other
    name of the destination's file (a hard link); the source is gone
    unless it is the destination; every path that is none of these is as
    it was. *)
Theorem process_mask_file_writes_png s p data arr dst bytes :
  read s p = Some data →
  decode data = Some arr →
  png_destination p = Some dst →
  encode ".png" (Binarizer.binarize arr) = Some bytes →
  is_dir s dst = false →
  ∃ s',
    process_mask_file decode encode s p true false
    = (None, s', [Ok (name p) (Binarizer.np_unique arr)
                     (Binarizer.np_unique (Binarizer.binarize arr))])
    ∧ read s' dst = Some bytes
    ∧ (dst ≠ p → lookup s' p = None)
    ∧ (∀ q, q ≠ dst → q ≠ p → samefile s dst q = true →
            read s' q = Some bytes)
    ∧ (∀ q, q ≠ dst → q ≠ p → samefile s dst q = false →
            lookup s' q = lookup s q).
Proof.
  intros Hp Hd Hdst Henc Hdir.
  pose proof (process_png_run s p data arr dst Hp Hd Hdst) as Hrun.
  cbn zeta in Hrun. rewrite Henc, Hdir in Hrun.
  eexists. split; [exact Hrun|].
  destruct (process_png_returns _ _ _ _ Hrun)
    as (dst' & arr' & bytes' & Hdst' & _ & _ & Hr & Hl2 & _ & _ & Ha & Hl3).
  assert (dst' = dst) as -> by congruence.
  assert (bytes' = bytes) as ->.
  { destruct (path_eqb dst p) eqn:E.
    - rewrite read_write_file_eq in Hr. congruence.
    - apply path_eqb_false in E. unfold read in Hr.
      rewrite lookup_filter_ne in Hr by done.
      fold (read (Gather.write_file s dst bytes) dst) in Hr.
      rewrite read_write_file_eq in Hr. congruence. }
  done.
Qed.

(** X14. Without [--out-png] the run rewrites files where they are: however
    it ends, the store lists the same paths in the same order, the
    directories are the same, and every path that is neither a listed mask
    file nor another name of one (a hard link) holds what it held.
    Nothing is created, removed or renamed. *)
Theorem main_in_place_keeps_paths s d dry_run st s' out :
  main decode encode s d false dry_run = (st, s', out) →
  map fst s' = map fst s
  ∧ (∀ q, is_dir s' q = is_dir s q)
  ∧ (∀ q, (∀ f, f ∈ Binarizer.mask_files s d →
                q ≠ f ∧ samefile s f q = false) →
          lookup s' q = lookup s q).
Proof.
  unfold main. destruct (negb (is_dir s d)); [by intros [= _ <- _]|].
  destruct (Binarizer.mask_files s d) as [|p rest] eqn:Hfiles;
    [by intros [= _ <- _]|].
  destruct (process_all _ _ _ _ _ _ _) as [[[e|] s1] o] eqn:Hall;
    intros [= _ <- _];
    apply process_all_in_place in Hall as (H1 & H2 & _ & H4); done.
Qed.

(** X15. A dry run changes nothing in the store, with or without
    [--out-png] and also when it stops at a file that does not decode. *)
Theorem main_dry_run_keeps_store s d out_png st s' out :
  main decode encode s d out_png true = (st, s', out) → s' = s.
Proof.
  unfold main. destruct (negb (is_dir s d)); [by intros [= _ <- _]|].
  destruct (Binarizer.mask_files s d) as [|p rest] eqn:Hfiles;
    [by intros [= _ <- _]|].
  destruct (process_all _ _ _ _ _ _ _) as [[[e|] s1] o] eqn:Hall;
    intros [= _ <- _]; by apply process_all_dry in Hall.
Qed.

(** X16. A completed [--out-png] run normalises the folder: every file it
    would list afterwards is named [*_mask.png] and holds the encoding of a
    binarized array.  No listed file keeps another extension or a stem
    without [_mask]. *)
Theorem main_out_png_normalises s d s' out :
  main decode encode s d true false = (None, s', out) →
  ∀ q, q ∈ Binarizer.mask_files s' d → Vocabulary.normalised encode s' q.
Proof.
  unfold main. destruct (negb (is_dir s d)); [done|].
  destruct (Binarizer.mask_files s d) as [|p rest] eqn:Hfiles.
  - intros [= <- _] q Hq. rewrite Hfiles in Hq. by apply elem_of_nil in Hq.
  - destruct (process_all _ _ _ _ _ _ _) as [[[e|] s1] o] eqn:Hall; [done|].
    intros [= <- _]. eapply process_all_png_normalises; [|exact Hall].
    intros q Hq. left. by rewrite <- Hfiles.
Qed.

End BinarizerRunFacts.

Section BinarizerRunWitnesses.
Import Fs Pathlib BinarizerRun Vocabulary.

Lemma surjective_pairing_3 {A B C} (r : A * B * C) :
  r = (r.1.1, r.1.2, r.2).
Proof. by destruct r as [[? ?] ?]. Qed.

Lemma process_mask_file_writes_png_witness :
  ∃ s', read s' ["m"; "a_mask.png"]%string
        = Some (String (ascii_of_nat 255) (String (ascii_of_nat 255) ""))
        ∧ lookup s' ["m"; "a.jpg"]%string = None.
Proof.
  assert (H1 : read masks_folder ["m"; "a.jpg"]%string = Some "ab"%string)
    by (vm_compute; reflexivity).
  assert (H2 : raw_decode "ab" = Some [[97; 98]])
    by (vm_compute; reflexivity).
  assert (H3 : png_destination ["m"; "a.jpg"]%string
               = Some ["m"; "a_mask.png"]%string)
    by (vm_compute; reflexivity).
  assert (H4 : raw_encode ".png" (Binarizer.binarize [[97; 98]])
               = Some (String (ascii_of_nat 255)
                         (String (ascii_of_nat 255) "")))
    by (vm_compute; reflexivity).
  assert (H5 : is_dir masks_folder ["m"; "a_mask.png"]%string = false)
    by (vm_compute; reflexivity).
  destruct (process_mask_file_writes_png raw_decode raw_encode masks_folder
              _ _ _ _ _ H1 H2 H3 H4 H5)
    as (s' & _ & Hdst & Hsrc & _).
  exists s'. split; [exact Hdst|]. apply Hsrc. discriminate.
Defined.

Lemma main_in_place_keeps_paths_witness :
  map fst (main raw_decode raw_encode linked_masks ["out"]%string
             false false).1.2
  = map fst linked_masks.
Proof.
  refine (proj1 (main_in_place_keeps_paths raw_decode raw_encode
                   linked_masks ["out"]%string false _ _ _ _)).
  apply surjective_pairing_3.
Defined.

(** The in-place run reaches the other names of a file: rewriting the
    merged copy rewrites the raw mask it is a hard link of. *)
Lemma in_place_run_reaches_links :
  read linked_masks ["raw"; "m.jpg"]%string = Some "ab"%string
  ∧ read (main raw_decode raw_encode linked_masks ["out"]%string
            false false).1.2 ["raw"; "m.jpg"]%string
    = Some (String (ascii_of_nat 255) (String (ascii_of_nat 255) "")).
Proof. split; vm_compute; reflexivity. Qed.

Lemma main_dry_run_keeps_store_witness :
  (main raw_decode raw_encode masks_folder ["m"]%string true true).1.2
  = masks_folder.
Proof.
  refine (main_dry_run_keeps_store raw_decode raw_encode
            masks_folder ["m"]%string true _ _ _ _).
  apply surjective_pairing_3.
Defined.

Lemma main_out_png_normalises_witness :
  ∃ s' out,
    main raw_decode raw_encode masks_folder ["m"]%string true false
    = (None, s', out)
    ∧ Binarizer.mask_files s' ["m"]%string
      = [["m"; "b_mask.png"]%string; ["m"; "a_mask.png"]%string]
    ∧ normalised raw_encode s' ["m"; "a_mask.png"]%string.
Proof.
  eexists. eexists. split; [vm_compute; reflexivity|].
  split; [vm_compute; reflexivity|].
  eapply (main_out_png_normalises raw_decode raw_encode masks_folder
            ["m"]%string).
  - vm_compute. reflexivity.
  - apply (bool_decide_eq_true_1 _). vm_compute. reflexivity.
Defined.

End BinarizerRunWitnesses.

(* ===================================================================== *)
(** * How far the content spans the canvas *)
(* ===================================================================== *)



(** X18.  An image with the aspect ratio of the target fills the canvas:
    when [W * h = H * w], for dimensions from 1 up to [2^50], the content is
    resized to exactly [W] by [H] and no bar is left. *)
Theorem same_aspect_fills_canvas (w h W H : Z) :
  Spec.dim w → Spec.dim h → Spec.dim W → Spec.dim H →
  W * h = H * w →
  Resize.new_dims w h W H = Some (W, H).
Proof.
  intros Hw Hh HW HH Hratio.
  destruct (int_true_div_bounds W w HW Hw)
    as (m1 & e1 & Hsw & Hc1 & He1 & Hu1 & Hl1).
  destruct (int_true_div_bounds H h HH Hh)
    as (m2 & e2 & Hsh & Hc2 & He2 & Hu2 & Hl2).
  assert (Hsame : (IZR W / IZR w = IZR H / IZR h)%R).
  { assert (0 < IZR w)%R by (apply IZR_lt; destruct Hw; lia).
    assert (0 < IZR h)%R by (apply IZR_lt; destruct Hh; lia).
    apply (f_equal IZR) in Hratio. rewrite !mult_IZR in Hratio.
    field_simplify_eq; [|lra]. lra. }
  unfold Resize.new_dims, Resize.scale_of. rewrite Hsw, Hsh.
  destruct (min_lower m1 e1 m2 e2 Hc1 Hc2) as [[Hmin _]|[Hmin _]];
    rewrite Hmin.
  - rewrite (rounded_exact w W m1 e1) by done.
    rewrite (rounded_exact h H m1 e1) by (try done; by rewrite <- Hsame).
    destruct HW, HH. f_equal. f_equal; lia.
  - rewrite (rounded_exact w W m2 e2) by (try done; by rewrite Hsame).
    rewrite (rounded_exact h H m2 e2) by done.
    destruct HW, HH. f_equal. f_equal; lia.
Qed.

Lemma same_aspect_fills_canvas_witness :
  Resize.new_dims 1920 1080 256 144 = Some (256, 144).
Proof.
  apply same_aspect_fills_canvas; unfold Spec.dim; lia.
Defined.

(* ===================================================================== *)
(** * The resize pass on files *)
(* ===================================================================== *)

Section StoreGrowth.
Import Fs Vocabulary.

Implicit Types (s : fs) (p q : path).

Lemma grows_refl s : grows s s.
Proof. intros p. done. Qed.

Lemma grows_trans s1 s2 s3 : grows s1 s2 → grows s2 s3 → grows s1 s3.
Proof.
  intros H1 H2 p. destruct (H1 p) as [A1 B1]. destruct (H2 p) as [A2 B2].
  split; intros H; [apply A2, A1 | apply B2, B1]; done.
Qed.

Lemma dirs_added_grows s s' : dirs_added s s' → grows s s'.
Proof.
  intros [ds ->] p. unfold is_dir, is_file.
  destruct (lookup_app_dirs s ds p) as [->|[-> ->]]; done.
Qed.

Lemma write_file_grows s dst bytes :
  is_dir s dst = false → grows s (Gather.write_file s dst bytes).
Proof.
  intros Hd p. rewrite is_dir_write_file, is_file_write_file by done.
  split; [done|]. intros ->. done.
Qed.

(** A write makes no two paths names of one file. *)
Lemma samefile_write_file_inv s dst data a b :
  a ≠ b →
  samefile (Gather.write_file s dst data) a b = true →
  samefile s a b = true.
Proof.
  intros Hne. rewrite !samefile_alt, !ino_of_write_file.
  replace (path_eqb a b) with false by (symmetry; by apply path_eqb_false).
  rewrite !andb_true_iff. intros [_ Hino]. cbn [orb] in *.
  unfold exists_, ino_of in *.
  destruct (lookup s a) as [[|?|i ?]|]; try done.
  destruct (lookup s b) as [[|?|j ?]|]; try done.
Qed.

Lemma mkdir_p_dirs_added s p b s1 :
  ResizeRun.mkdir_p s p = (b, s1) → dirs_added s s1.
Proof.
  unfold ResizeRun.mkdir_p, Gather.mkdir_parents.
  destruct (Gather.mkdir_chain p [] (Gather.World s [])) as [[u|e] w] eqn:E;
    intros [= _ <-];
    by apply made_dirs_mkdir_chain in E as [Hd _].
Qed.

End StoreGrowth.

Section ResizeRunFacts.
Import Fs Pathlib Vocabulary ResizeRun.

Variable pixel : Type.
Variable of_bands : list Z → pixel.
Variable fits : Z * Z → bool.
Variable kernel :
  Resize.resample → Resize.image pixel → Z * Z → option (Z → Z → pixel).
Variable load : string → option (Resize.image pixel).
Variable convert_L : Resize.image pixel → Resize.image pixel.
Variable encode : string → Resize.image pixel → save_outcome.

Implicit Types (s : fs) (p q src dst : path).

Abbreviation save := (ResizeRun.save pixel encode).
Abbreviation process_file :=
  (ResizeRun.process_file pixel of_bands fits kernel load convert_L encode).
Abbreviation process_files :=
  (ResizeRun.process_files pixel of_bands fits kernel load convert_L encode).
Abbreviation process_dir :=
  (ResizeRun.process_dir pixel of_bands fits kernel load convert_L encode).
Abbreviation main_half :=
  (ResizeRun.main_half pixel of_bands fits kernel load convert_L encode).
Abbreviation main := (ResizeRun.main pixel of_bands fits kernel load convert_L encode).

(** [save] writes at [dst] or nowhere, and never on a directory. *)
Lemma save_effect s dst im b s1 :
  save s dst im = (b, s1) →
  s1 = s
  ∨ (∃ bytes, is_dir s dst = false
              ∧ s1 = Gather.write_file s dst bytes
              ∧ (b = false → exists_ s dst = true)).
Proof.
  unfold ResizeRun.save. destruct (encode _ im) as [bytes| |partial].
  - destruct (is_dir s dst) eqn:Ed; cbn [orb]; [intros [= _ <-]; by left|].
    destruct (negb _); intros [= <- <-]; [by left|].
    right. exists bytes. done.
  - intros [= _ <-]. by left.
  - destruct (is_dir s dst) eqn:Ed; cbn [orb]; [intros [= _ <-]; by left|].
    destruct (negb _); [intros [= _ <-]; by left|].
    destruct (exists_ s dst) eqn:Ee; intros [= <- <-]; [|by left].
    right. exists partial. done.
Qed.

Lemma save_written s dst im s1 :
  save s dst im = (true, s1) →
  ∃ bytes, is_dir s dst = false ∧ s1 = Gather.write_file s dst bytes.
Proof.
  unfold ResizeRun.save. destruct (encode _ im) as [bytes| |partial].
  - destruct (is_dir s dst) eqn:Ed; cbn [orb]; [done|].
    destruct (negb _); [done|]. intros [= <-]. by exists bytes.
  - done.
  - destruct (is_dir s dst || _); [done|]. done.
Qed.

Lemma place_effect s in_dir out_dir src r s1 :
  place s in_dir out_dir src = (r, s1) →
  dirs_added s s1
  ∧ (out_dir = None → s1 = s ∧ r = Some src)
  ∧ (∀ o dst, out_dir = Some o → r = Some dst →
       ∃ rel, src = in_dir ++ rel ∧ dst = o ++ rel).
Proof.
  unfold place. destruct out_dir as [o|].
  - unfold relative_to.
    destruct (bool_decide (in_dir `prefix_of` src)) eqn:Hpre.
    + destruct (mkdir_p s _) as [[|] s2] eqn:Hmk; intros [= <- <-];
        (split; [by eapply mkdir_p_dirs_added|]); (split; [done|]).
      * intros o' dst [= <-] [= <-].
        apply bool_decide_eq_true in Hpre as [rel ->].
        exists rel. by rewrite drop_app_length.
      * done.
    + intros [= <- <-]. split; [apply dirs_added_refl|]. done.
  - intros [= <- <-]. split; [apply dirs_added_refl|]. done.
Qed.

(** One file: directories may be made for it, then at most one file is
    written, at the destination. *)
Lemma process_file_effect s in_dir out_dir size keep_aspect is_mask dry_run
  src b s' o :
  process_file s in_dir out_dir size keep_aspect is_mask dry_run src
  = (b, s', o) →
  ∃ s1, dirs_added s s1
        ∧ (out_dir = None → s1 = s)
        ∧ (s' = s1
           ∨ ∃ dst dst' bytes,
               dry_run = false
               ∧ place s in_dir out_dir src = (Some dst, s1)
               ∧ (if is_mask then with_suffix dst ".png" else Some dst)
                 = Some dst'
               ∧ is_dir s1 dst' = false
               ∧ s' = Gather.write_file s1 dst' bytes
               ∧ (b = false → exists_ s1 dst' = true)).
Proof.
  unfold ResizeRun.process_file.
  assert (Hskip : ∀ b' o', (b', s, o') = (b, s', o) →
            ∃ s1, dirs_added s s1 ∧ (out_dir = None → s1 = s)
                  ∧ (s' = s1 ∨ ∃ dst dst' bytes,
                       dry_run = false
                       ∧ place s in_dir out_dir src = (Some dst, s1)
                       ∧ (if is_mask then with_suffix dst ".png"
                          else Some dst) = Some dst'
                       ∧ is_dir s1 dst' = false
                       ∧ s' = Gather.write_file s1 dst' bytes
                       ∧ (b = false → exists_ s1 dst' = true))).
  { intros b' o' [= _ <- _]. exists s.
    split; [apply dirs_added_refl|]. split; [done|]. by left. }
  destruct (load_image _ _ _) as [im0|]; [|apply Hskip].
  destruct (transform _ _ _ _ _ _ _) as [out_img|]; [|apply Hskip].
  destruct (place s in_dir out_dir src) as [[dst|] s1] eqn:Hpl;
    pose proof (place_effect _ _ _ _ _ _ Hpl) as (Hd & Hnone & _).
  - destruct dry_run.
    { intros [= _ <- _]. exists s1. split; [done|]. split; [|by left].
      intros Ho. by apply Hnone. }
    destruct (if is_mask then _ else _) as [dst'|] eqn:Hdst.
    + destruct (save s1 dst' out_img) as [[|] s2] eqn:Hsave;
        intros [= <- <- _]; exists s1; (split; [done|]);
        (split; [intros Ho; by apply Hnone|]);
        destruct (save_effect _ _ _ _ _ Hsave)
          as [->|(bytes & Hnd & -> & Hex)]; try (by left);
        right; exists dst, dst', bytes; done.
    + intros [= _ <- _]. exists s1. split; [done|].
      split; [intros Ho; by apply Hnone|]. by left.
  - intros [= _ <- _]. exists s1. split; [done|].
    split; [intros Ho; by apply Hnone|]. by left.
Qed.

Lemma process_file_grows s in_dir out_dir size keep_aspect is_mask dry_run
  src b s' o :
  process_file s in_dir out_dir size keep_aspect is_mask dry_run src
  = (b, s', o) →
  grows s s' ∧ (dry_run = true → dirs_added s s').
Proof.
  intros Hrun. apply process_file_effect in Hrun
    as (s1 & Hd & _ & [->|(dst & dst' & bytes & Hdry & _ & _ & Hnd & -> & _)]).
  - split; [by apply dirs_added_grows | done].
  - split; [|by rewrite Hdry].
    eapply grows_trans; [by apply dirs_added_grows|].
    by apply write_file_grows.
Qed.

Lemma process_files_grows in_dir out_dir size keep_aspect is_mask dry_run
  files :
  ∀ s count skipped out count' skipped' s' out',
    process_files s in_dir out_dir size keep_aspect is_mask dry_run
                  files count skipped out
    = (count', skipped', s', out') →
    grows s s'
    ∧ (dry_run = true → dirs_added s s')
    ∧ (count' + skipped' = count + skipped + length files)%nat.
Proof.
  induction files as [|src rest IH];
    intros s count skipped out count' skipped' s' out'; simpl.
  - intros [= <- <- <- _]. split; [apply grows_refl|].
    split; [intros _; apply dirs_added_refl | lia].
  - destruct (process_file s in_dir out_dir size keep_aspect is_mask
                dry_run src) as [[[|] s1] o] eqn:Hstep;
      apply process_file_grows in Hstep as [Hg Hdry];
      intros Hrest; apply IH in Hrest as (Hg' & Hdry' & Hcount);
      (split; [by eapply grows_trans|]);
      (split; [intros Hd; eapply dirs_added_trans; [by apply Hdry|by apply Hdry'] | lia]).
Qed.

Lemma process_dir_grows s in_dir out_dir size keep_aspect is_mask dry_run
  count skipped s' out :
  process_dir s in_dir out_dir size keep_aspect is_mask dry_run
  = (count, skipped, s', out) →
  grows s s'
  ∧ (dry_run = true → dirs_added s s')
  ∧ (is_dir s in_dir = true →
     (count + skipped = length (Resize.files s in_dir))%nat).
Proof.
  unfold ResizeRun.process_dir. destruct (is_dir s in_dir); cbn [negb].
  - destruct (Resize.files s in_dir) as [|f fs'] eqn:Hfiles.
    + intros [= <- <- <- _]. split; [apply grows_refl|].
      split; [intros _; apply dirs_added_refl | done].
    + intros Hrun. apply process_files_grows in Hrun as (Hg & Hd & Hc).
      split; [done|]. split; [done|]. intros _. exact Hc.
  - intros [= <- <- <- _]. split; [apply grows_refl|].
    split; [intros _; apply dirs_added_refl | done].
Qed.

Lemma main_half_grows s dir out_dir size keep_aspect is_mask dry_run
  st counts s' out :
  main_half s dir out_dir size keep_aspect is_mask dry_run
  = (st, counts, s', out) →
  grows s s' ∧ (dry_run = true → dirs_added s s').
Proof.
  unfold ResizeRun.main_half. destruct dir as [d|].
  - destruct (match out_dir with Some o => mkdir_p s o | None => (true, s) end)
      as [made s1] eqn:Hmk.
    assert (Hd1 : dirs_added s s1).
    { destruct out_dir as [o|].
      - by eapply mkdir_p_dirs_added.
      - injection Hmk as _ <-. apply dirs_added_refl. }
    destruct made.
    + destruct (process_dir s1 d out_dir (size, size) keep_aspect is_mask
                  dry_run) as [[[done skip] s2] o2] eqn:Hpd.
      apply process_dir_grows in Hpd as (Hg & Hd & _).
      intros [= _ _ <- _]. split.
      * eapply grows_trans; [by apply dirs_added_grows | done].
      * intros Hdry. eapply dirs_added_trans; [done | by apply Hd].
    + intros [= _ _ <- _]. split; [by apply dirs_added_grows | done].
  - intros [= _ _ <- _]. split; [apply grows_refl|].
    intros _. apply dirs_added_refl.
Qed.

Lemma with_suffix_png_spec p d :
  with_suffix p ".png" = Some d →
  suffix d = ".png"%string ∧ stem d = stem p ∧ parent d = parent p.
Proof.
  intros H.
  assert (Hn : name p ≠ ""%string).
  { intros Hn. unfold with_suffix in H. rewrite Hn in H.
    cbn [String.eqb] in H. destruct (_ || _)%bool in H; done. }
  rewrite (with_suffix_png p Hn) in H. injection H as <-.
  destruct (split_built_name (parent p) (stem p) ".png"
              (stem_nonempty p Hn) png_listed) as [Hs Hx].
  split; [done|]. split; [done|]. apply parent_join.
Qed.

(** One mask resized in place: what neither ends in [.png] nor is
    another name of a file with such a name is as it was, and stays apart
    from those files. *)
Lemma process_mask_in_place s in_dir size keep_aspect dry_run src b s' o :
  process_file s in_dir None size keep_aspect true dry_run src
  = (b, s', o) →
  ∀ q, suffix q ≠ ".png"%string →
       (∀ d, suffix d = ".png"%string → samefile s d q = false) →
       lookup s' q = lookup s q
       ∧ (∀ d, suffix d = ".png"%string → samefile s' d q = false).
Proof.
  intros Hrun q Hq Hapart. apply process_file_effect in Hrun
    as (s1 & _ & Hs1 & [->|(dst & dst' & bytes & _ & _ & Hdst & _ & -> & _)]).
  - by rewrite Hs1.
  - rewrite Hs1 by done.
    apply with_suffix_png_spec in Hdst as (Hsuf & _).
    split.
    + apply lookup_write_file_other; [intros ->; done | by apply Hapart].
    + intros d Hd.
      destruct (samefile (Gather.write_file s dst' bytes) d q) eqn:E;
        [|done].
      apply samefile_write_file_inv in E; [|intros ->; done].
      by rewrite Hapart in E.
Qed.

Lemma process_masks_in_place in_dir size keep_aspect dry_run files :
  ∀ s count skipped out count' skipped' s' out',
    process_files s in_dir None size keep_aspect true dry_run
                  files count skipped out
    = (count', skipped', s', out') →
    ∀ q, suffix q ≠ ".png"%string →
         (∀ d, suffix d = ".png"%string → samefile s d q = false) →
         lookup s' q = lookup s q.
Proof.
  induction files as [|src rest IH];
    intros s count skipped out count' skipped' s' out'; simpl.
  - by intros [= _ _ <- _].
  - destruct (process_file s in_dir None size keep_aspect true
                dry_run src) as [[[|] s1] o] eqn:Hstep;
      intros Hrest q Hq Hapart;
      destruct (process_mask_in_place _ _ _ _ _ _ _ _ _ Hstep q Hq Hapart)
        as [Hsame Hapart'];
      rewrite (IH _ _ _ _ _ _ _ _ Hrest q Hq Hapart'); exact Hsame.
Qed.

(** A dry run without an output folder leaves the store as it is. *)
Lemma process_files_dry_in_place in_dir size keep_aspect is_mask files :
  ∀ s count skipped out count' skipped' s' out',
    process_files s in_dir None size keep_aspect is_mask true
                  files count skipped out
    = (count', skipped', s', out') →
    s' = s.
Proof.
  induction files as [|src rest IH];
    intros s count skipped out count' skipped' s' out'; simpl.
  - by intros [= _ _ <- _].
  - assert (Hstep : ∀ b s1 o,
              process_file s in_dir None size keep_aspect is_mask true src
              = (b, s1, o) → s1 = s).
    { intros b s1 o Hrun. apply process_file_effect in Hrun
        as (s2 & _ & Hs2 & [->|(? & ? & ? & ? & _)]); [by apply Hs2 | done]. }
    destruct (process_file s in_dir None size keep_aspect is_mask
                true src) as [[[|] s1] o] eqn:E.
    + pose proof (process_file_effect _ _ _ _ _ _ _ _ _ _ _ E)
        as (s2 & _ & Hs2 & [->|(? & ? & ? & ? & _)]); [|done].
      rewrite Hs2 by done. apply IH.
    + pose proof (process_file_effect _ _ _ _ _ _ _ _ _ _ _ E)
        as (s2 & _ & Hs2 & [->|(? & ? & ? & ? & _)]); [|done].
      rewrite Hs2 by done. apply IH.
Qed.

Lemma main_half_dry_in_place s dir size keep_aspect is_mask st counts s' out :
  main_half s dir None size keep_aspect is_mask true
  = (st, counts, s', out) → s' = s.
Proof.
  unfold ResizeRun.main_half. destruct dir as [d|]; [|by intros [= _ _ <- _]].
  destruct (process_dir s d None (size, size) keep_aspect is_mask true)
    as [[[done skip] s2] o2] eqn:Hpd.
  intros [= _ _ <- _]. unfold ResizeRun.process_dir in Hpd.
  destruct (negb (is_dir s d)); [by injection Hpd as _ _ <- _|].
  destruct (Resize.files s d); [by injection Hpd as _ _ <- _|].
  by apply process_files_dry_in_place in Hpd.
Qed.

(** A counted file of a real run has been written. *)
Lemma process_file_counted s in_dir out_dir size keep_aspect is_mask
  src s' o :
  process_file s in_dir out_dir size keep_aspect is_mask false src
  = (true, s', o) →
  ∃ dst s1 dst' bytes,
    place s in_dir out_dir src = (Some dst, s1)
    ∧ (if is_mask then with_suffix dst ".png" else Some dst) = Some dst'
    ∧ s' = Gather.write_file s1 dst' bytes.
Proof.
  unfold ResizeRun.process_file.
  destruct (load_image _ _ _) as [im0|]; [|done].
  destruct (transform _ _ _ _ _ _ _) as [out_img|]; [|done].
  destruct (place s in_dir out_dir src) as [[dst|] s1] eqn:Hpl; [|done].
  destruct (if is_mask then _ else _) as [dst'|] eqn:Hdst; [|done].
  destruct (save s1 dst' out_img) as [[|] s2] eqn:Hsave; [|done].
  intros [= <- _]. apply save_written in Hsave as (bytes & _ & ->).
  by exists dst, s1, dst', bytes.
Qed.

(** X19. The resize pass removes nothing: however [main] ends, every
    directory of the store is still a directory and every file still a
    file.  (Files are overwritten, never deleted; an original that is
    written under another name stays.) *)
Theorem resize_removes_nothing s img_dir mask_dir out_img out_mask size
  keep_aspect dry_run st s' out :
  main s img_dir mask_dir out_img out_mask size keep_aspect dry_run
  = (st, s', out) →
  grows s s'.
Proof.
  unfold ResizeRun.main.
  assert (Hrun :
    match main_half s img_dir out_img size keep_aspect false dry_run with
    | (None, (d1, k1), s1, o1) =>
        match main_half s1 mask_dir out_mask size keep_aspect true dry_run
        with
        | (None, (d2, k2), s2, o2) =>
            (None, s2, o1 ++ o2 ++ [Summary (d1 + d2) (k1 + k2)])
        | (Some e, _, s2, o2) => (Some e, s2, o1 ++ o2)
        end
    | (Some e, _, s1, o1) => (Some e, s1, o1)
    end = (st, s', out) → grows s s').
  { destruct (main_half s img_dir out_img size keep_aspect false dry_run)
      as [[[[e|] [d1 k1]] s1] o1] eqn:H1;
      apply main_half_grows in H1 as [Hg1 _].
    - by intros [= _ <- _].
    - destruct (main_half s1 mask_dir out_mask size keep_aspect true dry_run)
        as [[[[e|] [d2 k2]] s2] o2] eqn:H2;
        apply main_half_grows in H2 as [Hg2 _];
        intros [= _ <- _]; by eapply grows_trans. }
  destruct img_dir, mask_dir; try exact Hrun.
  intros [= _ <- _]. apply grows_refl.
Qed.

(** X20. A dry run of the resize pass writes no file.  It still makes
    folders: the store it leaves is the store it found, followed by new
    directories only; and with no output folder given it is the store it
    found. *)
Theorem resize_dry_run_only_makes_dirs s img_dir mask_dir out_img out_mask
  size keep_aspect st s' out :
  main s img_dir mask_dir out_img out_mask size keep_aspect true
  = (st, s', out) →
  dirs_added s s'
  ∧ (out_img = None → out_mask = None → s' = s).
Proof.
  unfold ResizeRun.main.
  assert (Hrun :
    match main_half s img_dir out_img size keep_aspect false true with
    | (None, (d1, k1), s1, o1) =>
        match main_half s1 mask_dir out_mask size keep_aspect true true
        with
        | (None, (d2, k2), s2, o2) =>
            (None, s2, o1 ++ o2 ++ [Summary (d1 + d2) (k1 + k2)])
        | (Some e, _, s2, o2) => (Some e, s2, o1 ++ o2)
        end
    | (Some e, _, s1, o1) => (Some e, s1, o1)
    end = (st, s', out) →
    dirs_added s s' ∧ (out_img = None → out_mask = None → s' = s)).
  { destruct (main_half s img_dir out_img size keep_aspect false true)
      as [[[[e|] [d1 k1]] s1] o1] eqn:H1;
      pose proof (main_half_grows _ _ _ _ _ _ _ _ _ _ _ H1) as [_ Hd1].
    - intros [= _ <- _]. split; [by apply Hd1|].
      intros -> _. by apply main_half_dry_in_place in H1.
    - destruct (main_half s1 mask_dir out_mask size keep_aspect true true)
        as [[[[e|] [d2 k2]] s2] o2] eqn:H2;
        pose proof (main_half_grows _ _ _ _ _ _ _ _ _ _ _ H2) as [_ Hd2];
        intros [= _ <- _];
        (split; [eapply dirs_added_trans; [by apply Hd1 | by apply Hd2]|]);
        intros -> ->; apply main_half_dry_in_place in H1, H2; congruence. }
  destruct img_dir, mask_dir; try exact Hrun.
  intros [= _ <- _]. split; [apply dirs_added_refl | done].
Qed.

(** X21. [process_dir] accounts for every file it lists: on a directory,
    the files counted and the files skipped add up to the number of listed
    files, whatever fails on the way. *)
Theorem process_dir_accounts s in_dir out_dir size keep_aspect is_mask
  dry_run count skipped s' out :
  is_dir s in_dir = true →
  process_dir s in_dir out_dir size keep_aspect is_mask dry_run
  = (count, skipped, s', out) →
  (count + skipped = length (Resize.files s in_dir))%nat.
Proof.
  intros Hd Hrun. apply process_dir_grows in Hrun as (_ & _ & Hc).
  by apply Hc.
Qed.

(** X22. Masks resized in place do not touch the other formats:
    [process_dir] on masks without an output folder changes no path whose
    suffix is not [.png], unless it is another name (a hard link) of a file
    that has a name with that suffix.  A JPEG mask keeps its bytes, and so
    its size; the resized mask is written beside it as a PNG. *)
Theorem mask_resize_in_place_spares_other_formats s in_dir size keep_aspect
  dry_run count skipped s' out :
  process_dir s in_dir None size keep_aspect true dry_run
  = (count, skipped, s', out) →
  ∀ q, suffix q ≠ ".png"%string →
       (∀ d, suffix d = ".png"%string → samefile s d q = false) →
       lookup s' q = lookup s q.
Proof.
  unfold ResizeRun.process_dir.
  destruct (negb (is_dir s in_dir)); [by intros [= _ _ <- _]|].
  destruct (Resize.files s in_dir); [by intros [= _ _ <- _]|].
  apply process_masks_in_place.
Qed.

(** X23. A file counted by a real run has been written under its own
    stem: the store then holds a file whose stem is the stem of the
    source, named as the source for an image and with suffix [.png] for
    a mask, in the folder of the source or, with an output folder, in the
    folder that mirrors it. *)
Theorem counted_file_is_written s in_dir out_dir size keep_aspect is_mask
  src s' o :
  below in_dir src = true →
  process_file s in_dir out_dir size keep_aspect is_mask false src
  = (true, s', o) →
  ∃ dst bytes,
    read s' dst = Some bytes
    ∧ stem dst = stem src
    ∧ (if is_mask then suffix dst = ".png"%string
       else name dst = name src)
    ∧ match out_dir with
      | None => parent dst = parent src
      | Some o => ∃ rel, src = in_dir ++ rel
                         ∧ parent dst = parent (o ++ rel)
      end.
Proof.
  intros Hbelow Hrun.
  apply process_file_counted in Hrun
    as (dst & s1 & dst' & bytes & Hpl & Hdst & ->).
  apply place_effect in Hpl as (_ & Hnone & Hsome).
  exists dst', bytes. split; [apply read_write_file_eq|].
  assert (Hname : name dst = name src
                  ∧ match out_dir with
                    | None => parent dst = parent src
                    | Some o => ∃ rel, src = in_dir ++ rel
                                       ∧ parent dst = parent (o ++ rel)
                    end).
  { destruct out_dir as [o'|].
    - destruct (Hsome o' dst eq_refl eq_refl) as (rel & -> & ->).
      split; [|by exists rel].
      unfold below in Hbelow. apply andb_prop in Hbelow as [_ Hne].
      apply negb_true_iff, path_eqb_false in Hne.
      destruct rel as [|c rel] using rev_ind;
        [by rewrite app_nil_r in Hne|].
      unfold name. by rewrite !app_assoc, !last_last.
    - destruct (Hnone eq_refl) as [_ [= ->]]. done. }
  destruct Hname as [Hname Hmirror].
  assert (Hstem : stem dst = stem src) by (unfold stem; by rewrite Hname).
  destruct is_mask.
  - apply with_suffix_png_spec in Hdst as (Hsuf & Hst & Hpar).
    split; [congruence|]. split; [done|].
    destruct out_dir as [o'|].
    + destruct Hmirror as (rel & Hsrc & Hp). exists rel. split; congruence.
    + congruence.
  - injection Hdst as <-. done.
Qed.

End ResizeRunFacts.

Section ResizeRunWitnesses.
Import Fs Pathlib Vocabulary ResizeRun.

Abbreviation run_main :=
  (ResizeRun.main (list Z) Spec.as_bands Spec.every_size
     Spec.sample_kernel sample_load sample_convert sample_encode).
Abbreviation run_dir :=
  (ResizeRun.process_dir (list Z) Spec.as_bands Spec.every_size
     Spec.sample_kernel sample_load sample_convert sample_encode).
Abbreviation run_file :=
  (ResizeRun.process_file (list Z) Spec.as_bands Spec.every_size
     Spec.sample_kernel sample_load sample_convert sample_encode).

Lemma surjective_pairing_4 {A B C D} (r : A * B * C * D) :
  r = (r.1.1.1, r.1.1.2, r.1.2, r.2).
Proof. by destruct r as [[[? ?] ?] ?]. Qed.

Lemma resize_removes_nothing_witness :
  grows resize_folders
    (run_main resize_folders (Some ["in"]%string) (Some ["masks"]%string)
              None None 256 true false).1.2.
Proof.
  eapply (resize_removes_nothing (list Z) Spec.as_bands
            Spec.every_size Spec.sample_kernel sample_load sample_convert
            sample_encode).
  apply surjective_pairing_3.
Defined.

Lemma resize_dry_run_only_makes_dirs_witness :
  (run_main resize_folders (Some ["in"]%string) (Some ["masks"]%string)
            None None 256 true true).1.2
  = resize_folders.
Proof.
  refine (proj2 (resize_dry_run_only_makes_dirs (list Z) Spec.as_bands
            Spec.every_size Spec.sample_kernel sample_load sample_convert
            sample_encode resize_folders (Some ["in"]%string)
                   (Some ["masks"]%string) None None 256 true _ _ _ _)
            eq_refl eq_refl).
  apply surjective_pairing_3.
Defined.

Lemma process_dir_accounts_witness :
  let r := run_dir resize_folders ["in"]%string (Some ["out"]%string)
                   (256, 256) false false false in
  (r.1.1.1 + r.1.1.2 = length (Resize.files resize_folders ["in"]%string))%nat
  ∧ r.1.1.2 = 1%nat.
Proof.
  split; [|vm_compute; reflexivity].
  eapply (process_dir_accounts (list Z) Spec.as_bands
            Spec.every_size Spec.sample_kernel sample_load sample_convert
            sample_encode).
  - vm_compute. reflexivity.
  - apply surjective_pairing_4.
Defined.

Lemma mask_resize_in_place_spares_other_formats_witness :
  lookup (run_dir resize_folders ["masks"]%string None (256, 256)
                  true true false).1.2
         ["masks"; "a_mask.jpg"]%string
  = Some (File "mask").
Proof.
  rewrite (mask_resize_in_place_spares_other_formats (list Z) Spec.as_bands
             Spec.every_size Spec.sample_kernel sample_load sample_convert
             sample_encode resize_folders ["masks"]%string (256, 256) true
             false _ _ _ _ (surjective_pairing_4 _)).
  - vm_compute. reflexivity.
  - vm_compute. discriminate.
  - intros d Hd. rewrite samefile_alt.
    replace (ino_of resize_folders ["masks"; "a_mask.jpg"]%string)
      with (@None nat) by (vm_compute; reflexivity).
    destruct (path_eqb d ["masks"; "a_mask.jpg"]%string) eqn:E.
    + apply path_eqb_true in E. subst d. vm_compute in Hd. discriminate.
    + destruct (ino_of resize_folders d); cbn [orb];
        by rewrite andb_false_r.
Defined.

(** The in-place resize reaches the other names of a mask: a file kept
    under a second name as a hard link of a PNG mask is rewritten with
    it, whatever the suffix of that second name. *)
Lemma in_place_resize_reaches_links :
  let s := [ (["masks"], Dir);
             (["masks"; "a_mask.png"], Shared 1 "mask");
             (["keep"], Dir);
             (["keep"; "a_mask.bak"], Shared 1 "mask") ]%string in
  read s ["keep"; "a_mask.bak"]%string = Some "mask"%string
  ∧ read (run_dir s ["masks"]%string None (256, 256) true true false).1.2
         ["keep"; "a_mask.bak"]%string
    = Some "resized"%string.
Proof. split; vm_compute; reflexivity. Qed.

Lemma counted_file_is_written_witness :
  ∃ dst bytes,
    read (run_file resize_folders ["masks"]%string (Some ["out"]%string)
                   (256, 256) true true false
                   ["masks"; "a_mask.jpg"]%string).1.2
         dst = Some bytes
    ∧ stem dst = "a_mask"%string.
Proof.
  assert (Hb : below ["masks"]%string ["masks"; "a_mask.jpg"]%string = true)
    by (vm_compute; reflexivity).
  assert (Hrun : run_file resize_folders ["masks"]%string
                   (Some ["out"]%string) (256, 256) true true false
                   ["masks"; "a_mask.jpg"]%string
                 = (true,
                    (run_file resize_folders ["masks"]%string
                       (Some ["out"]%string) (256, 256) true true false
                       ["masks"; "a_mask.jpg"]%string).1.2,
                    [])) by (vm_compute; reflexivity).
  destruct (counted_file_is_written (list Z) Spec.as_bands
            Spec.every_size Spec.sample_kernel sample_load sample_convert
            sample_encode _ _ _ _ _ _ _ _ _
              Hb Hrun) as (dst & bytes & Hl & Hs & _).
  exists dst, bytes. split; [exact Hl|]. rewrite Hs.
  vm_compute. reflexivity.
Defined.

End ResizeRunWitnesses.
